(** * galaxy-js: the simulation kernel

    A shallow embedding of the simulation core of galaxy-js
    (src/math/vector.ts, src/math/matrix.ts, src/astro/star.ts,
    src/astro/galaxy.ts, src/physics/util.ts, src/physics/simple.ts) and
    the properties stated about it.

    Numbers.  The TypeScript code computes with the JavaScript type
    [number].  The embedding is written once, over an interface [Number]
    that lists the operations the code uses; nothing is assumed about
    them.  Properties that only depend on the control flow and the data
    flow of the code are proved for every implementation of the
    interface.  Properties that are identities of real arithmetic are
    proved for the instance [R_Number], where a [number] is a real number,
    and say so; rounding breaks them, and the instance [binary64], which
    computes with IEEE 754 double precision numbers, shows where.  The
    code is also evaluated with [binary64] on the concrete inputs of the
    properties, and the zero-distance skip of the integrator is proved
    for it.  In the instance [checked] a [number] is a real number or is
    undefined, so that a division by zero shows.

    Objects.  [Star] and [Galaxy] objects are mutable and are passed by
    reference, so the integrator runs over an explicit store ([Heap]) that
    maps references to objects.  [Vec3] and [Matrix3x3] values are never
    mutated by the code, so they are embedded as values. *)

From Stdlib Require Import Floats.
From Stdlib Require Import Reals Lra QArith RNsatz.
From stdpp Require Import gmap list option strings.

(** ** The operations on [number] the code uses *)

Class Number (num : Type) : Type := {
  (** a numeric literal of the source text *)
  lit : Q → num;
  nadd : num → num → num;
  nsub : num → num → num;
  nmul : num → num → num;
  ndiv : num → num → num;
  (** unary minus *)
  nneg : num → num;
  (** [a ** 2] *)
  nsquare : num → num;
  (** [a === b] *)
  nseq : num → num → bool;
  (** [a < b] *)
  nlt : num → num → bool;
  (** the truthiness of a number in a condition *)
  truthy : num → bool;
  Math_PI : num;
  Math_sqrt : num → num;
  Math_sin : num → num;
  Math_cos : num → num;
  Math_exp : num → num;
  Math_asin : num → num;
  Math_atan2 : num → num → num;
}.

Declare Scope num_scope.
Delimit Scope num_scope with num.
Infix "+" := nadd : num_scope.
Infix "-" := nsub : num_scope.
Infix "*" := nmul : num_scope.
Infix "/" := ndiv : num_scope.
Notation "- a" := (nneg a) : num_scope.
Infix "===" := nseq (at level 70, no associativity) : num_scope.
Infix "<?" := nlt : num_scope.
Notation "0" := (lit 0%Q) : num_scope.
Notation "1" := (lit 1%Q) : num_scope.
Notation "2" := (lit 2%Q) : num_scope.

(** ** [Math.random()]

    A computation that draws random numbers reads an infinite sequence of
    draws from the position it is given, and returns its result with the
    next position; [None] is a thrown exception (or, in a loop that runs
    on fuel, fuel that ran out). *)

Definition Rand (num A : Type) : Type := (nat → num) → nat → option (A * nat).

#[global] Instance Rand_ret {num : Type} : MRet (Rand num) :=
  λ A a _ i, Some (a, i).

#[global] Instance Rand_bind {num : Type} : MBind (Rand num) :=
  λ A B f m draws i,
    match m draws i with
    | Some (a, i') => f a draws i'
    | None => None
    end.

Definition Math_random {num : Type} : Rand num num :=
  λ draws i, Some (draws i, S i).

(** The result of a constructor that may throw. *)
Definition try {num A : Type} (o : option A) : Rand num A :=
  λ _ i, match o with Some a => Some (a, i) | None => None end.

(** ** src/math/vector.ts *)

Module Vec3.

(** [class Vec3 { x: number; y: number; z: number }] *)
Record t (num : Type) : Type := new { x : num; y : num; z : num }.
Arguments new {num} _ _ _.
Arguments x {num} _.
Arguments y {num} _.
Arguments z {num} _.

(** The argument of [add], [sub], [mul] and [div] has type
    [Vec3 | number]; the methods test [typeof other === 'number']. *)
Inductive operand (num : Type) : Type :=
| Vec (v : t num)
| Num (s : num).
Arguments Vec {num} _.
Arguments Num {num} _.

Section Methods.
Context {num : Type} `{!Number num}.
Local Open Scope num_scope.

Definition zero : t num := new 0 0 0.

Definition magnitude (this : t num) : num :=
  Math_sqrt (nsquare (x this) + nsquare (y this) + nsquare (z this)).

Definition copy (this : t num) : t num := new (x this) (y this) (z this).

Definition sub (this : t num) (other : operand num) : t num :=
  match other with
  | Num s => new (x this - s) (y this - s) (z this - s)
  | Vec o => new (x this - x o) (y this - y o) (z this - z o)
  end.

Definition add (this : t num) (other : operand num) : t num :=
  match other with
  | Num s => new (x this + s) (y this + s) (z this + s)
  | Vec o => new (x this + x o) (y this + y o) (z this + z o)
  end.

Definition mul (this : t num) (other : operand num) : t num :=
  match other with
  | Num s => new (x this * s) (y this * s) (z this * s)
  | Vec o => new (x this * x o) (y this * y o) (z this * z o)
  end.

Definition div (this : t num) (other : operand num) : t num :=
  match other with
  | Num s => new (x this / s) (y this / s) (z this / s)
  | Vec o => new (x this / x o) (y this / y o) (z this / z o)
  end.

Definition normalize (this : t num) : t num :=
  div this (Num (magnitude this)).

(** [factor: number = 1] *)
Definition random (factor : option num) : Rand num (t num) :=
  a ← Math_random;
  b ← Math_random;
  c ← Math_random;
  mret (mul (new a b c) (Num (default 1 factor))).

Definition randomCentered (factor : option num) : Rand num (t num) :=
  v ← random None;
  mret (mul (sub v (Num (lit 0.5))) (Num (default 1 factor))).

End Methods.
End Vec3.

Abbreviation Vec3 := Vec3.t.
Coercion Vec3.Vec : Vec3.t >-> Vec3.operand.

#[global] Instance Number_inhabited {num : Type} `{!Number num} : Inhabited num :=
  populate (lit 0%Q).

(** ** src/math/matrix.ts *)

Module Matrix3x3.

(** [class Matrix3x3 { private data: number[][] }] *)
Record t (num : Type) : Type := Build { data : list (list num) }.
Arguments Build {num} _.
Arguments data {num} _.

Section Methods.
Context {num : Type} `{!Number num}.
Local Open Scope num_scope.

(** The constructor: it throws ([None]) unless the data has three rows
    of three columns, and copies the rows. *)
Definition new (d : list (list num)) : option (t num) :=
  if bool_decide (length d ≠ 3%nat) then None
  else if forallb (λ row, bool_decide (length row = 3%nat)) d
       then Some (Build ((λ row, row) <$> d))
       else None.

(** [this.data[i][j]]; the constructor keeps every matrix three by
    three, so that both indices are in range. *)
Definition get (this : t num) (row col : nat) : num :=
  (data this !!! row) !!! col.

Definition toArray (this : t num) : list (list num) :=
  (λ row, row) <$> data this.

Definition identity : option (t num) :=
  new [ [1; 0; 0];
        [0; 1; 0];
        [0; 0; 1] ].

Definition fromEuler (x y z : num) : option (t num) :=
  let cx := Math_cos x in
  let sx := Math_sin x in
  let cy := Math_cos y in
  let sy := Math_sin y in
  let cz := Math_cos z in
  let sz := Math_sin z in
  new [ [cz * cy; cz * sy * sx - sz * cx; cz * sy * cx + sz * sx];
        [sz * cy; sz * sy * sx + cz * cx; sz * sy * cx - cz * sx];
        [- sy; cy * sx; cy * cx] ].

Definition fromAxisAngle (axis : Vec3 num) (angle : num) : option (t num) :=
  let x := Vec3.x axis in
  let y := Vec3.y axis in
  let z := Vec3.z axis in
  let c := Math_cos angle in
  let s := Math_sin angle in
  let t := 1 - c in
  let m00 := t * x * x + c in
  let m01 := t * x * y - z * s in
  let m02 := t * x * z + y * s in
  let m10 := t * y * x + z * s in
  let m11 := t * y * y + c in
  let m12 := t * y * z - x * s in
  let m20 := t * z * x - y * s in
  let m21 := t * z * y + x * s in
  let m22 := t * z * z + c in
  new [ [m00; m01; m02];
        [m10; m11; m12];
        [m20; m21; m22] ].

Definition transform (this : t num) (vec : Vec3 num) : Vec3 num :=
  Vec3.new
    (get this 0 0 * Vec3.x vec + get this 1 0 * Vec3.y vec + get this 2 0 * Vec3.z vec)
    (get this 0 1 * Vec3.x vec + get this 1 1 * Vec3.y vec + get this 2 1 * Vec3.z vec)
    (get this 0 2 * Vec3.x vec + get this 1 2 * Vec3.y vec + get this 2 2 * Vec3.z vec).

(** The three nested loops of [mul]: entry [i][j] starts at [0] and
    receives [this.data[i][k] * other.data[k][j]] for [k = 0, 1, 2]. *)
Definition mul (this other : t num) : option (t num) :=
  let result :=
    (λ i, (λ j, foldl (λ acc k, acc + get this i k * get other k j) 0 (seq 0 3))
            <$> seq 0 3)
      <$> seq 0 3 in
  new result.

Definition toEuler (this : t num) : Vec3 num :=
  Vec3.new
    (Math_atan2 (get this 2 1) (get this 2 2))
    (Math_asin (- get this 2 0))
    (Math_atan2 (get this 1 0) (get this 0 0)).

(** src/math/angles.ts *)
Definition TWO_PI : num := Math_PI * 2.
Definition randomAngle : Rand num num :=
  r ← Math_random; mret (r * TWO_PI).
Definition randomAngleInRange (min max : num) : Rand num num :=
  r ← Math_random; mret (r * (max - min) + min).

Definition randomRotation : Rand num (t num) :=
  x ← randomAngle;
  y ← randomAngle;
  z ← randomAngle;
  try (fromEuler x y z).

End Methods.
End Matrix3x3.

Abbreviation Matrix3x3 := Matrix3x3.t.

(** ** src/astro/star.ts and src/astro/galaxy.ts

    [data: Record<string, unknown>] is a map from strings to values of a
    type [unknown] the kernel never inspects. *)

(** A reference to an object of the store. *)
Definition ref : Type := nat.

Module Star.

Record t (num unknown : Type) : Type := Build {
  pos : Vec3 num;
  vel : Vec3 num;
  mass : num;
  data : gmap string unknown;
}.
Arguments Build {num unknown} _ _ _ _.
Arguments pos {num unknown} _.
Arguments vel {num unknown} _.
Arguments mass {num unknown} _.
Arguments data {num unknown} _.

Section Methods.
Context {num unknown : Type} `{!Number num}.
Local Open Scope num_scope.

(** The constructor: [None] (throws) when [pos] or [vel] is missing;
    [mass] defaults to [0] and [data] starts empty. *)
Definition new (pos vel : option (Vec3 num)) (mass : option num)
  : option (t num unknown) :=
  match pos with
  | None => None
  | Some p =>
      match vel with
      | None => None
      | Some v => Some (Build p v (default 0 mass) ∅)
      end
  end.

(** [star.vel = v] and [star.pos = p] *)
Definition set_vel (v : Vec3 num) (star : t num unknown) : t num unknown :=
  Build (pos star) v (mass star) (data star).
Definition set_pos (p : Vec3 num) (star : t num unknown) : t num unknown :=
  Build p (vel star) (mass star) (data star).

End Methods.
End Star.

Abbreviation Star := Star.t.

Module Galaxy.

(** [stars: Star[]] holds references in the store ([star := ref]) or,
    in a snapshot of the store and in a freshly generated galaxy, the
    stars themselves ([star := Star num unknown]). *)
Record t (num unknown star : Type) : Type := Build {
  vel : Vec3 num;
  pos : Vec3 num;
  rotation : Vec3 num;
  mass : num;
  stars : list star;
  data : gmap string unknown;
}.
Arguments Build {num unknown star} _ _ _ _ _ _.
Arguments vel {num unknown star} _.
Arguments pos {num unknown star} _.
Arguments rotation {num unknown star} _.
Arguments mass {num unknown star} _.
Arguments stars {num unknown star} _.
Arguments data {num unknown star} _.

Section Methods.
Context {num unknown star : Type}.

(** The constructor: [None] (throws) when [vel], [pos] or [rotation] is
    missing; [stars] and [data] start empty. *)
Definition new (vel pos rotation : option (Vec3 num)) (mass : num)
  : option (t num unknown star) :=
  match vel with
  | None => None
  | Some v =>
      match pos with
      | None => None
      | Some p =>
          match rotation with
          | None => None
          | Some r => Some (Build v p r mass [] ∅)
          end
      end
  end.

(** [galaxy.vel = v], [galaxy.pos = p] and [galaxy.stars.push(s)] *)
Definition set_vel (v : Vec3 num) (g : t num unknown star) : t num unknown star :=
  Build v (pos g) (rotation g) (mass g) (stars g) (data g).
Definition set_pos (p : Vec3 num) (g : t num unknown star) : t num unknown star :=
  Build (vel g) p (rotation g) (mass g) (stars g) (data g).
Definition push (s : star) (g : t num unknown star) : t num unknown star :=
  Build (vel g) (pos g) (rotation g) (mass g) (stars g ++ [s]) (data g).

End Methods.
End Galaxy.

Abbreviation Galaxy := Galaxy.t.

(** ** The store of [Star] and [Galaxy] objects *)

Record Heap (num unknown : Type) : Type := mkHeap {
  heap_stars : gmap ref (Star num unknown);
  heap_galaxies : gmap ref (Galaxy num unknown ref);
}.
Arguments mkHeap {num unknown} _ _.
Arguments heap_stars {num unknown} _.
Arguments heap_galaxies {num unknown} _.

(** [for (const x of xs) body]: the body runs once for every element, in
    order, on the state the previous iteration left; it may fail. *)
Fixpoint for_of {A St : Type} (xs : list A) (body : A → St → option St) (s : St)
  : option St :=
  match xs with
  | [] => Some s
  | x :: xs' => s' ← body x s; for_of xs' body s'
  end.

(** [for (let i = 0; i < xs.length; i++) body(xs[i], i)] for an array the
    body leaves alone. *)
Fixpoint for_index {A St : Type} (i : nat) (xs : list A)
    (body : A → nat → St → option St) (s : St) : option St :=
  match xs with
  | [] => Some s
  | x :: xs' => s' ← body x i s; for_index (S i) xs' body s'
  end.

Section Store.
Context {num unknown : Type}.

Definition read_star (star : ref) (h : Heap num unknown)
  : option (Star num unknown) := heap_stars h !! star.

Definition read_galaxy (galaxy : ref) (h : Heap num unknown)
  : option (Galaxy num unknown ref) := heap_galaxies h !! galaxy.

(** An assignment to a field of the star, respectively the galaxy, a
    reference points to. *)
Definition write_star (star : ref) (f : Star num unknown → Star num unknown)
    (h : Heap num unknown) : option (Heap num unknown) :=
  s ← read_star star h;
  Some (mkHeap (<[star := f s]> (heap_stars h)) (heap_galaxies h)).

Definition write_galaxy (galaxy : ref)
    (f : Galaxy num unknown ref → Galaxy num unknown ref)
    (h : Heap num unknown) : option (Heap num unknown) :=
  g ← read_galaxy galaxy h;
  Some (mkHeap (heap_stars h) (<[galaxy := f g]> (heap_galaxies h))).

End Store.

(** ** src/physics/util.ts *)

Section Util.
Context {num unknown : Type}.

(** [allStars(galaxies, func)]: the stars array of a galaxy is read when
    its loop starts; the callbacks of this development assign fields of
    stars only. *)
Definition allStars (galaxies : list ref)
    (func : ref → ref → nat → Heap num unknown → option (Heap num unknown))
    (h : Heap num unknown) : option (Heap num unknown) :=
  for_of galaxies
    (λ galaxy h,
       g ← read_galaxy galaxy h;
       for_index 0 (Galaxy.stars g) (λ star i, func star galaxy i) h)
    h.

(** [starCount(galaxies)] *)
Definition starCount (galaxies : list ref) (h : Heap num unknown) : option nat :=
  for_of galaxies
    (λ galaxy acc, g ← read_galaxy galaxy h; Some (acc + length (Galaxy.stars g)))
    0.

End Util.

(** ** src/physics/simple.ts: the integrator *)

Section Integrator.
Context {num unknown : Type} `{!Number num}.
Local Open Scope num_scope.

Definition TIME_STEP : num := lit 0.005.
Definition G : num := lit 0.001.

(** The body of the two summation loops (lines 70-83 and 102-112, the
    same statements): the contribution of the galaxy at [otherPos] with
    mass [otherMass] to the acceleration of a body at [bodyPos]. *)
Definition accumulate (bodyPos otherPos : Vec3 num) (otherMass : num)
    (totalAcceleration : Vec3 num) : Vec3 num :=
  let dPos := Vec3.sub otherPos bodyPos in
  let distSq := nsquare (Vec3.magnitude dPos) in
  if distSq === 0 then totalAcceleration
  else
    let dist := Math_sqrt distSq in
    let accelerationScalar := (G * otherMass) / (dist * distSq) in
    let accelerationVec := Vec3.mul dPos (Vec3.Num accelerationScalar) in
    Vec3.add totalAcceleration accelerationVec.

(** Lines 64-92: the callback of [allStars]. *)
Definition updateStar (galaxies : list ref) (star : ref)
    (h : Heap num unknown) : option (Heap num unknown) :=
  totalAcceleration ←
    for_of galaxies
      (λ otherGalaxy totalAcceleration,
         og ← read_galaxy otherGalaxy h;
         s ← read_star star h;
         Some (accumulate (Star.pos s) (Galaxy.pos og) (Galaxy.mass og)
                 totalAcceleration))
      Vec3.zero;
  let deltaVelocity := Vec3.mul totalAcceleration (Vec3.Num TIME_STEP) in
  h ← write_star star (λ s, Star.set_vel (Vec3.add (Star.vel s) deltaVelocity) s) h;
  write_star star
    (λ s, Star.set_pos
            (Vec3.add (Star.pos s) (Vec3.mul (Star.vel s) (Vec3.Num TIME_STEP))) s)
    h.

(** Lines 95-118: one iteration of the loop over the galaxies. *)
Definition updateGalaxyVelocity (galaxies : list ref) (galaxy : ref)
    (h : Heap num unknown) : option (Heap num unknown) :=
  totalAcceleration ←
    for_of galaxies
      (λ otherGalaxy totalAcceleration,
         if bool_decide (galaxy = otherGalaxy) then Some totalAcceleration
         else
           og ← read_galaxy otherGalaxy h;
           g ← read_galaxy galaxy h;
           Some (accumulate (Galaxy.pos g) (Galaxy.pos og) (Galaxy.mass og)
                   totalAcceleration))
      Vec3.zero;
  let deltaVelocity := Vec3.mul totalAcceleration (Vec3.Num TIME_STEP) in
  write_galaxy galaxy
    (λ g, Galaxy.set_vel (Vec3.add (Galaxy.vel g) deltaVelocity) g) h.

(** Lines 124-126: one iteration of the last loop. *)
Definition updateGalaxyPosition (galaxy : ref)
    (h : Heap num unknown) : option (Heap num unknown) :=
  write_galaxy galaxy
    (λ g, Galaxy.set_pos
            (Vec3.add (Galaxy.pos g) (Vec3.mul (Galaxy.vel g) (Vec3.Num TIME_STEP))) g)
    h.

Definition updateGalaxies (galaxies : list ref)
    (h : Heap num unknown) : option (Heap num unknown) :=
  (* 1. Update star velocities and positions *)
  h ← allStars galaxies (λ star _ _, updateStar galaxies star) h;
  (* 2. Calculate and update galaxy velocities *)
  h ← for_of galaxies (updateGalaxyVelocity galaxies) h;
  (* 3. Update galaxy positions *)
  for_of galaxies updateGalaxyPosition h.

End Integrator.

(** ** src/physics/simple.ts: the generator *)

(** [type GalaxyOptions]: every key is optional. *)
Record GalaxyOptions (num : Type) : Type := mkGalaxyOptions {
  minStarCount : option num;
  maxStarCount : option num;
  minGalaxyRadius : option num;
  maxGalaxyRadius : option num;
  maxInitialSpeed : option num;
  rewindTimeSteps : option num;
  initialCollisionAvoidanceOffset : option num;
}.
Arguments mkGalaxyOptions {num} _ _ _ _ _ _ _.
Arguments minStarCount {num} _.
Arguments maxStarCount {num} _.
Arguments minGalaxyRadius {num} _.
Arguments maxGalaxyRadius {num} _.
Arguments maxInitialSpeed {num} _.
Arguments rewindTimeSteps {num} _.
Arguments initialCollisionAvoidanceOffset {num} _.

Section Generator.
Context {num unknown : Type} `{!Number num}.
Local Open Scope num_scope.

(** A galaxy under construction holds its stars themselves. *)
Definition createRandomStarInGalaxy
    (galaxy : Galaxy num unknown (Star num unknown))
    (rotationMatrix : Matrix3x3 num) (galaxyRadius : option num)
  : Rand num (Star num unknown) :=
  let galaxyRadius := default 1 galaxyRadius in
  r ← Math_random;
  let angularPosition := 2 * Math_PI * r in
  r ← Math_random;
  let distanceFromCenter := r * galaxyRadius in
  r ← Math_random;
  let heightFromPlane :=
    ((r * Math_exp (nneg 2 * (distanceFromCenter / galaxyRadius))) / lit 5) * galaxyRadius in
  r ← Math_random;
  let heightFromPlane :=
    if r <? lit 0.5 then - heightFromPlane else heightFromPlane in
  let distanceToCenter3D :=
    Math_sqrt (nsquare distanceFromCenter + nsquare heightFromPlane) in
  let orbitalSpeed := Math_sqrt ((Galaxy.mass galaxy * G) / distanceToCenter3D) in
  let sinW := Math_sin angularPosition in
  let cosW := Math_cos angularPosition in
  let localPosition :=
    Vec3.new (distanceFromCenter * cosW) (distanceFromCenter * sinW) heightFromPlane in
  let localVelocity := Vec3.new (- orbitalSpeed * sinW) (orbitalSpeed * cosW) 0 in
  let worldPosition :=
    Vec3.add (Matrix3x3.transform rotationMatrix localPosition) (Galaxy.pos galaxy) in
  let worldVelocity :=
    Vec3.add (Matrix3x3.transform rotationMatrix localVelocity) (Galaxy.vel galaxy) in
  try (Star.new (Some worldPosition) (Some worldVelocity) None).

(** Lines 207-209: [for (let i = 0; i < targetNumberOfStars; i++)], from
    the current value of [i]; every iteration takes one unit of fuel. *)
Fixpoint populate (fuel : nat) (i targetNumberOfStars : num)
    (rotationMatrix : Matrix3x3 num) (galaxyRadius : num)
    (galaxy : Galaxy num unknown (Star num unknown))
  : Rand num (Galaxy num unknown (Star num unknown)) :=
  if i <? targetNumberOfStars then
    match fuel with
    | O => try None
    | S fuel' =>
        star ← createRandomStarInGalaxy galaxy rotationMatrix (Some galaxyRadius);
        populate fuel' (i + 1) targetNumberOfStars rotationMatrix galaxyRadius
          (Galaxy.push star galaxy)
    end
  else mret galaxy.

(** Lines 189-194: [max ? Math.random() * (max - min) + min : min] *)
Definition inRange (min : num) (max : option num) : Rand num num :=
  match max with
  | Some max =>
      if truthy max then r ← Math_random; mret (r * (max - min) + min)
      else mret min
  | None => mret min
  end.

Definition createRandomGalaxy (fuel : nat) (options : GalaxyOptions num)
  : Rand num (Galaxy num unknown (Star num unknown)) :=
  let minStarCount := default (lit 1500) (minStarCount options) in
  let maxStarCount := maxStarCount options in
  let minGalaxyRadius := default 1 (minGalaxyRadius options) in
  let maxGalaxyRadius := maxGalaxyRadius options in
  let maxInitialSpeed := default (lit 4) (maxInitialSpeed options) in
  let rewindTimeSteps := default (lit 3) (rewindTimeSteps options) in
  let initialCollisionAvoidanceOffset :=
    default (lit 1.5) (initialCollisionAvoidanceOffset options) in
  initialVelocity ← Vec3.randomCentered (Some maxInitialSpeed);
  let rewindVector := Vec3.mul initialVelocity (Vec3.Num (- rewindTimeSteps)) in
  offset ← Vec3.randomCentered (Some initialCollisionAvoidanceOffset);
  let initialPosition := Vec3.add rewindVector (Vec3.Vec offset) in
  rotation ← Vec3.random (Some Math_PI);
  targetNumberOfStars ← inRange minStarCount maxStarCount;
  galaxyRadius ← inRange minGalaxyRadius maxGalaxyRadius;
  galaxy ← try (Galaxy.new (Some initialVelocity) (Some initialPosition)
                  (Some rotation) targetNumberOfStars);
  rotationMatrix ← try (Matrix3x3.fromEuler (Vec3.x (Galaxy.rotation galaxy))
                          (Vec3.y (Galaxy.rotation galaxy))
                          (Vec3.z (Galaxy.rotation galaxy)));
  populate fuel 0 targetNumberOfStars rotationMatrix galaxyRadius galaxy.

End Generator.

(** ** What the store holds for a sequence of galaxies *)

Section Snapshot.
Context {num unknown : Type}.

(** The galaxy with its stars read from the store. *)
Definition snapshot_galaxy (h : Heap num unknown) (g : Galaxy num unknown ref)
  : option (Galaxy num unknown (Star num unknown)) :=
  ss ← mapM (λ star, read_star star h) (Galaxy.stars g);
  Some (Galaxy.Build (Galaxy.vel g) (Galaxy.pos g) (Galaxy.rotation g)
          (Galaxy.mass g) ss (Galaxy.data g)).

(** The value of an array of galaxies: every galaxy with its stars.  It
    is defined when every reference of the array, and of the stars
    arrays of its galaxies, points to an object. *)
Definition snapshot (galaxies : list ref) (h : Heap num unknown)
  : option (list (Galaxy num unknown (Star num unknown))) :=
  mapM (λ galaxy, g ← read_galaxy galaxy h; snapshot_galaxy h g) galaxies.

(** The references to stars the traversal of [allStars] meets, in order. *)
Definition star_refs (galaxies : list ref) (h : Heap num unknown) : list ref :=
  galaxies ≫= λ galaxy,
    match read_galaxy galaxy h with
    | Some g => Galaxy.stars g
    | None => []
    end.

(** Every galaxy owns its stars: no galaxy occurs twice in the array and
    no star occurs twice in the traversal. *)
Definition owned (galaxies : list ref) (h : Heap num unknown) : Prop :=
  NoDup galaxies ∧ NoDup (star_refs galaxies h).

End Snapshot.

(** ** The integrator, one object at a time

    What one call does to one star and to one galaxy, as functions of the
    objects the call reads. *)

Section Steps.
Context {num unknown : Type} `{!Number num}.

(** The acceleration of a star at [bodyPos]: the first summation loop
    over the galaxies [others]. *)
Definition starAcceleration {star : Type} (bodyPos : Vec3 num)
    (others : list (Galaxy num unknown star)) : Vec3 num :=
  foldl (λ acc og, accumulate bodyPos (Galaxy.pos og) (Galaxy.mass og) acc)
    Vec3.zero others.

Definition nextStar {star : Type} (others : list (Galaxy num unknown star))
    (s : Star num unknown) : Star num unknown :=
  let deltaVelocity :=
    Vec3.mul (starAcceleration (Star.pos s) others) (Vec3.Num TIME_STEP) in
  let s := Star.set_vel (Vec3.add (Star.vel s) (Vec3.Vec deltaVelocity)) s in
  Star.set_pos
    (Vec3.add (Star.pos s) (Vec3.Vec (Vec3.mul (Star.vel s) (Vec3.Num TIME_STEP)))) s.

(** The acceleration of the galaxy [galaxy] at [bodyPos]: the second
    summation loop, over the references [galaxies] read in the map [gm]. *)
Definition galaxyAcceleration (gm : gmap ref (Galaxy num unknown ref))
    (galaxies : list ref) (galaxy : ref) (bodyPos : Vec3 num) : Vec3 num :=
  foldl (λ acc otherGalaxy,
           if bool_decide (galaxy = otherGalaxy) then acc
           else match gm !! otherGalaxy with
                | Some og => accumulate bodyPos (Galaxy.pos og) (Galaxy.mass og) acc
                | None => acc
                end)
    Vec3.zero galaxies.

Definition nextVelocity (gm : gmap ref (Galaxy num unknown ref))
    (galaxies : list ref) (galaxy : ref) (g : Galaxy num unknown ref)
  : Galaxy num unknown ref :=
  let deltaVelocity :=
    Vec3.mul (galaxyAcceleration gm galaxies galaxy (Galaxy.pos g))
      (Vec3.Num TIME_STEP) in
  Galaxy.set_vel (Vec3.add (Galaxy.vel g) (Vec3.Vec deltaVelocity)) g.

Definition nextPosition {star : Type} (g : Galaxy num unknown star)
  : Galaxy num unknown star :=
  Galaxy.set_pos
    (Vec3.add (Galaxy.pos g) (Vec3.Vec (Vec3.mul (Galaxy.vel g) (Vec3.Num TIME_STEP)))) g.

End Steps.

(** ** Real numbers as [number] *)

#[global] Instance R_eq_dec : EqDecision R := Req_dec_T.
#[global] Instance Rlt_decision : RelDecision Rlt := Rlt_dec.
#[global] Instance Rle_decision : RelDecision Rle := Rle_dec.

(** [Math.atan2(y, x)]: the angle in (-PI, PI] of the point [(x, y)], and
    [0] at the origin. *)
Definition R_atan2 (y x : R) : R :=
  if decide (0 < x)%R then atan (y / x)
  else if decide (x < 0)%R then
    if decide (0 <= y)%R then (atan (y / x) + PI)%R else (atan (y / x) - PI)%R
  else if decide (0 < y)%R then (PI / 2)%R
  else if decide (y < 0)%R then (- (PI / 2))%R
  else 0%R.

#[global] Instance R_Number : Number R := {|
  lit := Q2R;
  nadd := Rplus;
  nsub := Rminus;
  nmul := Rmult;
  ndiv := Rdiv;
  nneg := Ropp;
  nsquare := λ a, (a ^ 2)%R;
  nseq := λ a b, bool_decide (a = b);
  nlt := λ a b, bool_decide (a < b)%R;
  truthy := λ a, bool_decide (a ≠ 0%R);
  Math_PI := PI;
  Math_sqrt := sqrt;
  Math_sin := sin;
  Math_cos := cos;
  Math_exp := exp;
  Math_asin := asin;
  Math_atan2 := R_atan2;
|}.

(** ** Double precision numbers as [number]

    The arithmetic, the comparisons and the square root are those of IEEE
    754 binary64.  [a ** 2] is taken to be [a * a].  The other functions
    of [Math] are parameters. *)

Definition float_of_Z (z : Z) : float :=
  match z with
  | Z0 => 0%float
  | Zpos _ => PrimFloat.of_uint63 (Uint63.of_Z z)
  | Zneg p => PrimFloat.opp (PrimFloat.of_uint63 (Uint63.of_Z (Zpos p)))
  end.

Definition binary64 (fsin fcos fexp fasin : float → float)
    (fatan2 : float → float → float) : Number float := {|
  lit := λ q, PrimFloat.div (float_of_Z (Qnum q)) (float_of_Z (Zpos (Qden q)));
  nadd := PrimFloat.add;
  nsub := PrimFloat.sub;
  nmul := PrimFloat.mul;
  ndiv := PrimFloat.div;
  nneg := PrimFloat.opp;
  nsquare := λ a, PrimFloat.mul a a;
  nseq := PrimFloat.eqb;
  nlt := PrimFloat.ltb;
  truthy := λ a, negb (PrimFloat.eqb a 0%float) && PrimFloat.eqb a a;
  Math_PI := 0x1.921fb54442d18p+1%float;
  Math_sqrt := PrimFloat.sqrt;
  Math_sin := fsin;
  Math_cos := fcos;
  Math_exp := fexp;
  Math_asin := fasin;
  Math_atan2 := fatan2;
|}.

(** Doubles for code that calls no function of [Math] but [Math.sqrt]:
    the other functions are not modelled and return NaN. *)
Definition binary64_arith : Number float :=
  binary64 (λ _, nan) (λ _, nan) (λ _, nan) (λ _, nan) (λ _ _, nan).

(** A double that is neither an infinity nor NaN. *)
Definition finite_float (x : float) : bool :=
  match Prim2SF x with
  | S754_zero _ | S754_finite _ _ _ => true
  | _ => false
  end.

(** Two positions with finite coordinates that [===] finds equal,
    coordinate by coordinate ([0] and [-0] are equal). *)
Definition same_position64 (p q : Vec3 float) : bool :=
  finite_float (Vec3.x p) && PrimFloat.eqb (Vec3.x p) (Vec3.x q)
  && finite_float (Vec3.y p) && PrimFloat.eqb (Vec3.y p) (Vec3.y q)
  && finite_float (Vec3.z p) && PrimFloat.eqb (Vec3.z p) (Vec3.z q).

(** ** Exact arithmetic with undefined operations

    A [number] is a real number or is undefined ([None]): the quotient by
    zero, the square root of a negative number and the arc sine outside
    [-1, 1] are undefined, where JavaScript returns an infinity or NaN;
    an operation on an undefined number is undefined, and a comparison
    with an undefined number is false, as it is with NaN. *)

Definition checked : Number (option R) := {|
  lit := λ q, Some (Q2R q);
  nadd := λ a b, x ← a; y ← b; Some (x + y)%R;
  nsub := λ a b, x ← a; y ← b; Some (x - y)%R;
  nmul := λ a b, x ← a; y ← b; Some (x * y)%R;
  ndiv := λ a b, x ← a; y ← b; if decide (y = 0%R) then None else Some (x / y)%R;
  nneg := λ a, x ← a; Some (- x)%R;
  nsquare := λ a, x ← a; Some (x ^ 2)%R;
  nseq := λ a b, match a, b with
                 | Some x, Some y => bool_decide (x = y)
                 | _, _ => false
                 end;
  nlt := λ a b, match a, b with
                | Some x, Some y => bool_decide (x < y)%R
                | _, _ => false
                end;
  truthy := λ a, match a with
                 | Some x => bool_decide (x ≠ 0%R)
                 | None => false
                 end;
  Math_PI := Some PI;
  Math_sqrt := λ a, x ← a; if decide (0 <= x)%R then Some (sqrt x) else None;
  Math_sin := λ a, x ← a; Some (sin x);
  Math_cos := λ a, x ← a; Some (cos x);
  Math_exp := λ a, x ← a; Some (exp x);
  Math_asin := λ a, x ← a; if decide (-1 <= x <= 1)%R then Some (asin x) else None;
  Math_atan2 := λ a b, y ← a; x ← b; Some (R_atan2 y x);
|}.

(** The vector, the star, the galaxy and the store in which every number
    is the defined number it is in the argument. *)
Definition defined_vec (v : Vec3 R) : Vec3 (option R) :=
  Vec3.new (Some (Vec3.x v)) (Some (Vec3.y v)) (Some (Vec3.z v)).
Definition defined_star {unknown : Type} (s : Star R unknown) : Star (option R) unknown :=
  Star.Build (defined_vec (Star.pos s)) (defined_vec (Star.vel s)) (Some (Star.mass s))
    (Star.data s).
Definition defined_galaxy {unknown star : Type} (g : Galaxy R unknown star)
  : Galaxy (option R) unknown star :=
  Galaxy.Build (defined_vec (Galaxy.vel g)) (defined_vec (Galaxy.pos g))
    (defined_vec (Galaxy.rotation g)) (Some (Galaxy.mass g)) (Galaxy.stars g)
    (Galaxy.data g).
Definition defined_heap {unknown : Type} (h : Heap R unknown) : Heap (option R) unknown :=
  mkHeap (defined_star <$> heap_stars h) (defined_galaxy <$> heap_galaxies h).

(** ** The reference definitions the code is compared with

    These definitions follow the words of the specification, over the
    reals; they are not translated from the code. *)

Module Reference.
Section Reference.
Context {unknown : Type}.
Local Open Scope R_scope.

Definition dt : R := 0.005.
Definition G : R := 0.001.

Definition vadd (a b : Vec3 R) : Vec3 R :=
  Vec3.new (Vec3.x a + Vec3.x b) (Vec3.y a + Vec3.y b) (Vec3.z a + Vec3.z b).
Definition vsub (a b : Vec3 R) : Vec3 R :=
  Vec3.new (Vec3.x a - Vec3.x b) (Vec3.y a - Vec3.y b) (Vec3.z a - Vec3.z b).
Definition scale (k : R) (a : Vec3 R) : Vec3 R :=
  Vec3.new (k * Vec3.x a) (k * Vec3.y a) (k * Vec3.z a).
Definition norm (a : Vec3 R) : R :=
  sqrt (Vec3.x a * Vec3.x a + Vec3.y a * Vec3.y a + Vec3.z a * Vec3.z a).
Definition vsum (l : list (Vec3 R)) : Vec3 R :=
  foldr vadd (Vec3.new 0 0 0) l.

(** [G·M/|r|³ · r] with [r = g.pos − p] *)
Definition pull {star : Type} (p : Vec3 R) (g : Galaxy R unknown star) : Vec3 R :=
  let r := vsub (Galaxy.pos g) p in
  scale (G * Galaxy.mass g / norm r ^ 3) r.

(** Phase 1: the sum over all galaxies, then the velocity, then the
    position from the new velocity. *)
Definition star_step {star : Type} (gs : list (Galaxy R unknown star))
    (s : Star R unknown) : Star R unknown :=
  let a := vsum (pull (Star.pos s) <$> gs) in
  let v := vadd (Star.vel s) (scale dt a) in
  Star.Build (vadd (Star.pos s) (scale dt v)) v (Star.mass s) (Star.data s).

(** Phases 2 and 3 for the galaxy at position [i] of the sequence: the
    sum over every other galaxy, then the velocity; the position from
    the new velocity. *)
Definition galaxy_step (gs : list (Galaxy R unknown (Star R unknown)))
    (i : nat) (g : Galaxy R unknown (Star R unknown))
  : Galaxy R unknown (Star R unknown) :=
  let a := vsum (pull (Galaxy.pos g) <$> delete i gs) in
  let v := vadd (Galaxy.vel g) (scale dt a) in
  Galaxy.Build v (vadd (Galaxy.pos g) (scale dt v)) (Galaxy.rotation g)
    (Galaxy.mass g) (star_step gs <$> Galaxy.stars g) (Galaxy.data g).

Definition updateGalaxies (gs : list (Galaxy R unknown (Star R unknown)))
  : list (Galaxy R unknown (Star R unknown)) :=
  imap (galaxy_step gs) gs.

(** The rotations about one axis and the product of three by three
    matrices, as rows of entries. *)
Definition Rx (a : R) : list (list R) :=
  [ [1; 0; 0];
    [0; cos a; - sin a];
    [0; sin a; cos a] ].
Definition Ry (a : R) : list (list R) :=
  [ [cos a; 0; sin a];
    [0; 1; 0];
    [- sin a; 0; cos a] ].
Definition Rz (a : R) : list (list R) :=
  [ [cos a; - sin a; 0];
    [sin a; cos a; 0];
    [0; 0; 1] ].
Definition entry (A : list (list R)) (i j : nat) : R :=
  nth j (nth i A []) 0.
Definition product (A B : list (list R)) : list (list R) :=
  (λ i, (λ j, entry A i 0 * entry B 0 j + entry A i 1 * entry B 1 j
              + entry A i 2 * entry B 2 j) <$> [0; 1; 2]%nat)
    <$> [0; 1; 2]%nat.

End Reference.
End Reference.

(** ** Relations between objects and between stores *)

Section Relations.
Context {num unknown : Type}.

(** The galaxies [gvals] are what the references [galaxies] point to. *)
Definition resolves (gm : gmap ref (Galaxy num unknown ref))
    (galaxies : list ref) (gvals : list (Galaxy num unknown ref)) : Prop :=
  Forall2 (λ r g, gm !! r = Some g) galaxies gvals.

(** Two galaxies at the same position and of the same mass. *)
Definition same_place {star star' : Type}
    (g : Galaxy num unknown star) (g' : Galaxy num unknown star') : Prop :=
  Galaxy.pos g = Galaxy.pos g' ∧ Galaxy.mass g = Galaxy.mass g'.

(** Two maps that hold, at every reference, galaxies at the same
    position and of the same mass. *)
Definition same_places (gm gm' : gmap ref (Galaxy num unknown ref)) : Prop :=
  ∀ r, option_Forall2 same_place (gm !! r) (gm' !! r).

(** Two galaxies at the same position, of the same mass and with the
    same array of stars. *)
Definition same_arrangement (g g' : Galaxy num unknown ref) : Prop :=
  same_place g g' ∧ Galaxy.stars g = Galaxy.stars g'.

(** Two stars with the same position and velocity. *)
Definition same_motion (s s' : Star num unknown) : Prop :=
  Star.pos s = Star.pos s' ∧ Star.vel s = Star.vel s'.

(** The fields of a galaxy and of a star that no assignment of
    [updateGalaxies] names. *)
Definition galaxy_frame (g g' : Galaxy num unknown ref) : Prop :=
  Galaxy.mass g' = Galaxy.mass g ∧ Galaxy.rotation g' = Galaxy.rotation g
  ∧ Galaxy.data g' = Galaxy.data g ∧ Galaxy.stars g' = Galaxy.stars g.
Definition star_frame (s s' : Star num unknown) : Prop :=
  Star.mass s' = Star.mass s ∧ Star.data s' = Star.data s.

End Relations.

(** Component [i] of a vector and a sum over the indices [0, 1, 2]. *)
Definition component (v : Vec3 R) (i : nat) : R :=
  match i with
  | O => Vec3.x v
  | S O => Vec3.y v
  | _ => Vec3.z v
  end.
Definition sum3 (f : nat → R) : R := (f 0%nat + f 1%nat + f 2%nat)%R.

(** The value [targetNumberOfStars] takes when the draws are read from
    position [i]: the tenth draw, scaled into the range, when
    [maxStarCount] is given and is not zero; [minStarCount] otherwise. *)
Definition starTarget (options : GalaxyOptions R) (draws : nat → R) (i : nat) : R :=
  let min := default 1500%R (minStarCount options) in
  match maxStarCount options with
  | Some max =>
      if bool_decide (max ≠ 0%R) then (draws (i + 9)%nat * (max - min) + min)%R else min
  | None => min
  end.

(** ** A concrete store

    Two galaxies of mass 100 at rest on the x axis, at [x = -1] and at
    [x = 1]; in [two_galaxies_two_stars x] the first galaxy owns a star at
    the centre of the second galaxy and a star at [(x, 0, 0)]. *)

Section Scenario.
Local Open Scope R_scope.

Definition left_galaxy (stars : list ref) : Galaxy R string ref :=
  Galaxy.Build (Vec3.new 0 0 0) (Vec3.new (-1) 0 0) (Vec3.new 0 0 0) 100 stars ∅.
Definition right_galaxy : Galaxy R string ref :=
  Galaxy.Build (Vec3.new 0 0 0) (Vec3.new 1 0 0) (Vec3.new 0 0 0) 100 [] ∅.
Definition star_at (x : R) : Star R string :=
  Star.Build (Vec3.new x 0 0) (Vec3.new 0 0 0) 0 ∅.

Definition two_galaxies : Heap R string :=
  mkHeap ∅ (<[0%nat := left_galaxy []]> (<[1%nat := right_galaxy]> ∅)).
Definition two_galaxies_two_stars (x : R) : Heap R string :=
  mkHeap (<[2%nat := star_at 1]> (<[3%nat := star_at x]> ∅))
    (<[0%nat := left_galaxy [2%nat; 3%nat]]> (<[1%nat := right_galaxy]> ∅)).

End Scenario.

(** The same two galaxies in double precision. *)
Definition galaxy64 (x : float) : Galaxy float string ref :=
  Galaxy.Build (Vec3.new 0 0 0)%float (Vec3.new x 0 0)%float (Vec3.new 0 0 0)%float
    100%float [] ∅.
Definition two_galaxies64 : Heap float string :=
  mkHeap ∅ (<[0%nat := galaxy64 (-1)%float]> (<[1%nat := galaxy64 1%float]> ∅)).

(** A star at the centre of the second galaxy. *)
Definition coincident_star64 : Heap float string :=
  mkHeap (<[2%nat := Star.Build (Vec3.new 1 0 0)%float (Vec3.new 0 0 0)%float 0%float ∅]> ∅)
    (heap_galaxies two_galaxies64).

(** One galaxy that moves along x with speed 1. *)
Definition moving_galaxy64 : Heap float string :=
  mkHeap ∅
    (<[0%nat := Galaxy.Build (Vec3.new 1 0 0)%float (Vec3.new 0 0 0)%float
                  (Vec3.new 0 0 0)%float 100%float [] ∅]> ∅).

(** One galaxy of mass 100 at rest at the origin, with one star at rest
    at [(x, 0, 0)]: in doubles, as a store, and over the reals, as the
    value of the array. *)
Definition near_star64 (x : float) : Heap float string :=
  mkHeap (<[1%nat := Star.Build (Vec3.new x 0 0)%float (Vec3.new 0 0 0)%float 0%float ∅]> ∅)
    (<[0%nat := Galaxy.Build (Vec3.new 0 0 0)%float (Vec3.new 0 0 0)%float
                  (Vec3.new 0 0 0)%float 100%float [1%nat] ∅]> ∅).
Definition near_star (x : R) : Galaxy R string (Star R string) :=
  Galaxy.Build (Vec3.new 0 0 0)%R (Vec3.new 0 0 0)%R (Vec3.new 0 0 0)%R 100%R
    [Star.Build (Vec3.new x 0 0)%R (Vec3.new 0 0 0)%R 0%R ∅] ∅.

(** One galaxy at [(4, 5, 6)] that moves with velocity [(1, 2, 3)], alone
    in its store. *)
Definition drifting_galaxy : Galaxy R string ref :=
  Galaxy.Build (Vec3.new 1 2 3)%R (Vec3.new 4 5 6)%R (Vec3.new 0 0 0)%R 100%R [] ∅.
Definition one_galaxy : Heap R string :=
  mkHeap ∅ (<[0%nat := drifting_galaxy]> ∅).

(** * Further notions

    Notions the further properties of the code are stated with. *)

Section FurtherNotions.
Local Open Scope R_scope.

(** The scalar product of two vectors. *)
Definition dot (a b : Vec3 R) : R :=
  Vec3.x a * Vec3.x b + Vec3.y a * Vec3.y b + Vec3.z a * Vec3.z b.

(** An operand of [div] without a zero component. *)
Definition operand_nonzero (b : Vec3.operand R) : Prop :=
  match b with
  | Vec3.Num s => s ≠ 0
  | Vec3.Vec o => Vec3.x o ≠ 0 ∧ Vec3.y o ≠ 0 ∧ Vec3.z o ≠ 0
  end.

(** Every component of the vector lies between [lo] and [hi]. *)
Definition in_cube (lo hi : R) (v : Vec3 R) : Prop :=
  lo <= Vec3.x v <= hi ∧ lo <= Vec3.y v <= hi ∧ lo <= Vec3.z v <= hi.

(** [Math.random()] returns numbers in [0, 1). *)
Definition unit_draws (draws : nat → R) : Prop :=
  ∀ i, 0 <= draws i < 1.

(** The data has three rows of three columns. *)
Definition three_by_three {num : Type} (d : list (list num)) : Prop :=
  length d = 3%nat ∧ Forall (λ row, length row = 3%nat) d.

End FurtherNotions.

(** ** Notions for the further properties of the integrator *)

(** The calls of [allStars]: the star, its galaxy and the index of the star
    in the stars array of the galaxy, in the order of the calls. *)
Definition visits {num unknown : Type} (galaxies : list ref) (h : Heap num unknown)
  : list (ref * ref * nat) :=
  galaxies ≫= λ galaxy,
    match read_galaxy galaxy h with
    | Some g => imap (λ i star, (star, galaxy, i)) (Galaxy.stars g)
    | None => []
    end.

(** [n] calls of [updateGalaxies] in a row, as the animation loops of
    src/web make them. *)
Fixpoint frames {num unknown : Type} `{!Number num} (n : nat) (galaxies : list ref)
    (h : Heap num unknown) : option (Heap num unknown) :=
  match n with
  | O => Some h
  | S n' => h' ← updateGalaxies galaxies h; frames n' galaxies h'
  end.

(** The sum of a list of reals, and the momentum of a sequence of
    galaxies: the sum of mass times velocity. *)
Definition rsum (l : list R) : R := foldr Rplus 0%R l.
Definition momentum {unknown star : Type} (gs : list (Galaxy R unknown star)) : Vec3 R :=
  Reference.vsum ((λ g, Reference.scale (Galaxy.mass g) (Galaxy.vel g)) <$> gs).

(** ** Notions for the further properties of the generator *)

(** The upper end of the range [max ? Math.random() * (max - min) + min :
    min] draws from: [max] when it is given and is not zero, [min]
    otherwise. *)
Definition range_end (min : R) (max : option R) : R :=
  match max with
  | Some max => if bool_decide (max ≠ 0%R) then max else min
  | None => min
  end.

(** The position and the velocity of a star relative to its galaxy. *)
Definition relative_pos {unknown star : Type} (g : Galaxy R unknown star)
    (s : Star R unknown) : Vec3 R :=
  Reference.vsub (Star.pos s) (Galaxy.pos g).
Definition relative_vel {unknown star : Type} (g : Galaxy R unknown star)
    (s : Star R unknown) : Vec3 R :=
  Reference.vsub (Star.vel s) (Galaxy.vel g).

(** The matrix keeps the scalar product of any two vectors it
    transforms. *)
Definition isometry (m : Matrix3x3 R) : Prop :=
  ∀ u v, dot (Matrix3x3.transform m u) (Matrix3x3.transform m v) = dot u v.

(** ** The star in the local coordinate system of its galaxy

    Lines 229-260 of src/physics/simple.ts, as functions of the four
    numbers [createRandomStarInGalaxy] draws: the position on the disk
    with its height, and the velocity of a circular orbit. *)

Section LocalStar.
Context {num : Type} `{!Number num}.
Local Open Scope num_scope.

Definition heightFromPlane (galaxyRadius r1 r2 r3 : num) : num :=
  let distanceFromCenter := r1 * galaxyRadius in
  let heightFromPlane :=
    ((r2 * Math_exp (nneg 2 * (distanceFromCenter / galaxyRadius))) / lit 5) * galaxyRadius in
  if r3 <? lit 0.5 then - heightFromPlane else heightFromPlane.

Definition localPosition (galaxyRadius r0 r1 r2 r3 : num) : Vec3 num :=
  let angularPosition := 2 * Math_PI * r0 in
  let distanceFromCenter := r1 * galaxyRadius in
  Vec3.new (distanceFromCenter * Math_cos angularPosition)
    (distanceFromCenter * Math_sin angularPosition)
    (heightFromPlane galaxyRadius r1 r2 r3).

Definition localVelocity (mass galaxyRadius r0 r1 r2 r3 : num) : Vec3 num :=
  let angularPosition := 2 * Math_PI * r0 in
  let distanceFromCenter := r1 * galaxyRadius in
  let distanceToCenter3D :=
    Math_sqrt (nsquare distanceFromCenter
               + nsquare (heightFromPlane galaxyRadius r1 r2 r3)) in
  let orbitalSpeed := Math_sqrt ((mass * G) / distanceToCenter3D) in
  Vec3.new (- orbitalSpeed * Math_sin angularPosition)
    (orbitalSpeed * Math_cos angularPosition) 0.

End LocalStar.

(** * Proofs *)


Section MapFacts.
Context {A : Type}.
Implicit Types (m : gmap ref A) (F : ref → A → A).

Lemma alter_lookup_Some (f : A → A) m i x :
  m !! i = Some x → alter f i m = <[i := f x]> m.
Proof.
  intros Hx. apply map_eq. intros j. destruct (decide (i = j)) as [->|Hne].
  - by rewrite lookup_alter_eq, lookup_insert_eq, Hx.
  - by rewrite lookup_alter_ne, lookup_insert_ne.
Qed.

(** A sequence of in-place updates changes no key and leaves every
    object it does not name alone. *)
Lemma foldl_alter_is_Some F l m k :
  is_Some (foldl (λ m r, alter (F r) r m) m l !! k) ↔ is_Some (m !! k).
Proof.
  revert m. induction l as [|r l IH]; intros m; [done|]. cbn. rewrite IH.
  destruct (decide (r = k)) as [->|Hne].
  - rewrite lookup_alter_eq. by rewrite fmap_is_Some.
  - by rewrite lookup_alter_ne.
Qed.

Lemma foldl_alter_notin F l m k :
  k ∉ l → foldl (λ m r, alter (F r) r m) m l !! k = m !! k.
Proof.
  revert m. induction l as [|r l IH]; intros m Hk; [done|]. cbn.
  apply not_elem_of_cons in Hk as [Hne Hk]. rewrite IH by done.
  by rewrite lookup_alter_ne.
Qed.

Lemma foldl_alter_NoDup F l m k :
  NoDup l → k ∈ l → foldl (λ m r, alter (F r) r m) m l !! k = F k <$> m !! k.
Proof.
  revert m. induction l as [|r l IH]; intros m Hnd Hk; [by apply elem_of_nil in Hk|].
  apply NoDup_cons in Hnd as [Hr Hnd]. cbn.
  apply elem_of_cons in Hk as [->|Hk].
  - rewrite foldl_alter_notin by done. by rewrite lookup_alter_eq.
  - rewrite IH by done. rewrite lookup_alter_ne; [done|]. by intros ->.
Qed.

(** A property of objects that every update preserves holds between the
    map before and the map after. *)
Lemma foldl_alter_preserved (P : A → A → Prop) F l m k x :
  (∀ a, P a a) → (∀ a b c, P a b → P b c → P a c) → (∀ r a, P a (F r a)) →
  m !! k = Some x →
  ∃ x', foldl (λ m r, alter (F r) r m) m l !! k = Some x' ∧ P x x'.
Proof.
  intros Hrefl Htrans HF. revert m x. induction l as [|r l IH]; intros m x Hx.
  - exists x. by split.
  - cbn. destruct (decide (r = k)) as [->|Hne].
    + destruct (IH (alter (F k) k m) (F k x)) as (x' & Hx' & HP).
      { by rewrite lookup_alter_eq, Hx. }
      exists x'. split; [done|]. eapply Htrans; [apply HF|done].
    + apply IH. by rewrite lookup_alter_ne.
Qed.

Lemma foldl_alter_rel (P : A → A → Prop) F l m k :
  (∀ a, P a a) → (∀ a b c, P a b → P b c → P a c) → (∀ r a, P a (F r a)) →
  option_Forall2 P (m !! k) (foldl (λ m r, alter (F r) r m) m l !! k).
Proof.
  intros Hrefl Htrans HF. destruct (m !! k) as [x|] eqn:Hx.
  - destruct (foldl_alter_preserved P F l m k x) as (x' & -> & HP); auto.
    by constructor.
  - destruct (foldl _ _ _ !! k) eqn:Hk; [|constructor].
    assert (is_Some (m !! k)) as [? ?]; [|congruence].
    apply (foldl_alter_is_Some F l). eauto.
Qed.

(** Two runs of the same sequence of updates, with updates that respect
    a relation [Q], keep the objects at [k] related. *)
Lemma foldl_alter_two_runs (Q : A → A → Prop) (f1 f2 : A → A) l m1 m2 k :
  (∀ a b, Q a b → Q (f1 a) (f2 b)) →
  option_Forall2 Q (m1 !! k) (m2 !! k) →
  option_Forall2 Q (foldl (λ m r, alter f1 r m) m1 l !! k)
    (foldl (λ m r, alter f2 r m) m2 l !! k).
Proof.
  intros Hf. revert m1 m2. induction l as [|r l IH]; intros m1 m2 HQ; [done|].
  cbn [foldl]. apply IH. destruct (decide (r = k)) as [->|Hne].
  - rewrite !lookup_alter_eq. destruct HQ; constructor; auto.
  - by rewrite !lookup_alter_ne.
Qed.
End MapFacts.

Section Phases.
Context {num unknown : Type} `{!Number num}.
Implicit Types (h : Heap num unknown) (sm : gmap ref (Star num unknown))
  (gm : gmap ref (Galaxy num unknown ref)).


Lemma read_galaxy_mk sm gm r : read_galaxy r (mkHeap sm gm) = gm !! r.
Proof. reflexivity. Qed.
Lemma read_star_mk sm gm r : read_star r (mkHeap sm gm) = sm !! r.
Proof. reflexivity. Qed.

Lemma star_summation gm sm galaxies gvals star s acc :
  resolves gm galaxies gvals → sm !! star = Some s →
  for_of galaxies
    (λ otherGalaxy totalAcceleration,
       og ← read_galaxy otherGalaxy (mkHeap sm gm);
       s ← read_star star (mkHeap sm gm);
       Some (accumulate (Star.pos s) (Galaxy.pos og) (Galaxy.mass og) totalAcceleration))
    acc
  = Some (foldl (λ acc og, accumulate (Star.pos s) (Galaxy.pos og) (Galaxy.mass og) acc)
            acc gvals).
Proof.
  intros Hres Hs. revert acc. induction Hres as [|r g rs gs Hr _ IH]; intros acc; [done|].
  cbn [for_of foldl]. rewrite <- IH.
  unfold read_galaxy, read_star. cbn [heap_galaxies heap_stars].
  by rewrite Hr, Hs.
Qed.

Lemma updateStar_eq gm sm galaxies gvals star s :
  resolves gm galaxies gvals → sm !! star = Some s →
  updateStar galaxies star (mkHeap sm gm)
  = Some (mkHeap (<[star := nextStar gvals s]> sm) gm).
Proof.
  intros Hres Hs. unfold updateStar.
  rewrite (star_summation _ _ _ _ _ _ _ Hres Hs). cbn.
  unfold write_star, read_star. cbn. rewrite Hs. cbn.
  rewrite lookup_insert_eq. cbn. by rewrite insert_insert_eq.
Qed.

Lemma stars_loop gm galaxies gvals ss :
  resolves gm galaxies gvals →
  ∀ i sm, Forall (λ s, is_Some (sm !! s)) ss →
    for_index i ss (λ star _, updateStar galaxies star) (mkHeap sm gm)
    = Some (mkHeap (foldl (λ m s, alter (nextStar gvals) s m) sm ss) gm).
Proof.
  intros Hres. induction ss as [|s ss IH]; intros i sm Hall; [done|].
  apply Forall_cons in Hall as [[x Hx] Hall]. cbn.
  rewrite (updateStar_eq _ _ _ _ _ _ Hres Hx). cbn.
  rewrite (alter_lookup_Some _ _ _ _ Hx). apply IH.
  eapply Forall_impl; [done|]. intros s' Hs'. cbn in Hs'.
  rewrite lookup_insert_is_Some. destruct (decide (s = s')); auto.
Qed.

Lemma allStars_eq gm galaxies gvals :
  resolves gm galaxies gvals →
  ∀ gl gv sm, resolves gm gl gv →
    Forall (λ s, is_Some (sm !! s)) (gv ≫= Galaxy.stars) →
    allStars gl (λ star _ _, updateStar galaxies star) (mkHeap sm gm)
    = Some (mkHeap (foldl (λ m s, alter (nextStar gvals) s m) sm
                      (gv ≫= Galaxy.stars)) gm).
Proof.
  intros Hres gl gv sm Hgl. unfold allStars. revert sm.
  induction Hgl as [|r g rs gs Hr _ IH]; intros sm Hall; [done|].
  rewrite bind_cons in *. apply Forall_app in Hall as [Hg Hall].
  cbn [for_of]. rewrite read_galaxy_mk, Hr.
  cbn [mbind option_bind].
  rewrite (stars_loop _ _ _ _ Hres) by done. cbn [mbind option_bind].
  rewrite foldl_app. apply IH.
  eapply Forall_impl; [done|]. intros s' Hs'. cbn in Hs'.
  by apply foldl_alter_is_Some.
Qed.


Lemma same_places_refl gm : same_places gm gm.
Proof. intros r. destruct (gm !! r); by constructor. Qed.

Lemma same_places_alter gm gm' r f :
  same_places gm gm' → (∀ g, same_place g (f g)) → same_places gm (alter f r gm').
Proof.
  intros Hsame Hf k. specialize (Hsame k). destruct (decide (r = k)) as [->|Hne].
  - rewrite lookup_alter_eq. destruct Hsame as [g g' [Hp Hm]|]; constructor.
    destruct (Hf g') as [Hp' Hm']. split; congruence.
  - by rewrite lookup_alter_ne.
Qed.

Lemma galaxyAcceleration_same_places gm gm' galaxies galaxy bodyPos :
  same_places gm gm' →
  galaxyAcceleration gm galaxies galaxy bodyPos
  = galaxyAcceleration gm' galaxies galaxy bodyPos.
Proof.
  intros Hsame. unfold galaxyAcceleration. generalize (@Vec3.zero num _).
  induction galaxies as [|r rs IH]; intros acc; [done|]. cbn [foldl].
  rewrite <- IH. f_equal. case_bool_decide; [done|].
  destruct (Hsame r) as [g g' [Hp Hm]|]; [|done]. by rewrite Hp, Hm.
Qed.

Lemma galaxy_summation gm sm galaxies galaxy g acc :
  Forall (λ r, is_Some (gm !! r)) galaxies → gm !! galaxy = Some g →
  for_of galaxies
    (λ otherGalaxy totalAcceleration,
       if bool_decide (galaxy = otherGalaxy) then Some totalAcceleration
       else
         og ← read_galaxy otherGalaxy (mkHeap sm gm);
         g ← read_galaxy galaxy (mkHeap sm gm);
         Some (accumulate (Galaxy.pos g) (Galaxy.pos og) (Galaxy.mass og)
                 totalAcceleration))
    acc
  = Some (foldl (λ acc otherGalaxy,
                   if bool_decide (galaxy = otherGalaxy) then acc
                   else match gm !! otherGalaxy with
                        | Some og =>
                            accumulate (Galaxy.pos g) (Galaxy.pos og) (Galaxy.mass og) acc
                        | None => acc
                        end)
            acc galaxies).
Proof.
  intros Hall Hg. revert acc.
  induction Hall as [|r rs [og Hr] _ IH]; intros acc; [done|].
  cbn [for_of foldl]. rewrite <- IH. rewrite !read_galaxy_mk, Hr, Hg.
  by case_bool_decide.
Qed.

Lemma updateGalaxyVelocity_eq gm sm galaxies galaxy g :
  Forall (λ r, is_Some (gm !! r)) galaxies → gm !! galaxy = Some g →
  updateGalaxyVelocity galaxies galaxy (mkHeap sm gm)
  = Some (mkHeap sm (<[galaxy := nextVelocity gm galaxies galaxy g]> gm)).
Proof.
  intros Hall Hg. unfold updateGalaxyVelocity.
  rewrite (galaxy_summation _ _ _ _ _ _ Hall Hg). cbn [mbind option_bind].
  unfold write_galaxy. by rewrite read_galaxy_mk, Hg.
Qed.

Lemma velocity_loop gm0 sm galaxies gl :
  ∀ gm, same_places gm0 gm →
    Forall (λ r, is_Some (gm !! r)) galaxies →
    Forall (λ r, is_Some (gm !! r)) gl →
    for_of gl (updateGalaxyVelocity galaxies) (mkHeap sm gm)
    = Some (mkHeap sm
              (foldl (λ m r, alter (nextVelocity gm0 galaxies r) r m) gm gl)).
Proof.
  induction gl as [|r rs IH]; intros gm Hsame Hall Hgl; [done|].
  apply Forall_cons in Hgl as [[g Hg] Hgl]. cbn [for_of foldl].
  rewrite (updateGalaxyVelocity_eq _ _ _ _ _ Hall Hg). cbn [mbind option_bind].
  assert (Halter : <[r := nextVelocity gm galaxies r g]> gm
                   = alter (nextVelocity gm0 galaxies r) r gm).
  { rewrite (alter_lookup_Some _ _ _ _ Hg). unfold nextVelocity.
    by rewrite (galaxyAcceleration_same_places _ _ _ _ _ Hsame). }
  rewrite Halter. apply IH.
  - by apply same_places_alter.
  - eapply Forall_impl; [done|]. intros k Hk. cbn in Hk.
    by apply (foldl_alter_is_Some (λ r, nextVelocity gm0 galaxies r) [r]).
  - eapply Forall_impl; [done|]. intros k Hk. cbn in Hk.
    by apply (foldl_alter_is_Some (λ r, nextVelocity gm0 galaxies r) [r]).
Qed.

Lemma updateGalaxyPosition_eq gm sm galaxy g :
  gm !! galaxy = Some g →
  updateGalaxyPosition galaxy (mkHeap sm gm)
  = Some (mkHeap sm (<[galaxy := nextPosition g]> gm)).
Proof.
  intros Hg. unfold updateGalaxyPosition, write_galaxy.
  by rewrite read_galaxy_mk, Hg.
Qed.

Lemma position_loop sm gl :
  ∀ gm, Forall (λ r, is_Some (gm !! r)) gl →
    for_of gl updateGalaxyPosition (mkHeap sm gm)
    = Some (mkHeap sm (foldl (λ m r, alter nextPosition r m) gm gl)).
Proof.
  induction gl as [|r rs IH]; intros gm Hgl; [done|].
  apply Forall_cons in Hgl as [[g Hg] Hgl]. cbn [for_of foldl].
  rewrite (updateGalaxyPosition_eq _ _ _ _ Hg). cbn [mbind option_bind].
  rewrite <- (alter_lookup_Some nextPosition _ _ _ Hg). apply IH.
  eapply Forall_impl; [done|]. intros k Hk. cbn in Hk.
  by apply (foldl_alter_is_Some (λ _, nextPosition) [r]).
Qed.


Lemma resolves_is_Some gm galaxies gvals :
  resolves gm galaxies gvals → Forall (λ r, is_Some (gm !! r)) galaxies.
Proof. induction 1; constructor; eauto. Qed.

(** One call of [updateGalaxies], as three sequences of in-place updates. *)
Lemma updateGalaxies_eq h galaxies gvals :
  resolves (heap_galaxies h) galaxies gvals →
  Forall (λ s, is_Some (heap_stars h !! s)) (gvals ≫= Galaxy.stars) →
  updateGalaxies galaxies h
  = Some (mkHeap
            (foldl (λ m s, alter (nextStar gvals) s m) (heap_stars h)
               (gvals ≫= Galaxy.stars))
            (foldl (λ m r, alter nextPosition r m)
               (foldl (λ m r, alter (nextVelocity (heap_galaxies h) galaxies r) r m)
                  (heap_galaxies h) galaxies)
               galaxies)).
Proof.
  intros Hres Hstars. destruct h as [sm gm]. cbn [heap_stars heap_galaxies] in *.
  pose proof (resolves_is_Some _ _ _ Hres) as Hall.
  unfold updateGalaxies.
  rewrite (allStars_eq _ _ _ Hres _ _ _ Hres Hstars). cbn [mbind option_bind].
  rewrite (velocity_loop gm) by auto using same_places_refl.
  cbn [mbind option_bind]. apply position_loop.
  eapply Forall_impl; [done|]. intros k Hk. cbn in Hk.
  by apply foldl_alter_is_Some.
Qed.

(** What a defined snapshot says about the store. *)
Lemma snapshot_galaxy_Some h g v :
  snapshot_galaxy h g = Some v →
  Forall2 (λ s sv, heap_stars h !! s = Some sv) (Galaxy.stars g) (Galaxy.stars v)
  ∧ v = Galaxy.Build (Galaxy.vel g) (Galaxy.pos g) (Galaxy.rotation g)
          (Galaxy.mass g) (Galaxy.stars v) (Galaxy.data g).
Proof.
  unfold snapshot_galaxy. intros Hv.
  destruct (mapM _ _) as [ss|] eqn:Hss; [|done]. cbn in Hv.
  injection Hv as <-. cbn. split; [|done]. by apply mapM_Some in Hss.
Qed.

Lemma snapshot_Some h galaxies gs :
  snapshot galaxies h = Some gs →
  ∃ gvals, resolves (heap_galaxies h) galaxies gvals
           ∧ Forall2 (λ g v, snapshot_galaxy h g = Some v) gvals gs.
Proof.
  unfold snapshot. intros Hgs. apply mapM_Some in Hgs.
  induction Hgs as [|r v rs vs Hr _ (gvals & Hres & Hsnap)].
  - exists []. split; constructor.
  - unfold read_galaxy in Hr. destruct (heap_galaxies h !! r) as [g|] eqn:Hg; [|done].
    exists (g :: gvals). split; by constructor.
Qed.

Lemma snapshot_stars_is_Some h gvals gs :
  Forall2 (λ g v, snapshot_galaxy h g = Some v) gvals gs →
  Forall (λ s, is_Some (heap_stars h !! s)) (gvals ≫= Galaxy.stars).
Proof.
  induction 1 as [|g v gvals gs Hg _ IH]; [constructor|].
  rewrite bind_cons. apply Forall_app. split; [|done].
  apply snapshot_galaxy_Some in Hg as [Hstars _].
  induction Hstars; constructor; eauto.
Qed.

Lemma star_refs_resolves h galaxies gvals :
  resolves (heap_galaxies h) galaxies gvals →
  star_refs galaxies h = gvals ≫= Galaxy.stars.
Proof.
  unfold star_refs. induction 1 as [|r g rs gs Hr _ IH]; [done|].
  rewrite !bind_cons, IH. unfold read_galaxy. by rewrite Hr.
Qed.

(** *** The frame of [updateGalaxies] *)


Lemma galaxy_frame_refl (g : Galaxy num unknown ref) : galaxy_frame g g.
Proof. by repeat split. Qed.
Lemma galaxy_frame_trans (g1 g2 g3 : Galaxy num unknown ref) :
  galaxy_frame g1 g2 → galaxy_frame g2 g3 → galaxy_frame g1 g3.
Proof. unfold galaxy_frame. intros (?&?&?&?) (?&?&?&?). repeat split; congruence. Qed.
Lemma star_frame_refl (s : Star num unknown) : star_frame s s.
Proof. by split. Qed.
Lemma star_frame_trans (s1 s2 s3 : Star num unknown) :
  star_frame s1 s2 → star_frame s2 s3 → star_frame s1 s3.
Proof. unfold star_frame. intros (?&?) (?&?). split; congruence. Qed.

(** C10.  [updateGalaxies] assigns only the [pos] and [vel] fields.  On a
    store in which every reference of the array points to an object, the
    call returns; the store holds objects at the same references as
    before; every galaxy keeps its mass, its rotation, its data map and
    its stars array (the same references in the same order); every star
    keeps its mass and its data map.  The array [galaxies] is a value the
    call cannot change. *)
Theorem updateGalaxies_frame h galaxies :
  is_Some (snapshot galaxies h) →
  ∃ h', updateGalaxies galaxies h = Some h'
        ∧ (∀ r, option_Forall2 galaxy_frame (heap_galaxies h !! r) (heap_galaxies h' !! r))
        ∧ (∀ s, option_Forall2 star_frame (heap_stars h !! s) (heap_stars h' !! s)).
Proof.
  intros [gs Hgs]. apply snapshot_Some in Hgs as (gvals & Hres & Hsnap).
  eexists. split.
  { apply (updateGalaxies_eq _ _ _ Hres), (snapshot_stars_is_Some _ _ _ Hsnap). }
  cbn [heap_galaxies heap_stars]. split.
  - intros r.
    pose proof (foldl_alter_rel (@galaxy_frame num unknown)
                  (λ r, nextVelocity (heap_galaxies h) galaxies r) galaxies
                  (heap_galaxies h) r galaxy_frame_refl galaxy_frame_trans
                  (λ _ g, galaxy_frame_refl g)) as H1.
    pose proof (foldl_alter_rel (@galaxy_frame num unknown) (λ _, nextPosition) galaxies
                  (foldl (λ m r, alter (nextVelocity (heap_galaxies h) galaxies r) r m)
                     (heap_galaxies h) galaxies)
                  r galaxy_frame_refl galaxy_frame_trans
                  (λ _ g, galaxy_frame_refl g)) as H2.
    destruct H1 as [g g1 Hg1|]; inversion H2 as [g1' g2 Hg2|]; subst; constructor.
    by apply (galaxy_frame_trans _ g1).
  - intros s.
    apply (foldl_alter_rel (@star_frame num unknown) (λ _, nextStar gvals));
      [apply star_frame_refl | apply star_frame_trans | intros _ a; by split].
Qed.

(** *** No star depends on another star *)

Lemma starAcceleration_same_place {star star' : Type} bodyPos
    (gs : list (Galaxy num unknown star)) (gs' : list (Galaxy num unknown star')) :
  Forall2 same_place gs gs' →
  starAcceleration bodyPos gs = starAcceleration bodyPos gs'.
Proof.
  unfold starAcceleration. generalize (@Vec3.zero num _).
  intros acc Hgs. revert acc.
  induction Hgs as [|g g' gs gs' [Hp Hm] _ IH]; intros acc; [done|].
  cbn [foldl]. by rewrite Hp, Hm, IH.
Qed.


Lemma nextStar_same_motion {star star' : Type}
    (gs : list (Galaxy num unknown star)) (gs' : list (Galaxy num unknown star')) s s' :
  Forall2 same_place gs gs' → same_motion s s' →
  same_motion (nextStar gs s) (nextStar gs' s').
Proof.
  intros Hgs [Hp Hv]. unfold same_motion, nextStar. cbn.
  by rewrite (starAcceleration_same_place _ _ _ Hgs), Hp, Hv.
Qed.


Lemma resolves_related (Q : Galaxy num unknown ref → Galaxy num unknown ref → Prop)
    gm1 gm2 galaxies gv1 gv2 :
  resolves gm1 galaxies gv1 → resolves gm2 galaxies gv2 →
  (∀ r, r ∈ galaxies → option_Forall2 Q (gm1 !! r) (gm2 !! r)) →
  Forall2 Q gv1 gv2.
Proof.
  intros H1. revert gv2. induction H1 as [|r g1 rs gs1 Hr1 _ IH]; intros gv2 H2 HQ.
  - inversion H2. constructor.
  - inversion H2 as [|r' g2 rs' gs2 Hr2 H2']; subst. constructor.
    + specialize (HQ r (list_elem_of_here _ _)). rewrite Hr1, Hr2 in HQ.
      by inversion HQ.
    + apply IH; [done|]. intros k Hk. apply HQ. by apply list_elem_of_further.
Qed.

(** C7.  Two runs of [updateGalaxies] on stores that hold, for every
    galaxy of the array, the same position, mass and stars array, and the
    same position and velocity for the star [star], leave [star] with the
    same position and velocity, whatever the other stars are. *)
Theorem star_independent_of_other_stars h1 h2 galaxies star s1 s2 :
  is_Some (snapshot galaxies h1) → is_Some (snapshot galaxies h2) →
  (∀ r, r ∈ galaxies →
     option_Forall2 same_arrangement (heap_galaxies h1 !! r) (heap_galaxies h2 !! r)) →
  heap_stars h1 !! star = Some s1 → heap_stars h2 !! star = Some s2 →
  same_motion s1 s2 →
  ∃ h1' h2' s1' s2',
    updateGalaxies galaxies h1 = Some h1' ∧ updateGalaxies galaxies h2 = Some h2'
    ∧ heap_stars h1' !! star = Some s1' ∧ heap_stars h2' !! star = Some s2'
    ∧ same_motion s1' s2'.
Proof.
  intros [gs1 Hgs1] [gs2 Hgs2] Hsame Hs1 Hs2 Hmotion.
  apply snapshot_Some in Hgs1 as (gv1 & Hres1 & Hsnap1).
  apply snapshot_Some in Hgs2 as (gv2 & Hres2 & Hsnap2).
  pose proof (resolves_related _ _ _ _ _ _ Hres1 Hres2 Hsame) as Hgv.
  assert (Hplaces : Forall2 same_place gv1 gv2).
  { eapply Forall2_impl; [done|]. by intros g g' [? _]. }
  assert (Hrefs : gv1 ≫= Galaxy.stars = gv2 ≫= Galaxy.stars).
  { clear -Hgv. induction Hgv as [|g g' gs gs' [_ Hst] _ IH]; [done|].
    by rewrite !bind_cons, Hst, IH. }
  pose proof (foldl_alter_two_runs (@same_motion num unknown) (nextStar gv1) (nextStar gv2)
                (gv1 ≫= Galaxy.stars) (heap_stars h1) (heap_stars h2) star) as Hruns.
  rewrite Hs1, Hs2 in Hruns.
  specialize (Hruns (λ a b, nextStar_same_motion gv1 gv2 a b Hplaces)
                (Some_Forall2 _ _ _ Hmotion)).
  inversion Hruns as [s1' s2' Hfinal Hl1 Hl2|Hl1 Hl2].
  2: { assert (is_Some (foldl (λ m r, alter (nextStar gv1) r m) (heap_stars h1)
                          (gv1 ≫= Galaxy.stars) !! star)) as [x Hx]
         by (apply (foldl_alter_is_Some (λ _, nextStar gv1)); eauto).
       congruence. }
  eexists _, _, s1', s2'. split; [|split; [|split; [|split]]].
  - apply (updateGalaxies_eq _ _ _ Hres1), (snapshot_stars_is_Some _ _ _ Hsnap1).
  - apply (updateGalaxies_eq _ _ _ Hres2), (snapshot_stars_is_Some _ _ _ Hsnap2).
  - done.
  - cbn [heap_stars]. by rewrite <- Hrefs.
  - done.
Qed.
End Phases.


Section Literals.
Local Open Scope R_scope.
Lemma Q2R_lit_0 : Q2R 0 = 0.
Proof. unfold Q2R; cbn; lra. Qed.
Lemma Q2R_lit_1 : Q2R 1 = 1.
Proof. unfold Q2R; cbn; lra. Qed.
Lemma Q2R_lit_2 : Q2R 2 = 2.
Proof. unfold Q2R; cbn; lra. Qed.
Lemma Q2R_TIME_STEP : Q2R 0.005 = 0.005.
Proof. unfold Q2R; cbn; lra. Qed.
Lemma Q2R_G : Q2R 0.001 = 0.001.
Proof. unfold Q2R; cbn; lra. Qed.
Lemma Q2R_lit_1500 : Q2R 1500 = 1500.
Proof. unfold Q2R; cbn; lra. Qed.
End Literals.
Create Rewrite HintDb lits.
#[local] Hint Rewrite Q2R_lit_0 Q2R_lit_1 Q2R_lit_2 Q2R_TIME_STEP Q2R_G : lits.

Ltac entries :=
  repeat match goal with
    | |- Some _ = Some _ => apply (f_equal Some)
    | |- Matrix3x3.Build _ = Matrix3x3.Build _ => apply (f_equal Matrix3x3.Build)
    | |- Vec3.new _ _ _ = Vec3.new _ _ _ => apply f_equal3
    | |- _ :: _ = _ :: _ => apply (f_equal2 cons)
    | |- @nil _ = @nil _ => reflexivity
    | |- @eq R _ _ => ring
    end.

Section MatrixR.
Local Open Scope R_scope.


Lemma new_rows {num : Type} `{!Number num} (a b c d e f g h i : num) :
  Matrix3x3.new [ [a; b; c]; [d; e; f]; [g; h; i] ]
  = Some (Matrix3x3.Build [ [a; b; c]; [d; e; f]; [g; h; i] ]).
Proof. reflexivity. Qed.

Lemma mul_entries (M N : Matrix3x3 R) :
  Matrix3x3.mul M N = Some (Matrix3x3.Build
   ((λ i, (λ j, sum3 (λ k, Matrix3x3.get M i k * Matrix3x3.get N k j)) <$> seq 0 3) <$> seq 0 3)).
Proof.
  unfold Matrix3x3.mul. cbn -[Matrix3x3.get Matrix3x3.new]. rewrite new_rows.
  autorewrite with lits. unfold sum3. entries.
Qed.

Lemma fromAxisAngle_z (a : R) :
  Matrix3x3.fromAxisAngle (Vec3.new 0 0 1) a = Some (Matrix3x3.Build (Reference.Rz a)).
Proof.
  unfold Matrix3x3.fromAxisAngle, Reference.Rz. rewrite new_rows. cbn.
  autorewrite with lits. entries.
Qed.

(** C5, amended.  Over the reals, the entries of [fromEuler(x, y, z)] are
    the entries of the product [Rz(z) · Ry(y) · Rx(x)] of the rotations
    about one axis, and [fromEuler(x, y, z)] is the matrix
    [fromAxisAngle((0,0,1), z).mul(fromAxisAngle((0,1,0), y)).mul(fromAxisAngle((1,0,0), x))]. *)
Theorem fromEuler_is_Rz_Ry_Rx (x y z : R) :
  Matrix3x3.data <$> Matrix3x3.fromEuler x y z =
    Some (Reference.product (Reference.product (Reference.Rz z) (Reference.Ry y)) (Reference.Rx x))
  ∧ Matrix3x3.fromEuler x y z =
      (rz ← Matrix3x3.fromAxisAngle (Vec3.new 0 0 1) z;
       ry ← Matrix3x3.fromAxisAngle (Vec3.new 0 1 0) y;
       rx ← Matrix3x3.fromAxisAngle (Vec3.new 1 0 0) x;
       rzy ← Matrix3x3.mul rz ry;
       Matrix3x3.mul rzy rx).
Proof.
  split.
  - unfold Matrix3x3.fromEuler. rewrite new_rows. unfold Reference.product, Reference.entry. cbn. entries.
  - unfold Matrix3x3.fromEuler, Matrix3x3.fromAxisAngle. rewrite !new_rows. cbn -[Matrix3x3.mul]. rewrite mul_entries. cbn -[Matrix3x3.mul]. rewrite mul_entries. unfold sum3, Matrix3x3.get. cbn. autorewrite with lits. entries.
Qed.

Lemma cos_pos_range (t : R) : - PI < t < PI → 0 < cos t → - (PI / 2) < t < PI / 2.
Proof.
  intros [Hl Hu] Hc. split.
  - destruct (Rlt_dec (- (PI / 2)) t) as [|Hn]; [done|].
    assert (cos (- t) <= 0) by (apply cos_le_0; lra).
    rewrite cos_neg in *. lra.
  - destruct (Rlt_dec t (PI / 2)) as [|Hn]; [done|].
    assert (cos t <= 0) by (apply cos_le_0; lra). lra.
Qed.

Lemma shift_PI (t : R) : sin (t - PI) = - sin t ∧ cos (t - PI) = - cos t.
Proof. rewrite sin_minus, cos_minus, sin_PI, cos_PI. split; ring. Qed.

Lemma cos_zero_range (t : R) :
  - PI < t < PI → cos t = 0 → (t = PI / 2 ∧ 0 < sin t) ∨ (t = - (PI / 2) ∧ sin t < 0).
Proof.
  intros [Hl Hu] Hc. destruct (Rle_dec 0 t) as [Hp|Hn].
  - left. destruct (cos_eq_0_2PI_0 t) as [->| ->]; try lra.
    rewrite sin_PI2. split; lra.
  - right. assert (Hc' : cos (- t) = 0) by (rewrite cos_neg; done).
    destruct (cos_eq_0_2PI_0 (- t)) as [He|He]; try lra.
    split; [lra|]. apply sin_lt_0_var; lra.
Qed.

Lemma tan_shift (k t u : R) :
  0 < k → sin u = - sin t → cos u = - cos t → cos t ≠ 0 →
  k * sin t / (k * cos t) = tan u.
Proof. intros Hk Hs Hc Hn. unfold tan. rewrite Hs, Hc. field. lra. Qed.

Lemma R_atan2_polar (k t : R) :
  0 < k → - PI < t < PI → R_atan2 (k * sin t) (k * cos t) = t.
Proof.
  intros Hk Ht. unfold R_atan2.
  destruct (decide (0 < k * cos t)) as [Hpos|Hnpos].
  - assert (0 < cos t) by nra.
    replace (k * sin t / (k * cos t)) with (tan t) by (unfold tan; field; lra).
    apply atan_tan. by apply cos_pos_range.
  - destruct (decide (k * cos t < 0)) as [Hneg|Hnneg].
    + assert (Hc : cos t < 0) by nra.
      assert (Hout : ¬ (- (PI / 2) <= t <= PI / 2)).
      { intros [? ?]. assert (0 <= cos t) by (by apply cos_ge_0). lra. }
      destruct (decide (0 <= k * sin t)) as [Hs|Hs].
      * assert (Hhi : PI / 2 < t).
        { destruct (Rlt_dec t 0) as [Hlt|Hge]; [|lra].
          assert (sin t < 0) by (apply sin_lt_0_var; lra). nra. }
        destruct (shift_PI t) as [Hs1 Hc1].
        rewrite (tan_shift k t (t - PI)) by (auto; lra).
        rewrite atan_tan by lra. ring.
      * assert (Hlo : t < - (PI / 2)).
        { destruct (Rlt_dec 0 t) as [Hlt|Hge]; [|lra].
          assert (0 < sin t) by (apply sin_gt_0; lra). nra. }
        rewrite (tan_shift k t (t + PI)) by (auto using neg_sin, neg_cos; lra).
        rewrite atan_tan by lra. ring.
    + assert (Hc : cos t = 0) by nra.
      destruct (cos_zero_range t Ht Hc) as [[-> Hs]|[-> Hs]].
      * rewrite decide_True by nra. done.
      * rewrite decide_False by nra. rewrite decide_True by nra. done.
Qed.

(** C6, amended.  Over the reals, with the exact sine, cosine, arc sine
    and [atan2]: for [x] and [z] in (-PI, PI) and [y] in (-PI/2, PI/2),
    [fromEuler(x, y, z).toEuler()] is the vector [(x, y, z)]. *)
Theorem toEuler_fromEuler (x y z : R) :
  - PI < x < PI → - (PI / 2) < y < PI / 2 → - PI < z < PI →
  Matrix3x3.toEuler <$> Matrix3x3.fromEuler x y z = Some (Vec3.new x y z).
Proof.
  intros Hx Hy Hz. unfold Matrix3x3.fromEuler. rewrite new_rows.
  unfold Matrix3x3.toEuler, Matrix3x3.get. cbn.
  assert (0 < cos y) by (apply cos_gt_0; lra).
  rewrite Ropp_involutive, asin_sin by lra.
  rewrite (Rmult_comm (sin z)), (Rmult_comm (cos z)).
  by rewrite !R_atan2_polar.
Qed.

Lemma toEuler_fromEuler_witness :
  Matrix3x3.toEuler <$> Matrix3x3.fromEuler 0.1 0.2 0.3 = Some (Vec3.new 0.1 0.2 0.3).
Proof. pose proof PI2_1. apply toEuler_fromEuler; lra. Defined.

(** C4.  Component [j] of [M.transform(v)] is the sum over [i] of
    [M[i][j] · v_i], the product of the row vector [v] with [M]; entry
    [i][j] of [M.mul(other)] is the sum over [k] of
    [M[i][k] · other[k][j]]; and there are a matrix and a vector for which
    [transform] is not the product of the matrix with the column vector. *)
Theorem transform_is_row_vector_product :
  (∀ (M : Matrix3x3 R) (v : Vec3 R),
     Matrix3x3.transform M v
     = Vec3.new (sum3 (λ i, Matrix3x3.get M i 0 * component v i))
         (sum3 (λ i, Matrix3x3.get M i 1 * component v i))
         (sum3 (λ i, Matrix3x3.get M i 2 * component v i)))
  ∧ (∀ M other : Matrix3x3 R,
       Matrix3x3.toArray <$> Matrix3x3.mul M other
       = Some ((λ i, (λ j, sum3 (λ k, Matrix3x3.get M i k * Matrix3x3.get other k j))
                       <$> seq 0 3) <$> seq 0 3))
  ∧ (∃ (M : Matrix3x3 R) (v : Vec3 R),
       Matrix3x3.new [ [0; 1; 0]; [0; 0; 0]; [0; 0; 0] ] = Some M
       ∧ Matrix3x3.transform M v
         ≠ Vec3.new (sum3 (λ k, Matrix3x3.get M 0 k * component v k))
             (sum3 (λ k, Matrix3x3.get M 1 k * component v k))
             (sum3 (λ k, Matrix3x3.get M 2 k * component v k))).
Proof.
  split; [|split].
  - intros M v. reflexivity.
  - intros M other. by rewrite mul_entries.
  - eexists _, (Vec3.new 1 0 0). split; [apply new_rows|].
    unfold sum3, Matrix3x3.transform, Matrix3x3.get. cbn.
    intros Heq. apply (f_equal Vec3.y) in Heq. cbn in Heq. lra.
Qed.

End MatrixR.


Section OtherGalaxies.
Context {num unknown : Type} `{!Number num}.

(** The summation loop of a galaxy that is not in the array skips
    nothing by identity. *)
Lemma galaxy_loop_notin (gm : gmap ref (Galaxy num unknown ref))
    galaxies gvals galaxy bodyPos acc :
  resolves gm galaxies gvals → galaxy ∉ galaxies →
  foldl (λ acc otherGalaxy,
           if bool_decide (galaxy = otherGalaxy) then acc
           else match gm !! otherGalaxy with
                | Some og => accumulate bodyPos (Galaxy.pos og) (Galaxy.mass og) acc
                | None => acc
                end) acc galaxies
  = foldl (λ acc og, accumulate bodyPos (Galaxy.pos og) (Galaxy.mass og) acc)
      acc gvals.
Proof.
  intros Hres. revert acc. induction Hres as [|r g rs gs Hr _ IH]; intros acc Hnotin; [done|].
  apply not_elem_of_cons in Hnotin as [Hne Hnotin].
  cbn [foldl]. rewrite bool_decide_false by done. rewrite Hr. by apply IH.
Qed.

(** In an array without repetition, the galaxy at index [i] sums over
    the galaxies at the other indices. *)
Lemma galaxyAcceleration_delete (gm : gmap ref (Galaxy num unknown ref))
    galaxies gvals i galaxy bodyPos :
  resolves gm galaxies gvals → NoDup galaxies → galaxies !! i = Some galaxy →
  galaxyAcceleration gm galaxies galaxy bodyPos
  = starAcceleration bodyPos (delete i gvals).
Proof.
  unfold galaxyAcceleration, starAcceleration. generalize (@Vec3.zero num _).
  intros acc Hres. revert acc i.
  induction Hres as [|r g rs gs Hr Hres IH]; intros acc i Hnd Hi; [done|].
  apply NoDup_cons in Hnd as [Hr_notin Hnd]. destruct i as [|i]; cbn in Hi.
  - injection Hi as ->. cbn [foldl delete list_delete].
    rewrite bool_decide_true by done. by apply galaxy_loop_notin.
  - cbn [foldl delete list_delete].
    rewrite bool_decide_false.
    2: { intros ->. apply Hr_notin. by eapply list_elem_of_lookup_2. }
    rewrite Hr. by apply IH.
Qed.

(** The branch [if (distSq === 0) continue]. *)
Lemma accumulate_skip (bodyPos otherPos : Vec3 num) otherMass acc :
  nseq (nsquare (Vec3.magnitude (Vec3.sub otherPos (Vec3.Vec bodyPos)))) (lit 0) = true →
  accumulate bodyPos otherPos otherMass acc = acc.
Proof. intros Hzero. unfold accumulate. by rewrite Hzero. Qed.

(** An iteration that leaves the state alone can be left out. *)
Lemma foldl_delete_skip {A B : Type} (f : A → B → A) (l : list B) k x :
  l !! k = Some x → (∀ a, f a x = a) →
  ∀ a, foldl f a l = foldl f a (delete k l).
Proof.
  revert k. induction l as [|y l IH]; intros k Hk Hskip a; [done|].
  destruct k as [|k]; cbn in Hk.
  - injection Hk as ->. cbn. by rewrite Hskip.
  - cbn. by apply IH.
Qed.
End OtherGalaxies.

(** *** Coincident positions, in double precision *)

Section Doubles.
Variables (fsin fcos fexp fasin : float → float) (fatan2 : float → float → float).

Lemma SFeqb_finite s1 m1 e1 s2 m2 e2 :
  SFeqb (S754_finite s1 m1 e1) (S754_finite s2 m2 e2) = true →
  s1 = s2 ∧ m1 = m2 ∧ e1 = e2.
Proof.
  unfold SFeqb, SFcompare.
  change (PosDef.Pos.compare_cont Eq m1 m2) with (Pos.compare m1 m2).
  destruct s1, s2; try discriminate;
    destruct (Z.compare_spec e1 e2) as [->| |]; try discriminate;
    destruct (Pos.compare_spec m1 m2) as [->| |]; try discriminate; done.
Qed.

(** The difference of two finite doubles that [===] finds equal is a
    zero, and its square is [0]. *)
Lemma square_of_difference (a b : float) :
  finite_float a = true → PrimFloat.eqb a b = true →
  PrimFloat.mul (PrimFloat.sub b a) (PrimFloat.sub b a) = 0%float.
Proof.
  unfold finite_float. rewrite FloatAxioms.eqb_spec. intros Hfin Heq.
  apply Prim2SF_inj. rewrite FloatAxioms.mul_spec, FloatAxioms.sub_spec.
  destruct (Prim2SF a) as [sa|sa| |sa ma ea], (Prim2SF b) as [sb|sb| |sb mb eb];
    try discriminate; try (destruct sa, sb; cbn in Heq; discriminate).
  - by destruct sa, sb.
  - apply SFeqb_finite in Heq as (-> & -> & ->).
    unfold SF64sub, SFsub. rewrite Z.sub_diag. by destruct sb.
Qed.

(** The test [distSq === 0] of the loop body. *)
Lemma coincident_test64 (p q : Vec3 float) :
  same_position64 p q = true →
  @nseq float (binary64 fsin fcos fexp fasin fatan2)
    (@nsquare float (binary64 fsin fcos fexp fasin fatan2)
       (@Vec3.magnitude float (binary64 fsin fcos fexp fasin fatan2)
          (@Vec3.sub float (binary64 fsin fcos fexp fasin fatan2) q (Vec3.Vec p))))
    (@lit float (binary64 fsin fcos fexp fasin fatan2) 0%Q) = true.
Proof.
  unfold same_position64. rewrite !andb_true_iff.
  intros [[[[[Hfx Hx] Hfy] Hy] Hfz] Hz]. unfold Vec3.magnitude, Vec3.sub.
  cbn [Vec3.x Vec3.y Vec3.z nsub nadd nsquare nseq lit Math_sqrt binary64].
  rewrite !square_of_difference by done. vm_compute. reflexivity.
Qed.

(** What the skip avoids: at distance zero the quotient of the loop body
    has the divisor zero, so it is an infinity or NaN, and its product
    with a zero coordinate is NaN. *)
Lemma skipped_term_nan (m : float) :
  PrimFloat.is_nan (PrimFloat.mul 0 (PrimFloat.div m (PrimFloat.mul (PrimFloat.sqrt 0) 0)))
  = true.
Proof.
  assert (Hz : PrimFloat.mul (PrimFloat.sqrt 0) 0 = 0%float) by (vm_compute; reflexivity).
  rewrite Hz.
  assert (Hn : Prim2SF (PrimFloat.mul 0 (PrimFloat.div m 0)) = S754_nan).
  { rewrite FloatAxioms.mul_spec, FloatAxioms.div_spec.
    change (Prim2SF 0) with (S754_zero false).
    destruct (Prim2SF m) as [s|s| |s mm e]; reflexivity. }
  unfold PrimFloat.is_nan. rewrite FloatAxioms.eqb_spec, Hn. reflexivity.
Qed.
End Doubles.

Section ZeroDistance.
Context {unknown : Type}.
Variables (fsin fcos fexp fasin : float → float) (fatan2 : float → float → float).
Local Abbreviation D := (binary64 fsin fcos fexp fasin fatan2) (only parsing).

(** C8.  In double precision, whatever the functions of [Math] return:
    the galaxy [o] at index [k] of the array contributes nothing to the
    sum of a body whose position [===] finds equal to the position of
    [o], coordinate by coordinate, the coordinates being finite; its
    iteration leaves the sum as it is.  The update of a star at that
    position returns, and it is the update computed from the array
    without index [k]; so is the velocity update of a galaxy at that
    position.  Without the skip the term would be NaN: the product of a
    zero coordinate with a quotient by zero. *)
Theorem zero_distance_skip (h : Heap float unknown) galaxies gvals k other o :
  resolves (heap_galaxies h) galaxies gvals →
  galaxies !! k = Some other → heap_galaxies h !! other = Some o →
  (∀ p mass acc,
     same_position64 p (Galaxy.pos o) = true →
     @accumulate _ D p (Galaxy.pos o) mass acc = acc)
  ∧ (∀ star s,
       heap_stars h !! star = Some s →
       same_position64 (Star.pos s) (Galaxy.pos o) = true →
       ∃ h', @updateStar _ unknown D galaxies star h = Some h'
             ∧ @updateStar _ unknown D (delete k galaxies) star h = Some h')
  ∧ (∀ galaxy g,
       heap_galaxies h !! galaxy = Some g →
       same_position64 (Galaxy.pos g) (Galaxy.pos o) = true →
       ∃ h', @updateGalaxyVelocity _ unknown D galaxies galaxy h = Some h'
             ∧ @updateGalaxyVelocity _ unknown D (delete k galaxies) galaxy h = Some h')
  ∧ (∀ mass,
       PrimFloat.is_nan
         (@nmul _ D (@lit _ D 0%Q)
            (@ndiv _ D mass
               (@nmul _ D (@Math_sqrt _ D (@lit _ D 0%Q)) (@lit _ D 0%Q)))) = true).
Proof.
  intros Hres Hk Ho. destruct h as [sm gm]. cbn [heap_stars heap_galaxies] in *.
  assert (Hzero : ∀ p mass acc,
            same_position64 p (Galaxy.pos o) = true →
            @accumulate _ D p (Galaxy.pos o) mass acc = acc).
  { intros p mass acc Hsame. apply (@accumulate_skip _ D). by apply coincident_test64. }
  destruct (Forall2_lookup_l _ _ _ _ _ Hres Hk) as (o' & Hgk & Ho').
  assert (o' = o) as -> by congruence.
  pose proof (Forall2_delete _ _ _ k Hres) as Hres'.
  split; [done|]. split; [|split].
  - intros star s Hs Hpos. eexists.
    split; [by apply (@updateStar_eq _ unknown D _ _ _ gvals)|].
    rewrite (@updateStar_eq _ unknown D _ _ _ (delete k gvals) _ s) by done.
    do 3 f_equal. unfold nextStar, starAcceleration.
    rewrite <- (foldl_delete_skip _ gvals k o); [done|done|].
    intros acc. by apply Hzero.
  - intros galaxy g Hg Hpos.
    pose proof (resolves_is_Some _ _ _ Hres) as Hall.
    pose proof (resolves_is_Some _ _ _ Hres') as Hall'.
    eexists. split; [by apply (@updateGalaxyVelocity_eq _ unknown D)|].
    rewrite (@updateGalaxyVelocity_eq _ unknown D _ _ _ _ g) by done.
    do 3 f_equal. unfold nextVelocity, galaxyAcceleration.
    rewrite <- (foldl_delete_skip _ galaxies k other); [done|done|].
    intros acc. case_bool_decide; [done|]. rewrite Ho. by apply Hzero.
  - intros mass. apply skipped_term_nan.
Qed.
End ZeroDistance.

(** *** The integrator in exact arithmetic with undefined operations *)

Section Checked.
Context {unknown : Type}.
Local Open Scope R_scope.
Local Abbreviation C := checked (only parsing).

(** Where the guard lets the loop body divide, the divisor is not zero:
    in checked arithmetic the body computes the defined number the reals
    give. *)
Lemma defined_accumulate (p q : Vec3 R) (m : R) (acc : Vec3 R) :
  @accumulate _ C (defined_vec p) (defined_vec q) (Some m) (defined_vec acc)
  = defined_vec (accumulate p q m acc).
Proof.
  unfold accumulate, Vec3.magnitude, Vec3.sub, defined_vec.
  cbn [Vec3.x Vec3.y Vec3.z nsub nadd nmul nsquare nseq lit Math_sqrt checked R_Number
       mbind option_bind].
  set (S := (Vec3.x q - Vec3.x p) ^ 2 + (Vec3.y q - Vec3.y p) ^ 2
            + (Vec3.z q - Vec3.z p) ^ 2).
  assert (HS : 0 <= S).
  { unfold S. pose proof (pow2_ge_0 (Vec3.x q - Vec3.x p)).
    pose proof (pow2_ge_0 (Vec3.y q - Vec3.y p)).
    pose proof (pow2_ge_0 (Vec3.z q - Vec3.z p)). lra. }
  rewrite decide_True by done. cbn [mbind option_bind].
  rewrite Q2R_lit_0. case_bool_decide as Hzero; [done|].
  assert (Hd : 0 <= sqrt S ^ 2) by apply pow2_ge_0.
  rewrite decide_True by done. cbn [mbind option_bind].
  unfold G. cbn [lit ndiv nmul checked R_Number mbind option_bind].
  rewrite decide_False; [done|].
  intros Hprod. apply Rmult_integral in Hprod as [H0|H0]; [|done].
  apply sqrt_eq_0 in H0; [done|done].
Qed.

(** Without its guard the loop body would divide by zero at distance
    zero: the quotient is undefined. *)
Lemma unguarded_quotient_undefined (m : option R) :
  @ndiv _ C m (@nmul _ C (@Math_sqrt _ C (@lit _ C 0%Q)) (@lit _ C 0%Q)) = None.
Proof.
  cbn [ndiv nmul Math_sqrt lit checked]. rewrite Q2R_lit_0.
  destruct m as [x|]; [|done]. cbn [mbind option_bind].
  rewrite decide_True by lra. cbn [mbind option_bind].
  rewrite decide_True; [done|]. rewrite sqrt_0. ring.
Qed.

Lemma defined_starAcceleration {star : Type} (p : Vec3 R)
    (gs : list (Galaxy R unknown star)) :
  @starAcceleration _ unknown C star (defined_vec p) (defined_galaxy <$> gs)
  = defined_vec (starAcceleration p gs).
Proof.
  unfold starAcceleration.
  change (@Vec3.zero _ C) with (defined_vec (@Vec3.zero R _)).
  generalize (@Vec3.zero R _). induction gs as [|g gs IH]; intros acc; [done|].
  cbn [fmap list_fmap foldl]. cbn [Galaxy.pos Galaxy.mass defined_galaxy].
  rewrite defined_accumulate. apply IH.
Qed.

Lemma defined_nextStar {star : Type} (gs : list (Galaxy R unknown star))
    (s : Star R unknown) :
  @nextStar _ unknown C star (defined_galaxy <$> gs) (defined_star s)
  = defined_star (nextStar gs s).
Proof.
  unfold nextStar. cbn [Star.pos Star.vel defined_star Star.set_vel Star.set_pos].
  rewrite defined_starAcceleration. reflexivity.
Qed.

Lemma defined_galaxyAcceleration (gm : gmap ref (Galaxy R unknown ref))
    galaxies galaxy (p : Vec3 R) :
  @galaxyAcceleration _ unknown C (defined_galaxy <$> gm) galaxies galaxy (defined_vec p)
  = defined_vec (galaxyAcceleration gm galaxies galaxy p).
Proof.
  unfold galaxyAcceleration.
  change (@Vec3.zero _ C) with (defined_vec (@Vec3.zero R _)).
  generalize (@Vec3.zero R _). induction galaxies as [|r rs IH]; intros acc; [done|].
  cbn [foldl]. rewrite lookup_fmap.
  destruct (bool_decide (galaxy = r)); [apply IH|].
  destruct (gm !! r) as [og|]; cbn [fmap option_fmap option_map]; [|apply IH].
  cbn [Galaxy.pos Galaxy.mass defined_galaxy]. rewrite defined_accumulate. apply IH.
Qed.

Lemma defined_nextVelocity (gm : gmap ref (Galaxy R unknown ref)) galaxies galaxy
    (g : Galaxy R unknown ref) :
  @nextVelocity _ unknown C (defined_galaxy <$> gm) galaxies galaxy (defined_galaxy g)
  = defined_galaxy (nextVelocity gm galaxies galaxy g).
Proof.
  unfold nextVelocity. cbn [Galaxy.pos defined_galaxy].
  rewrite defined_galaxyAcceleration. reflexivity.
Qed.

Lemma defined_nextPosition {star : Type} (g : Galaxy R unknown star) :
  @nextPosition _ unknown C star (defined_galaxy g) = defined_galaxy (nextPosition g).
Proof. reflexivity. Qed.

(** In-place updates of an embedded map. *)
Lemma foldl_alter_fmap {A B : Type} (f : A → B) (F : ref → A → A) (F' : ref → B → B)
    (l : list ref) (m : gmap ref A) :
  (∀ k x, F' k (f x) = f (F k x)) →
  foldl (λ m k, alter (F' k) k m) (f <$> m) l
  = f <$> foldl (λ m k, alter (F k) k m) m l.
Proof.
  intros Hcomm. revert m. induction l as [|k l IH]; intros m; [done|].
  cbn [foldl]. rewrite <- IH. f_equal.
  apply map_eq. intros j. destruct (decide (k = j)) as [->|Hne].
  - rewrite lookup_alter_eq, !lookup_fmap, lookup_alter_eq.
    destruct (m !! j); cbn; [by rewrite Hcomm|done].
  - by rewrite lookup_alter_ne, !lookup_fmap, lookup_alter_ne.
Qed.

Lemma defined_stars (gvals : list (Galaxy R unknown ref)) :
  (defined_galaxy <$> gvals) ≫= Galaxy.stars = gvals ≫= Galaxy.stars.
Proof. induction gvals as [|g gs IH]; [done|]. cbn. by rewrite IH. Qed.

(** The code run in checked arithmetic on a store of defined numbers
    performs no undefined operation: it returns the store of defined
    numbers that the run over the reals returns. *)
Lemma updateGalaxies_defined (h : Heap R unknown) galaxies gvals :
  resolves (heap_galaxies h) galaxies gvals →
  Forall (λ s, is_Some (heap_stars h !! s)) (gvals ≫= Galaxy.stars) →
  @updateGalaxies _ unknown C galaxies (defined_heap h)
  = defined_heap <$> updateGalaxies galaxies h.
Proof.
  intros Hres Hstars.
  rewrite (updateGalaxies_eq h galaxies gvals Hres Hstars).
  rewrite (updateGalaxies_eq (defined_heap h) galaxies (defined_galaxy <$> gvals)).
  - cbn [fmap option_fmap option_map heap_stars heap_galaxies defined_heap]. f_equal.
    unfold defined_heap. cbn [heap_stars heap_galaxies]. f_equal.
    + rewrite defined_stars. apply foldl_alter_fmap. intros _ s. apply defined_nextStar.
    + rewrite <- (foldl_alter_fmap defined_galaxy (λ _, nextPosition)
                    (λ _, @nextPosition _ unknown C ref))
        by (intros _ g; apply defined_nextPosition).
      f_equal. apply foldl_alter_fmap. intros r g. apply defined_nextVelocity.
  - cbn [heap_galaxies defined_heap]. apply Forall2_fmap_r.
    eapply Forall2_impl; [exact Hres|]. intros r g Hr. cbn in *.
    by rewrite lookup_fmap, Hr.
  - rewrite defined_stars. eapply Forall_impl; [exact Hstars|].
    intros s [x Hx]. cbn [heap_stars defined_heap]. rewrite lookup_fmap, Hx. by eexists.
Qed.
End Checked.



Section RealIntegrator.
Context {unknown : Type}.
Local Open Scope R_scope.

Lemma vadd_zero (a : Vec3 R) : Reference.vadd a (Vec3.new 0 0 0) = a.
Proof. destruct a. unfold Reference.vadd. cbn. f_equal; ring. Qed.

Lemma vadd_assoc (a b c : Vec3 R) :
  Reference.vadd (Reference.vadd a b) c = Reference.vadd a (Reference.vadd b c).
Proof. unfold Reference.vadd. cbn. f_equal; ring. Qed.

Lemma sum_squares_zero (a b c : R) : a ^ 2 + b ^ 2 + c ^ 2 = 0 → a = 0 ∧ b = 0 ∧ c = 0.
Proof. intros H. repeat split; nra. Qed.

Lemma accumulate_pull {star : Type} (p : Vec3 R) (g : Galaxy R unknown star) (acc : Vec3 R) :
  accumulate p (Galaxy.pos g) (Galaxy.mass g) acc
  = Reference.vadd acc (Reference.pull p g).
Proof.
  unfold accumulate, Reference.pull, Reference.vadd, Reference.scale, Reference.norm,
    Reference.vsub, Vec3.magnitude, Vec3.sub, Vec3.mul, Vec3.add, G, Reference.G.
  cbn -[pow Q2R].
  set (dx := Vec3.x (Galaxy.pos g) - Vec3.x p).
  set (dy := Vec3.y (Galaxy.pos g) - Vec3.y p).
  set (dz := Vec3.z (Galaxy.pos g) - Vec3.z p).
  replace (dx * dx + dy * dy + dz * dz) with (dx ^ 2 + dy ^ 2 + dz ^ 2) by ring.
  set (S := dx ^ 2 + dy ^ 2 + dz ^ 2).
  assert (HS : 0 <= S) by (unfold S; nra).
  rewrite (pow2_sqrt S HS). autorewrite with lits.
  case_bool_decide as Hzero.
  - destruct (sum_squares_zero dx dy dz Hzero) as (-> & -> & ->).
    destruct acc. cbn. f_equal; ring.
  - replace (sqrt S ^ 3) with (sqrt S * S).
    2: { rewrite <- (pow2_sqrt S HS) at 2. ring. }
    f_equal; unfold Rdiv; ring.
Qed.

Lemma vadd_zero_l (a : Vec3 R) : Reference.vadd Vec3.zero a = a.
Proof.
  destruct a. unfold Reference.vadd, Vec3.zero. cbn -[Q2R].
  autorewrite with lits. f_equal; ring.
Qed.

Lemma starAcceleration_sum {star : Type} (p : Vec3 R) (gs : list (Galaxy R unknown star)) :
  starAcceleration p gs = Reference.vsum (Reference.pull p <$> gs).
Proof.
  unfold starAcceleration. rewrite <- (vadd_zero_l (Reference.vsum _)).
  generalize (@Vec3.zero R _). induction gs as [|g gs IH]; intros acc.
  - cbn. by rewrite vadd_zero.
  - cbn [foldl]. rewrite IH, accumulate_pull, vadd_assoc. done.
Qed.

Lemma nextStar_star_step {star : Type} (gs : list (Galaxy R unknown star))
    (s : Star R unknown) :
  nextStar gs s = Reference.star_step gs s.
Proof.
  unfold nextStar, Reference.star_step. rewrite starAcceleration_sum.
  unfold Star.set_pos, Star.set_vel, Vec3.add, Vec3.mul, Reference.vadd,
    Reference.scale, TIME_STEP, Reference.dt.
  cbn -[Q2R Reference.vsum]. autorewrite with lits.
  f_equal; f_equal; ring.
Qed.

Lemma snapshot_same_place (h : Heap R unknown) gvals gs :
  Forall2 (λ g v, snapshot_galaxy h g = Some v) gvals gs →
  Forall2 same_place gvals gs.
Proof.
  intros H. eapply Forall2_impl; [done|]. intros g v Hv. cbn in Hv.
  apply snapshot_galaxy_Some in Hv as [_ ->]. by split.
Qed.

Lemma nextGalaxy_galaxy_step (gm : gmap ref (Galaxy R unknown ref))
    galaxies gvals gs i galaxy g v stars' :
  resolves gm galaxies gvals → NoDup galaxies → Forall2 same_place gvals gs →
  galaxies !! i = Some galaxy →
  v = Galaxy.Build (Galaxy.vel g) (Galaxy.pos g) (Galaxy.rotation g)
        (Galaxy.mass g) (Galaxy.stars v) (Galaxy.data g) →
  stars' = Reference.star_step gs <$> Galaxy.stars v →
  let g' := nextPosition (nextVelocity gm galaxies galaxy g) in
  Galaxy.Build (Galaxy.vel g') (Galaxy.pos g') (Galaxy.rotation g')
    (Galaxy.mass g') stars' (Galaxy.data g')
  = Reference.galaxy_step gs i v.
Proof.
  intros Hres Hnd Hplace Hi Hv -> g'. subst g'.
  unfold nextPosition, nextVelocity, Reference.galaxy_step.
  rewrite (galaxyAcceleration_delete _ _ _ _ _ _ Hres Hnd Hi).
  rewrite (starAcceleration_same_place _ (delete i gvals) (delete i gs))
    by (by apply Forall2_delete).
  rewrite starAcceleration_sum. rewrite Hv.
  unfold Galaxy.set_pos, Galaxy.set_vel, Vec3.add, Vec3.mul, Reference.vadd,
    Reference.scale, TIME_STEP, Reference.dt.
  cbn -[Q2R Reference.vsum]. autorewrite with lits.
  f_equal; f_equal; ring.
Qed.

(** After the call, the galaxy at index [i] of the array, read with its
    stars, is the reference step of the galaxy that was there. *)
Lemma updateGalaxies_galaxy (h : Heap R unknown) galaxies gvals gs :
  resolves (heap_galaxies h) galaxies gvals →
  Forall2 (λ g v, snapshot_galaxy h g = Some v) gvals gs →
  NoDup galaxies → NoDup (gvals ≫= Galaxy.stars) →
  ∃ h', updateGalaxies galaxies h = Some h'
        ∧ ∀ i galaxy v,
            galaxies !! i = Some galaxy → gs !! i = Some v →
            (g ← read_galaxy galaxy h'; snapshot_galaxy h' g)
            = Some (Reference.galaxy_step gs i v).
Proof.
  intros Hres Hsnap Hnd Hnds.
  pose proof (snapshot_stars_is_Some _ _ _ Hsnap) as Hstars.
  pose proof (snapshot_same_place _ _ _ Hsnap) as Hplace.
  eexists. split; [by apply (updateGalaxies_eq _ _ _ Hres)|].
  set (sm' := foldl _ (heap_stars h) _). set (gm' := foldl _ (foldl _ _ _) _).
  intros i galaxy v Hi Hvi.
  destruct (Forall2_lookup_l _ _ _ _ _ Hres Hi) as (g & Hgi & Hg).
  pose proof (Forall2_lookup_lr _ _ _ _ _ _ Hsnap Hgi Hvi) as Hgv. cbn in Hgv.
  apply snapshot_galaxy_Some in Hgv as [Hsv Hv].
  assert (Hg' : gm' !! galaxy = Some (nextPosition (nextVelocity (heap_galaxies h) galaxies galaxy g))).
  { unfold gm'. pose proof (list_elem_of_lookup_2 _ _ _ Hi) as Hin.
    rewrite (foldl_alter_NoDup (λ _, nextPosition)) by done.
    rewrite (foldl_alter_NoDup (λ r, nextVelocity (heap_galaxies h) galaxies r)) by done.
    by rewrite Hg. }
  rewrite read_galaxy_mk, Hg'. cbn [mbind option_bind].
  unfold snapshot_galaxy.
  assert (Hstars' : mapM (λ star, read_star star (mkHeap sm' gm'))
                      (Galaxy.stars g)
                    = Some (Reference.star_step gs <$> Galaxy.stars v)).
  { apply mapM_Some, Forall2_fmap_r, Forall2_same_length_lookup.
    split; [by apply (Forall2_length _ _ _ Hsv)|].
    intros j s sv Hs Hsvj.
    pose proof (Forall2_lookup_lr _ _ _ _ _ _ Hsv Hs Hsvj) as Hlook. cbn in Hlook.
    assert (Hin : s ∈ gvals ≫= Galaxy.stars).
    { apply list_elem_of_bind. exists g.
      split; by eapply list_elem_of_lookup_2. }
    rewrite read_star_mk. unfold sm'.
    rewrite (foldl_alter_NoDup (λ _, nextStar gvals)) by done.
    rewrite Hlook. cbn. f_equal. rewrite <- nextStar_star_step.
    unfold nextStar. by rewrite (starAcceleration_same_place _ _ _ Hplace). }
  change (Galaxy.stars (nextPosition (nextVelocity (heap_galaxies h) galaxies galaxy g)))
    with (Galaxy.stars g).
  rewrite Hstars'. cbn [mbind option_bind]. f_equal.
  by apply (nextGalaxy_galaxy_step _ _ gvals).
Qed.

(** *** The reference definition *)

(** The term of a galaxy at distance zero is zero in the reference
    definition. *)
Lemma pull_at_distance_zero {star : Type} (g : Galaxy R unknown star) :
  Reference.pull (Galaxy.pos g) g = Vec3.new 0 0 0.
Proof. unfold Reference.pull, Reference.scale, Reference.vsub. cbn. f_equal; ring. Qed.

(** C1, amended.  Over the reals, in exact arithmetic, on a store where
    the array [galaxies] has the value [gs] and every galaxy owns its
    stars: [updateGalaxies] returns and divides by zero nowhere (run in
    checked arithmetic it leaves defined numbers only, those of the run
    over the reals), and the array then has the value the three-phase
    reference definition [Reference.updateGalaxies] gives for [gs], in
    which the term of a galaxy at distance zero is zero. *)
Theorem updateGalaxies_refines_reference (h : Heap R unknown) galaxies gs :
  snapshot galaxies h = Some gs → owned galaxies h →
  ∃ h', @updateGalaxies _ unknown checked galaxies (defined_heap h)
        = Some (defined_heap h')
        ∧ updateGalaxies galaxies h = Some h'
        ∧ snapshot galaxies h' = Some (Reference.updateGalaxies gs).
Proof.
  intros Hgs [Hnd Hnds].
  apply snapshot_Some in Hgs as (gvals & Hres & Hsnap).
  rewrite (star_refs_resolves _ _ _ Hres) in Hnds.
  destruct (updateGalaxies_galaxy h galaxies gvals gs Hres Hsnap Hnd Hnds)
    as (h' & Hrun & Hstep).
  exists h'. split; [|split; [done|]].
  - rewrite (updateGalaxies_defined h galaxies gvals Hres
               (snapshot_stars_is_Some _ _ _ Hsnap)).
    by rewrite Hrun.
  - apply mapM_Some, Forall2_same_length_lookup. split.
    + rewrite (Forall2_length _ _ _ Hres), (Forall2_length _ _ _ Hsnap).
      unfold Reference.updateGalaxies. by rewrite length_imap.
    + intros i galaxy y Hi Hy.
      unfold Reference.updateGalaxies in Hy. rewrite list_lookup_imap in Hy.
      destruct (gs !! i) as [v|] eqn:Hvi; [|done]. injection Hy as <-.
      by apply Hstep.
Qed.

(** *** Two galaxies on the x axis *)

Lemma sqrt_4 : sqrt 4 = 2.
Proof. replace 4 with (2 * 2) by ring. apply sqrt_square. lra. Qed.

(** C2.  Two galaxies of mass 100 at [(-1,0,0)] and [(1,0,0)], at rest and
    without stars: after one call the first one has velocity
    [(0.000125, 0, 0)] and the second one [(-0.000125, 0, 0)], and each
    has moved by [0.000000625] along x towards the other. *)
Theorem two_body_step (h : Heap R unknown) (a b : ref) rotation_a rotation_b data_a data_b :
  a ≠ b →
  snapshot [a; b] h
  = Some [ Galaxy.Build (Vec3.new 0 0 0) (Vec3.new (-1) 0 0) rotation_a 100 [] data_a;
           Galaxy.Build (Vec3.new 0 0 0) (Vec3.new 1 0 0) rotation_b 100 [] data_b ] →
  ∃ h', updateGalaxies [a; b] h = Some h'
        ∧ snapshot [a; b] h'
          = Some [ Galaxy.Build (Vec3.new 0.000125 0 0)
                     (Vec3.new (-1 + 0.000000625) 0 0) rotation_a 100 [] data_a;
                   Galaxy.Build (Vec3.new (-0.000125) 0 0)
                     (Vec3.new (1 - 0.000000625) 0 0) rotation_b 100 [] data_b ].
Proof.
  intros Hab Hsnap.
  apply snapshot_Some in Hsnap as (gvals & Hres & Hgv).
  inversion Hgv as [|ga va ? ? Hga Hgv']; subst.
  inversion Hgv' as [|gb vb ? ? Hgb Hgv'']; subst. inversion Hgv''; subst.
  destruct (updateGalaxies_galaxy h [a; b] [ga; gb] _ Hres Hgv) as (h' & Hrun & Hstep).
  { apply NoDup_cons. split; [|apply NoDup_singleton].
    apply not_elem_of_cons. split; [done|apply not_elem_of_nil]. }
  { apply snapshot_galaxy_Some in Hga as [Hsa _], Hgb as [Hsb _]. cbn in Hsa, Hsb.
    inversion Hsa; inversion Hsb. cbn.
    replace (Galaxy.stars ga) with (@nil ref) by done.
    replace (Galaxy.stars gb) with (@nil ref) by done. constructor. }
  exists h'. split; [done|]. unfold snapshot. cbn [mapM].
  rewrite (Hstep 0%nat a _ eq_refl eq_refl), (Hstep 1%nat b _ eq_refl eq_refl).
  cbn [mbind option_bind mret option_ret]. f_equal.
  unfold Reference.galaxy_step, Reference.pull,
    Reference.norm, Reference.vsum, Reference.vadd, Reference.scale, Reference.vsub,
    Reference.G, Reference.dt.
  cbn -[pow].
  replace ((1 - -1) * (1 - -1) + (0 - 0) * (0 - 0) + (0 - 0) * (0 - 0)) with 4 by ring.
  replace ((-1 - 1) * (-1 - 1) + (0 - 0) * (0 - 0) + (0 - 0) * (0 - 0)) with 4 by ring.
  rewrite sqrt_4.
  repeat (f_equal; try lra).
Qed.
End RealIntegrator.






Section GeneratorFacts.
Context {num unknown : Type} `{!Number num}.

Lemma createRandomStarInGalaxy_Some (galaxy : Galaxy num unknown (Star num unknown))
    rotationMatrix galaxyRadius draws i :
  ∃ star, createRandomStarInGalaxy galaxy rotationMatrix galaxyRadius draws i
          = Some (star, (i + 4)%nat).
Proof.
  eexists. unfold createRandomStarInGalaxy.
  replace (i + 4)%nat with (S (S (S (S i)))) by lia. reflexivity.
Qed.

Lemma vec3_random_Some (factor : option num) draws i :
  ∃ v, Vec3.random factor draws i = Some (v, (i + 3)%nat).
Proof. eexists. replace (i + 3)%nat with (S (S (S i))) by lia. reflexivity. Qed.

Lemma vec3_randomCentered_Some (factor : option num) draws i :
  ∃ v, Vec3.randomCentered factor draws i = Some (v, (i + 3)%nat).
Proof. eexists. replace (i + 3)%nat with (S (S (S i))) by lia. reflexivity. Qed.
End GeneratorFacts.

Section RealGenerator.
Context {unknown : Type}.
Local Open Scope R_scope.

(** The loop [for (let i = 0; i < t; i++)] runs for [i = 0, 1, ...,
    ceil(t) - 1]. *)
Lemma ceil_iterations (t : R) (k : nat) :
  INR k < t ↔ (k < Z.to_nat (Zceil t))%nat.
Proof.
  pose proof (Zceil_bound t) as [Hlo Hhi]. rewrite INR_IZR_INZ. split.
  - intros Hk. assert (Z.of_nat k < Zceil t)%Z by (apply lt_IZR; lra). lia.
  - intros Hk. assert (Z.of_nat k <= Zceil t - 1)%Z as Hle by lia.
    apply IZR_le in Hle. rewrite minus_IZR in Hle. lra.
Qed.

Lemma populate_count (draws : nat → R) (t : R) rotationMatrix radius :
  let n := Z.to_nat (Zceil t) in
  ∀ fuel k (galaxy : Galaxy R unknown (Star R unknown)) i,
    (n - k ≤ fuel)%nat →
    ∃ g', populate fuel (INR k) t rotationMatrix radius galaxy draws i
          = Some (g', (i + 4 * (n - k))%nat)
          ∧ length (Galaxy.stars g') = (length (Galaxy.stars galaxy) + (n - k))%nat
          ∧ Galaxy.mass g' = Galaxy.mass galaxy.
Proof.
  intros n. induction fuel as [|fuel IH]; intros k galaxy i Hfuel.
  - assert (¬ INR k < t) as Hk by (rewrite ceil_iterations; fold n; lia).
    exists galaxy. cbn. rewrite bool_decide_false by done.
    replace (n - k)%nat with 0%nat by lia. rewrite !Nat.add_0_r. done.
  - cbn [populate]. cbn [nlt R_Number]. case_bool_decide as Hk.
    + apply ceil_iterations in Hk. fold n in Hk.
      destruct (createRandomStarInGalaxy_Some galaxy rotationMatrix (Some radius) draws i)
        as [star Hstar].
      destruct (IH (S k) (Galaxy.push star galaxy) (i + 4)%nat) as (g' & Hrun & Hlen & Hmass);
        [lia|].
      exists g'. unfold mbind, Rand_bind. rewrite Hstar.
      cbn [nadd lit R_Number]. rewrite Q2R_lit_1, <- S_INR, Hrun. split; [|split].
      * do 2 f_equal. lia.
      * rewrite Hlen. cbn. rewrite length_app. cbn. lia.
      * done.
    + rewrite ceil_iterations in Hk. fold n in Hk. exists galaxy.
      replace (n - k)%nat with 0%nat by lia. rewrite !Nat.add_0_r. done.
Qed.

Lemma inRange_Some (min : R) (max : option R) draws i :
  ∃ i', inRange min max draws i
        = Some (match max with
                | Some max => if bool_decide (max ≠ 0) then draws i * (max - min) + min else min
                | None => min
                end, i').
Proof.
  unfold inRange. destruct max as [max|]; [|by eexists].
  cbn [truthy R_Number]. case_bool_decide; by eexists.
Qed.

Lemma createRandomGalaxy_count (options : GalaxyOptions R) draws i fuel :
  let t := starTarget options draws i in
  (Z.to_nat (Zceil t) ≤ fuel)%nat →
  ∃ (g : Galaxy R unknown (Star R unknown)) i',
    createRandomGalaxy fuel options draws i = Some (g, i')
    ∧ length (Galaxy.stars g) = Z.to_nat (Zceil t)
    ∧ Galaxy.mass g = t.
Proof.
  intros t Hfuel. unfold createRandomGalaxy.
  set (speed := default (lit 4%Q) (maxInitialSpeed options)).
  destruct (vec3_randomCentered_Some (Some speed) draws i) as [v Hv].
  set (offset := default (lit 1.5%Q) (initialCollisionAvoidanceOffset options)).
  destruct (vec3_randomCentered_Some (Some offset) draws (i + 3)) as [o Ho].
  destruct (vec3_random_Some (Some Math_PI) draws (i + 3 + 3)) as [r Hr].
  destruct (inRange_Some (default (lit 1500%Q) (minStarCount options))
              (maxStarCount options) draws (i + 3 + 3 + 3)) as [i1 Ht].
  destruct (inRange_Some (default (lit 1%Q) (minGalaxyRadius options))
              (maxGalaxyRadius options) draws i1) as [i2 Hrad].
  unfold mbind, Rand_bind. rewrite Hv, Ho, Hr, Ht, Hrad.
  cbn [try Galaxy.new]. unfold Matrix3x3.fromEuler. rewrite new_rows.
  cbn [try]. change (lit 0%Q : R) with (Q2R 0). rewrite Q2R_lit_0.
  change 0 with (INR 0).
  match goal with
  | |- context [populate fuel (INR 0) ?t0 ?m ?rad ?g0] =>
      assert (Ht0 : t0 = t);
      [|destruct (populate_count draws t0 m rad fuel 0%nat g0 i2)
          as (g' & Hrun & Hlen & Hmass)]
  end.
  - unfold t, starTarget. change (lit 1500%Q : R) with (Q2R 1500).
    rewrite Q2R_lit_1500. by replace (i + 3 + 3 + 3)%nat with (i + 9)%nat by lia.
  - rewrite Ht0. lia.
  - exists g', (i2 + 4 * (Z.to_nat (Zceil t) - 0))%nat.
    rewrite Hrun, Hlen, Hmass, Ht0. cbn. split; [done|]. split; [lia|done].
Qed.

Lemma Zceil_integer (N : Z) : Zceil (IZR N) = N.
Proof. apply Zceil_eq. lra. Qed.

(** C3, amended.  With [t] the target number of stars (the scaled draw
    when [maxStarCount] is given and not zero, [minStarCount] otherwise),
    [createRandomGalaxy] returns, given fuel for its loop, a galaxy of
    mass [t] with [ceil(t)] stars (none when [t <= 0]): one star for every
    integer [i >= 0] below [t].  With [minStarCount] and [maxStarCount]
    both equal to an integer [N > 0] the galaxy has [N] stars. *)
Theorem createRandomGalaxy_star_count (options : GalaxyOptions R) draws i fuel :
  let t := starTarget options draws i in
  (Z.to_nat (Zceil t) ≤ fuel)%nat →
  ∃ (g : Galaxy R unknown (Star R unknown)) i',
    createRandomGalaxy fuel options draws i = Some (g, i')
    ∧ Galaxy.mass g = t
    ∧ length (Galaxy.stars g) = Z.to_nat (Zceil t)
    ∧ (∀ N : Z, (0 < N)%Z →
         minStarCount options = Some (IZR N) → maxStarCount options = Some (IZR N) →
         length (Galaxy.stars g) = Z.to_nat N).
Proof.
  intros t Hfuel.
  destruct (createRandomGalaxy_count options draws i fuel Hfuel) as (g & i' & Hrun & Hlen & Hmass).
  exists g, i'. repeat split; try done.
  intros N HN Hmin Hmax. rewrite Hlen. f_equal.
  unfold t, starTarget. rewrite Hmin, Hmax. cbn [default from_option Datatypes.id].
  rewrite bool_decide_true by (apply not_0_IZR; lia).
  replace (draws (i + 9)%nat * (IZR N - IZR N) + IZR N) with (IZR N) by ring.
  apply Zceil_integer.
Qed.

(** *** An option given as [0] *)

Lemma inRange_zero (min : R) : inRange min (Some 0) = inRange min None.
Proof. unfold inRange. cbn [truthy R_Number]. by rewrite bool_decide_false by tauto. Qed.

(** C9.  [maxStarCount: 0] and [maxGalaxyRadius: 0] are tested for
    truthiness: [createRandomGalaxy] returns what it returns when the
    option is absent, and no number is drawn for the range.  With
    [minStarCount: m] and [maxStarCount: 0] the galaxy has [m] stars and
    mass [m]. *)
Theorem zero_max_is_absent (mn mx mnr mxr spd rw off : option R) (m fuel i : nat) draws :
  (m ≤ fuel)%nat →
  @createRandomGalaxy R unknown _ fuel
    (mkGalaxyOptions mn (Some 0) mnr mxr spd rw off) draws i
  = createRandomGalaxy fuel (mkGalaxyOptions mn None mnr mxr spd rw off) draws i
  ∧ @createRandomGalaxy R unknown _ fuel
      (mkGalaxyOptions mn mx mnr (Some 0) spd rw off) draws i
    = createRandomGalaxy fuel (mkGalaxyOptions mn mx mnr None spd rw off) draws i
  ∧ (∀ min, inRange min (Some 0) draws i = Some (min, i))
  ∧ ∃ (g : Galaxy R unknown (Star R unknown)) i',
      createRandomGalaxy fuel
        (mkGalaxyOptions (Some (INR m)) (Some 0) mnr mxr spd rw off) draws i
      = Some (g, i')
      ∧ length (Galaxy.stars g) = m ∧ Galaxy.mass g = INR m.
Proof.
  intros Hfuel. split; [|split; [|split]].
  - unfold createRandomGalaxy. cbn [minStarCount maxStarCount
      minGalaxyRadius maxGalaxyRadius maxInitialSpeed rewindTimeSteps
      initialCollisionAvoidanceOffset].
    by rewrite inRange_zero.
  - unfold createRandomGalaxy. cbn [minStarCount maxStarCount
      minGalaxyRadius maxGalaxyRadius maxInitialSpeed rewindTimeSteps
      initialCollisionAvoidanceOffset].
    by rewrite inRange_zero.
  - intros min. by rewrite inRange_zero.
  - set (options := mkGalaxyOptions (Some (INR m)) (Some 0) mnr mxr spd rw off).
    assert (Ht : starTarget options draws i = INR m).
    { unfold starTarget, options. cbn [minStarCount maxStarCount default from_option Datatypes.id].
      by rewrite bool_decide_false by tauto. }
    assert (Hceil : Z.to_nat (Zceil (INR m)) = m).
    { rewrite INR_IZR_INZ, Zceil_integer. lia. }
    destruct (createRandomGalaxy_count options draws i fuel)
      as (g & i' & Hrun & Hlen & Hmass).
    { rewrite Ht, Hceil. lia. }
    exists g, i'. rewrite Hlen, Hmass, Ht, Hceil. done.
Qed.
End RealGenerator.

(** * Further properties of the code *)

(** ** Vectors *)

Section VectorFacts.
Local Open Scope R_scope.

(** X1.  Over the reals, [sub] undoes [add] and [add] undoes [sub], for a
    vector operand and for a number operand. *)
Theorem add_sub_round_trip (a : Vec3 R) (b : Vec3.operand R) :
  Vec3.sub (Vec3.add a b) b = a ∧ Vec3.add (Vec3.sub a b) b = a.
Proof.
  destruct a as [ax ay az], b as [[bx by_ bz]|s]; cbn; split; f_equal; ring.
Qed.

(** X2.  Over the reals, [div] undoes [mul] and [mul] undoes [div] when
    the operand has no zero component (a number operand: is not zero). *)
Theorem mul_div_round_trip (a : Vec3 R) (b : Vec3.operand R) :
  operand_nonzero b →
  Vec3.div (Vec3.mul a b) b = a ∧ Vec3.mul (Vec3.div a b) b = a.
Proof.
  destruct a as [ax ay az], b as [[bx by_ bz]|s]; cbn.
  - intros (Hx & Hy & Hz). split; f_equal; by field.
  - intros Hs. split; f_equal; by field.
Qed.

Lemma magnitude_sqrt (a : Vec3 R) :
  Vec3.magnitude a = sqrt (Vec3.x a * Vec3.x a + Vec3.y a * Vec3.y a + Vec3.z a * Vec3.z a).
Proof. unfold Vec3.magnitude. cbn -[pow]. apply (f_equal sqrt). ring. Qed.

Lemma magnitude_dot (a : Vec3 R) : Vec3.magnitude a = sqrt (dot a a).
Proof. apply magnitude_sqrt. Qed.

Lemma dot_nonneg (a : Vec3 R) : 0 <= dot a a.
Proof. unfold dot. nra. Qed.

(** X3.  Over the reals, the magnitude is never negative, and it is
    zero for the zero vector only. *)
Theorem magnitude_zero_iff (a : Vec3 R) :
  0 <= Vec3.magnitude a ∧ (Vec3.magnitude a = 0 ↔ a = Vec3.new 0 0 0).
Proof.
  rewrite magnitude_dot. split; [apply sqrt_pos|]. split.
  - intros H. apply sqrt_eq_0 in H; [|apply dot_nonneg].
    unfold dot in H. destruct a as [x y z]. cbn in H.
    assert (x = 0 ∧ y = 0 ∧ z = 0) as (-> & -> & ->) by (repeat split; nra). done.
  - intros ->. unfold dot. cbn.
    replace (0 * 0 + 0 * 0 + 0 * 0) with 0 by ring. apply sqrt_0.
Qed.

(** X4.  Over the reals, [normalize] of a vector whose magnitude is not
    zero has magnitude 1. *)
Theorem normalize_unit (a : Vec3 R) :
  Vec3.magnitude a ≠ 0 → Vec3.magnitude (Vec3.normalize a) = 1.
Proof.
  intros Hm. unfold Vec3.normalize.
  assert (Hsq : Vec3.magnitude a * Vec3.magnitude a = dot a a).
  { rewrite magnitude_dot. apply sqrt_sqrt, dot_nonneg. }
  generalize dependent (Vec3.magnitude a). intros m Hm Hsq.
  rewrite magnitude_dot. unfold dot in *. destruct a as [x y z]. cbn in *.
  replace (x / m * (x / m) + y / m * (y / m) + z / m * (z / m)) with 1.
  - apply sqrt_1.
  - field_simplify_eq; [|done]. lra.
Qed.

Lemma random_in_cube (draws : nat → R) (f : R) (i : nat) v i' :
  unit_draws draws → 0 <= f →
  Vec3.random (Some f) draws i = Some (v, i') → in_cube 0 f v.
Proof.
  intros Hd Hf [= <- _].
  pose proof (Hd i) as H0. pose proof (Hd (S i)) as H1. pose proof (Hd (S (S i))) as H2.
  unfold in_cube. cbn. repeat split; nra.
Qed.

Lemma randomCentered_in_cube (draws : nat → R) (f : R) (i : nat) v i' :
  unit_draws draws → 0 <= f →
  Vec3.randomCentered (Some f) draws i = Some (v, i') → in_cube (- (f / 2)) (f / 2) v.
Proof.
  intros Hd Hf [= <- _].
  pose proof (Hd i) as H0. pose proof (Hd (S i)) as H1. pose proof (Hd (S (S i))) as H2.
  unfold in_cube. cbn -[Q2R]. autorewrite with lits.
  repeat split; nra.
Qed.

(** X5.  With draws in [0, 1) and a factor [f >= 0], [Vec3.random(f)]
    takes three draws and returns a vector with every component in
    [0, f]; [Vec3.randomCentered(f)] takes three draws and returns a vector
    with every component in [-f/2, f/2].  A missing factor is the
    factor 1. *)
Theorem random_vectors_in_range (draws : nat → R) (f : R) (i : nat) :
  unit_draws draws → 0 <= f →
  (∃ v, Vec3.random (Some f) draws i = Some (v, (i + 3)%nat) ∧ in_cube 0 f v)
  ∧ (∃ v, Vec3.randomCentered (Some f) draws i = Some (v, (i + 3)%nat)
          ∧ in_cube (- (f / 2)) (f / 2) v)
  ∧ Vec3.random None draws i = Vec3.random (Some 1) draws i
  ∧ Vec3.randomCentered None draws i = Vec3.randomCentered (Some 1) draws i.
Proof.
  intros Hd Hf. split; [|split; [|split]].
  - destruct (vec3_random_Some (Some f) draws i) as [v Hv].
    exists v. split; [done|]. by apply (random_in_cube draws f i v (i + 3)).
  - destruct (vec3_randomCentered_Some (Some f) draws i) as [v Hv].
    exists v. split; [done|]. by apply (randomCentered_in_cube draws f i v (i + 3)).
  - unfold Vec3.random. cbn [default from_option Datatypes.id].
    change (lit 1%Q : R) with (Q2R 1). by rewrite Q2R_lit_1.
  - unfold Vec3.randomCentered. cbn [default from_option Datatypes.id].
    change (lit 1%Q : R) with (Q2R 1). by rewrite Q2R_lit_1.
Qed.
End VectorFacts.

(** ** Matrices *)

Section MatrixShape.
Context {num : Type} `{!Number num}.

Lemma forallb_rows (d : list (list num)) :
  forallb (λ row, bool_decide (length row = 3%nat)) d = true
  ↔ Forall (λ row, length row = 3%nat) d.
Proof.
  induction d as [|row d IH]; cbn.
  - split; [constructor|done].
  - rewrite andb_true_iff, IH, bool_decide_eq_true, Forall_cons. done.
Qed.

(** X6.  The constructor of [Matrix3x3] accepts data of three rows of
    three columns and throws on any other data.  For accepted data,
    [toArray] returns the data and [get] the entry at a row and a column
    in range. *)
Theorem constructor_validates (d : list (list num)) :
  (three_by_three d →
   ∃ m, Matrix3x3.new d = Some m ∧ Matrix3x3.toArray m = d
        ∧ ∀ row col, (row < 3)%nat → (col < 3)%nat →
                     d !! row ≫= (.!! col) = Some (Matrix3x3.get m row col))
  ∧ (¬ three_by_three d → Matrix3x3.new d = None).
Proof.
  unfold three_by_three, Matrix3x3.new. split.
  - intros [Hlen Hrows]. rewrite bool_decide_false by (intros H; by apply H).
    apply forallb_rows in Hrows. rewrite Hrows. eexists. split; [done|].
    unfold Matrix3x3.toArray, Matrix3x3.get. cbn. rewrite !list_fmap_id.
    split; [done|]. intros row col Hrow Hcol.
    destruct (lookup_lt_is_Some_2 d row) as [r Hr]; [lia|].
    rewrite (list_lookup_total_correct _ _ _ Hr), Hr. cbn.
    apply forallb_rows in Hrows. rewrite Forall_lookup in Hrows.
    destruct (lookup_lt_is_Some_2 r col) as [c Hc]; [rewrite (Hrows row r Hr); lia|].
    by rewrite (list_lookup_total_correct _ _ _ Hc).
  - intros Hnot. case_bool_decide as Hlen; [done|].
    destruct (forallb _ d) eqn:Hrows; [|done].
    apply forallb_rows in Hrows. destruct Hnot. split; [|done].
    destruct (decide (length d = 3%nat)); [done|]. by destruct Hlen.
Qed.

Lemma three_by_three_rows (d : list (list num)) :
  three_by_three d →
  ∃ a b c d' e f g h i, d = [ [a; b; c]; [d'; e; f]; [g; h; i] ].
Proof.
  intros [Hlen Hrows].
  destruct d as [|r1 [|r2 [|r3 [|]]]]; try done.
  apply Forall_cons in Hrows as [H1 Hrows].
  apply Forall_cons in Hrows as [H2 Hrows].
  apply Forall_cons in Hrows as [H3 _].
  destruct r1 as [|? [|? [|? [|]]]]; try done.
  destruct r2 as [|? [|? [|? [|]]]]; try done.
  destruct r3 as [|? [|? [|? [|]]]]; try done.
  by eexists _, _, _, _, _, _, _, _, _.
Qed.
End MatrixShape.

Section MatrixFacts.
Local Open Scope R_scope.

(** X7.  [identity()] is neutral: it transforms every vector to itself,
    and its product with a matrix, on either side, is that matrix. *)
Theorem identity_neutral (d : list (list R)) (v : Vec3 R) :
  three_by_three d →
  ∃ i m, Matrix3x3.identity = Some i ∧ Matrix3x3.new d = Some m
         ∧ Matrix3x3.transform i v = v
         ∧ Matrix3x3.mul i m = Some m ∧ Matrix3x3.mul m i = Some m.
Proof.
  intros Hd. destruct (three_by_three_rows d Hd) as (a&b&c&d'&e&f&g&h&k&->).
  unfold Matrix3x3.identity. rewrite !new_rows. eexists _, _.
  split; [done|]. split; [done|]. split; [|split].
  - destruct v. unfold Matrix3x3.transform, Matrix3x3.get. cbn -[Q2R].
    autorewrite with lits. entries.
  - rewrite mul_entries. unfold sum3, Matrix3x3.get. cbn -[Q2R].
    autorewrite with lits. entries.
  - rewrite mul_entries. unfold sum3, Matrix3x3.get. cbn -[Q2R].
    autorewrite with lits. entries.
Qed.

(** X8.  The rotation by the angle 0 about any axis, and the rotation
    with three Euler angles 0, is the identity matrix. *)
Theorem zero_angle_is_identity (axis : Vec3 R) :
  Matrix3x3.fromAxisAngle axis 0 = Matrix3x3.identity
  ∧ Matrix3x3.fromEuler 0 0 0 = Matrix3x3.identity.
Proof.
  unfold Matrix3x3.fromAxisAngle, Matrix3x3.fromEuler, Matrix3x3.identity.
  rewrite !new_rows. cbn -[Q2R]. rewrite cos_0, sin_0. autorewrite with lits.
  split; entries.
Qed.

(** X9.  [mul] composes transformations from left to right: the product
    [A.mul(B)] transforms a vector as [B] transforms the result of [A]. *)
Theorem mul_then_transform (A B : Matrix3x3 R) (v : Vec3 R) :
  ∃ AB, Matrix3x3.mul A B = Some AB
        ∧ Matrix3x3.transform AB v = Matrix3x3.transform B (Matrix3x3.transform A v).
Proof.
  eexists. split; [apply mul_entries|].
  unfold Matrix3x3.transform, sum3. cbn.
  set (a := Matrix3x3.get A). set (b := Matrix3x3.get B).
  unfold Matrix3x3.get. cbn. entries.
Qed.

(** X10.  [mul] is associative over the reals, and it never throws. *)
Theorem mul_associative (A B C : Matrix3x3 R) :
  (AB ← Matrix3x3.mul A B; Matrix3x3.mul AB C)
  = (BC ← Matrix3x3.mul B C; Matrix3x3.mul A BC)
  ∧ is_Some (AB ← Matrix3x3.mul A B; Matrix3x3.mul AB C).
Proof.
  rewrite !mul_entries. cbn [mbind option_bind]. rewrite !mul_entries.
  split; [|by eexists]. unfold sum3. cbn.
  set (a := Matrix3x3.get A). set (b := Matrix3x3.get B). set (c := Matrix3x3.get C).
  unfold Matrix3x3.get. cbn. entries.
Qed.
End MatrixFacts.

Section Rotations.
Local Open Scope R_scope.

Ltac trig t :=
  let H := fresh "Htrig" in
  pose proof (sin2_cos2 t) as H; unfold Rsqr in H;
  generalize dependent (sin t); generalize dependent (cos t); intros.

Lemma fromEuler_dot (x y z : R) (m : Matrix3x3 R) (u v : Vec3 R) :
  Matrix3x3.fromEuler x y z = Some m →
  dot (Matrix3x3.transform m u) (Matrix3x3.transform m v) = dot u v.
Proof.
  unfold Matrix3x3.fromEuler. rewrite new_rows. intros [= <-].
  unfold dot, Matrix3x3.transform, Matrix3x3.get.
  destruct u as [u1 u2 u3], v as [v1 v2 v3]. cbn.
  trig x. trig y. trig z. nsatz.
Qed.

(** X11.  Over the reals, the matrix of [fromEuler] keeps scalar
    products and lengths: it is a rotation, for all angles. *)
Theorem fromEuler_is_rotation (x y z : R) (u v : Vec3 R) :
  ∃ m, Matrix3x3.fromEuler x y z = Some m
       ∧ dot (Matrix3x3.transform m u) (Matrix3x3.transform m v) = dot u v
       ∧ Vec3.magnitude (Matrix3x3.transform m v) = Vec3.magnitude v.
Proof.
  destruct (Matrix3x3.fromEuler x y z) as [m|] eqn:Hm.
  2: { unfold Matrix3x3.fromEuler in Hm. by rewrite new_rows in Hm. }
  exists m. split; [done|]. split; [by apply (fromEuler_dot x y z)|].
  by rewrite !magnitude_dot, (fromEuler_dot x y z).
Qed.

Lemma fromAxisAngle_dot (axis : Vec3 R) (angle : R) (m : Matrix3x3 R) (u v : Vec3 R) :
  dot axis axis = 1 →
  Matrix3x3.fromAxisAngle axis angle = Some m →
  dot (Matrix3x3.transform m u) (Matrix3x3.transform m v) = dot u v.
Proof.
  unfold Matrix3x3.fromAxisAngle. rewrite new_rows. intros Hunit [= <-].
  unfold dot, Matrix3x3.transform, Matrix3x3.get in *.
  destruct axis as [a1 a2 a3], u as [u1 u2 u3], v as [v1 v2 v3]. cbn -[Q2R] in *.
  autorewrite with lits. trig angle. nsatz.
Qed.

(** X12.  Over the reals and for an axis of length 1, the matrix of
    [fromAxisAngle] keeps scalar products and lengths, and it leaves the
    axis where it is. *)
Theorem fromAxisAngle_is_rotation (axis : Vec3 R) (angle : R) (u v : Vec3 R) :
  Vec3.magnitude axis = 1 →
  ∃ m, Matrix3x3.fromAxisAngle axis angle = Some m
       ∧ dot (Matrix3x3.transform m u) (Matrix3x3.transform m v) = dot u v
       ∧ Vec3.magnitude (Matrix3x3.transform m v) = Vec3.magnitude v
       ∧ Matrix3x3.transform m axis = axis.
Proof.
  intros Hmag.
  assert (Hunit : dot axis axis = 1).
  { rewrite <- (sqrt_sqrt (dot axis axis)) by apply dot_nonneg.
    rewrite <- magnitude_dot, Hmag. ring. }
  destruct (Matrix3x3.fromAxisAngle axis angle) as [m|] eqn:Hm.
  2: { unfold Matrix3x3.fromAxisAngle in Hm. by rewrite new_rows in Hm. }
  exists m. split; [done|]. split; [by apply (fromAxisAngle_dot axis angle)|].
  split; [by rewrite !magnitude_dot, (fromAxisAngle_dot axis angle)|].
  unfold Matrix3x3.fromAxisAngle in Hm. rewrite new_rows in Hm. injection Hm as <-.
  unfold dot, Matrix3x3.transform, Matrix3x3.get in *.
  destruct axis as [a1 a2 a3]. cbn -[Q2R] in *. autorewrite with lits.
  trig angle. f_equal; nsatz.
Qed.

(** X13.  Over the reals and for an axis of length 1, the product of the
    rotations by [a] and by [b] about the axis is the rotation by
    [a + b]. *)
Theorem same_axis_angles_add (axis : Vec3 R) (a b : R) :
  Vec3.magnitude axis = 1 →
  (ma ← Matrix3x3.fromAxisAngle axis a;
   mb ← Matrix3x3.fromAxisAngle axis b;
   Matrix3x3.mul ma mb)
  = Matrix3x3.fromAxisAngle axis (a + b).
Proof.
  intros Hmag.
  assert (Hunit : dot axis axis = 1).
  { rewrite <- (sqrt_sqrt (dot axis axis)) by apply dot_nonneg.
    rewrite <- magnitude_dot, Hmag. ring. }
  unfold Matrix3x3.fromAxisAngle. rewrite !new_rows. cbn [mbind option_bind].
  rewrite mul_entries. unfold sum3, Matrix3x3.get, dot in *.
  destruct axis as [a1 a2 a3]. cbn -[Q2R] in *. autorewrite with lits.
  rewrite cos_plus, sin_plus. trig a. trig b.
  repeat match goal with
    | |- Some _ = Some _ => apply (f_equal Some)
    | |- Matrix3x3.Build _ = Matrix3x3.Build _ => apply (f_equal Matrix3x3.Build)
    | |- _ :: _ = _ :: _ => apply (f_equal2 cons)
    | |- @nil _ = @nil _ => reflexivity
    | |- @eq R _ _ => nsatz
    end.
Qed.
End Rotations.

(** ** The traversal of the stars and the integrator *)

Section Traversal.
Context {num unknown : Type}.
Implicit Types (h : Heap num unknown).

Lemma for_of_app {A St : Type} (l1 l2 : list A) (body : A → St → option St) (s : St) :
  for_of (l1 ++ l2) body s = (s' ← for_of l1 body s; for_of l2 body s').
Proof.
  revert s. induction l1 as [|x l1 IH]; intros s; [done|].
  cbn. destruct (body x s) as [s'|]; [apply IH|done].
Qed.

Lemma for_index_visits (func : ref → ref → nat → Heap num unknown → option (Heap num unknown))
    galaxy (ss : list ref) :
  ∀ k h,
    for_index k ss (λ star i, func star galaxy i) h
    = for_of (imap (λ i star, (star, galaxy, (k + i)%nat)) ss)
        (λ v, func v.1.1 v.1.2 v.2) h.
Proof.
  induction ss as [|s ss IH]; intros k h; [done|].
  cbn. rewrite Nat.add_0_r. destruct (func s galaxy k h) as [h'|]; [|done]. cbn.
  rewrite IH. f_equal. apply imap_ext. intros i x _. cbn. do 2 f_equal. lia.
Qed.

(** The galaxies of the store are left alone by every call, and by a
    whole loop of calls. *)
Lemma for_of_keeps_galaxies {A : Type} (l : list A)
    (body : A → Heap num unknown → option (Heap num unknown)) h h' :
  (∀ x h h', body x h = Some h' → heap_galaxies h' = heap_galaxies h) →
  for_of l body h = Some h' → heap_galaxies h' = heap_galaxies h.
Proof.
  intros Hbody. revert h. induction l as [|x l IH]; intros h Hrun; cbn in Hrun.
  - by injection Hrun as <-.
  - destruct (body x h) as [h1|] eqn:H1; [|done]. cbn in Hrun.
    rewrite (IH _ Hrun). by eapply Hbody.
Qed.

(** X14.  For a callback that leaves the galaxies alone, [allStars] makes
    one call for every star of every galaxy, galaxy by galaxy in the
    order of the array and star by star in the order of the stars array,
    with the index of the star; [starCount] is the number of these
    calls. *)
Theorem allStars_visits_in_order
    (func : ref → ref → nat → Heap num unknown → option (Heap num unknown))
    (galaxies : list ref) h :
  (∀ star galaxy i h h', func star galaxy i h = Some h' →
                         heap_galaxies h' = heap_galaxies h) →
  Forall (λ galaxy, is_Some (read_galaxy galaxy h)) galaxies →
  allStars galaxies func h
  = for_of (visits galaxies h) (λ v, func v.1.1 v.1.2 v.2) h
  ∧ starCount galaxies h = Some (length (visits galaxies h)).
Proof.
  intros Hfunc Hall. split.
  - unfold allStars, visits.
    assert (Hgen : ∀ h0, heap_galaxies h0 = heap_galaxies h →
      for_of galaxies
        (λ galaxy h1, g ← read_galaxy galaxy h1;
                      for_index 0 (Galaxy.stars g) (λ star i, func star galaxy i) h1) h0
      = for_of (galaxies ≫= λ galaxy,
                  match read_galaxy galaxy h with
                  | Some g => imap (λ i star, (star, galaxy, i)) (Galaxy.stars g)
                  | None => []
                  end) (λ v, func v.1.1 v.1.2 v.2) h0); [|by apply Hgen].
    induction Hall as [|galaxy gl [g Hg] _ IH]; intros h0 Hh0; [done|].
    rewrite bind_cons, for_of_app. cbn [for_of].
    unfold read_galaxy in *. rewrite Hh0, Hg. cbn [mbind option_bind].
    rewrite (for_index_visits func galaxy (Galaxy.stars g) 0 h0). cbn [Nat.add].
    destruct (for_of (imap _ (Galaxy.stars g)) _ h0) as [h1|] eqn:Hrun; [|done].
    cbn [mbind option_bind]. apply IH.
    rewrite <- Hh0. eapply for_of_keeps_galaxies; [|exact Hrun].
    intros [[s gx] i] ha hb. apply Hfunc.
  - unfold starCount, visits.
    assert (Hgen : ∀ acc,
      for_of galaxies
        (λ galaxy acc, g ← read_galaxy galaxy h; Some (acc + length (Galaxy.stars g))%nat) acc
      = Some (acc + length (galaxies ≫= λ galaxy,
                  match read_galaxy galaxy h with
                  | Some g => imap (λ i star, (star, galaxy, i)) (Galaxy.stars g)
                  | None => []
                  end))%nat); [|by apply (Hgen 0%nat)].
    induction Hall as [|galaxy gl [g Hg] _ IH]; intros acc.
    + cbn. by rewrite Nat.add_0_r.
    + cbn [for_of]. rewrite Hg. cbn [mbind option_bind]. rewrite IH.
      rewrite bind_cons, length_app, Hg, length_imap. f_equal. lia.
Qed.
End Traversal.

Section IntegratorFurther.
Context {num unknown : Type} `{!Number num}.
Implicit Types (h : Heap num unknown).

Lemma snapshot_is_Some_resolves h galaxies :
  is_Some (snapshot galaxies h) →
  ∃ gvals, resolves (heap_galaxies h) galaxies gvals
           ∧ Forall (λ s, is_Some (heap_stars h !! s)) (gvals ≫= Galaxy.stars).
Proof.
  intros [gs Hgs]. apply snapshot_Some in Hgs as (gvals & Hres & Hsnap).
  exists gvals. split; [done|]. by eapply snapshot_stars_is_Some.
Qed.

(** X15.  The stars do not act on the galaxies: on two stores that hold
    the same galaxies, [updateGalaxies] leaves the same galaxies,
    whatever the stars are. *)
Theorem galaxies_independent_of_stars h1 h2 galaxies :
  is_Some (snapshot galaxies h1) → is_Some (snapshot galaxies h2) →
  heap_galaxies h1 = heap_galaxies h2 →
  ∃ h1' h2', updateGalaxies galaxies h1 = Some h1'
             ∧ updateGalaxies galaxies h2 = Some h2'
             ∧ heap_galaxies h1' = heap_galaxies h2'.
Proof.
  intros H1 H2 Heq.
  apply snapshot_is_Some_resolves in H1 as (gv1 & Hres1 & Hst1).
  apply snapshot_is_Some_resolves in H2 as (gv2 & Hres2 & Hst2).
  eexists _, _. split; [by apply (updateGalaxies_eq _ _ gv1)|].
  split; [by apply (updateGalaxies_eq _ _ gv2)|].
  cbn [heap_galaxies]. by rewrite Heq.
Qed.

(** A defined snapshot stays defined when objects are replaced by objects
    with the same stars arrays. *)
Lemma snapshot_is_Some_frame h h' galaxies :
  (∀ r, option_Forall2 galaxy_frame (heap_galaxies h !! r) (heap_galaxies h' !! r)) →
  (∀ s, is_Some (heap_stars h !! s) → is_Some (heap_stars h' !! s)) →
  is_Some (snapshot galaxies h) →
  is_Some (snapshot galaxies h') ∧ star_refs galaxies h' = star_refs galaxies h.
Proof.
  intros Hg Hs [gs Hgs]. apply snapshot_Some in Hgs as (gvals & Hres & Hsnap).
  revert gs Hsnap. induction Hres as [|r g rs gvs Hr Hres IH]; intros gs Hsnap.
  - split; [by eexists|done].
  - inversion Hsnap as [|g0 v gvs0 vs Hv Hsnap']; subst.
    destruct (IH _ Hsnap') as [[gs' Hgs'] Hrefs].
    specialize (Hg r). rewrite Hr in Hg. inversion Hg as [g1 g' Hframe Heq1 Heq2|]; subst.
    destruct Hframe as (_ & _ & _ & Hstars).
    apply snapshot_galaxy_Some in Hv as [Hsv _].
    assert (Hm : is_Some (mapM (λ star, read_star star h') (Galaxy.stars g'))).
    { rewrite Hstars. clear -Hsv Hs. induction Hsv as [|s sv ss svs Hlook _ IHs].
      - by eexists.
      - destruct IHs as [l Hl]. destruct (Hs s) as [sv' Hsv']; [by eexists|].
        exists (sv' :: l). cbn [mapM].
        change (read_star s h') with (heap_stars h' !! s). rewrite Hsv'.
        cbn [mbind option_bind]. by rewrite Hl. }
    destruct Hm as [l Hl]. split.
    + unfold snapshot in *. cbn [mapM].
      change (read_galaxy r h') with (heap_galaxies h' !! r). rewrite <- Heq2.
      cbn [mbind option_bind].
      assert (is_Some (snapshot_galaxy h' g')) as [v' ->]
        by (unfold snapshot_galaxy; rewrite Hl; by eexists).
      cbn [mbind option_bind]. rewrite Hgs'. by eexists.
    + unfold star_refs in *. rewrite !bind_cons, Hrefs. unfold read_galaxy.
      by rewrite <- Heq2, Hr, Hstars.
Qed.

Lemma updateGalaxies_store h galaxies :
  is_Some (snapshot galaxies h) →
  ∃ h', updateGalaxies galaxies h = Some h'
        ∧ is_Some (snapshot galaxies h')
        ∧ star_refs galaxies h' = star_refs galaxies h.
Proof.
  intros Hsnap.
  destruct (snapshot_is_Some_resolves _ _ Hsnap) as (gvals & Hres & Hst).
  eexists. split; [by apply (updateGalaxies_eq _ _ gvals)|].
  apply snapshot_is_Some_frame; [| |done]; cbn [heap_galaxies heap_stars].
  - intros r.
    pose proof (foldl_alter_rel (@galaxy_frame num unknown)
                  (λ r, nextVelocity (heap_galaxies h) galaxies r) galaxies
                  (heap_galaxies h) r galaxy_frame_refl galaxy_frame_trans
                  (λ _ g, galaxy_frame_refl g)) as H1.
    pose proof (foldl_alter_rel (@galaxy_frame num unknown) (λ _, nextPosition) galaxies
                  (foldl (λ m r, alter (nextVelocity (heap_galaxies h) galaxies r) r m)
                     (heap_galaxies h) galaxies)
                  r galaxy_frame_refl galaxy_frame_trans
                  (λ _ g, galaxy_frame_refl g)) as H2.
    destruct H1 as [g g1 Hg1|]; inversion H2 as [g1' g2 Hg2|]; subst; constructor.
    by apply (galaxy_frame_trans _ g1).
  - intros s. by rewrite (foldl_alter_is_Some (λ _, nextStar gvals)).
Qed.

(** X16.  On a store in which every reference of the array, and of the
    stars arrays, points to an object, any number of calls of
    [updateGalaxies] in a row return; the references still point to
    objects, the traversal of the stars is the same, and galaxies that
    own their stars still do. *)
Theorem frames_never_fail (n : nat) h galaxies :
  is_Some (snapshot galaxies h) →
  ∃ h', frames n galaxies h = Some h'
        ∧ is_Some (snapshot galaxies h')
        ∧ star_refs galaxies h' = star_refs galaxies h
        ∧ (owned galaxies h → owned galaxies h').
Proof.
  revert h. induction n as [|n IH]; intros h Hsnap.
  - exists h. by split; [|split; [|split]].
  - destruct (updateGalaxies_store h galaxies Hsnap) as (h1 & Hrun & Hsnap1 & Hrefs1).
    destruct (IH h1 Hsnap1) as (h' & Hrun' & Hsnap' & Hrefs' & _).
    exists h'. cbn [frames]. rewrite Hrun. cbn [mbind option_bind].
    split; [done|]. split; [done|]. split; [congruence|].
    intros [Hnd Hnds]. split; [done|]. by rewrite Hrefs', Hrefs1.
Qed.
End IntegratorFurther.

Section Sums.
Local Open Scope R_scope.

Lemma rsum_nil : rsum [] = 0.
Proof. reflexivity. Qed.
Lemma rsum_cons (x : R) (l : list R) : rsum (x :: l) = x + rsum l.
Proof. reflexivity. Qed.

Lemma rsum_scale {A : Type} (k : R) (f : A → R) (l : list A) :
  k * rsum (f <$> l) = rsum ((λ a, k * f a) <$> l).
Proof.
  induction l as [|x l IH]; [cbn; ring|].
  rewrite !fmap_cons, !rsum_cons, <- IH. ring.
Qed.

Lemma rsum_imap_plus {A : Type} (f : A → R) (g : nat → A → R) (l : list A) :
  rsum (imap (λ i a, f a + g i a) l) = rsum (f <$> l) + rsum (imap g l).
Proof.
  revert g. induction l as [|x l IH]; intros g; [cbn; ring|].
  rewrite !imap_cons, fmap_cons, !rsum_cons.
  change ((λ i a, f a + g i a) ∘ S) with (λ i a, f a + (g ∘ S) i a).
  rewrite (IH (g ∘ S)). ring.
Qed.

Lemma rsum_antisymmetric {A : Type} (F : A → A → R) (x : A) (l : list A) :
  (∀ a b, F a b = - F b a) →
  rsum (F x <$> l) + rsum ((λ a, F a x) <$> l) = 0.
Proof.
  intros Hanti. induction l as [|y l IH]; [cbn; ring|].
  rewrite !fmap_cons, !rsum_cons, (Hanti y x). lra.
Qed.

(** Every ordered pair of different positions of a list taken once: the
    terms of an antisymmetric function cancel. *)
Lemma pair_sum_zero {A : Type} (F : A → A → R) (l : list A) :
  (∀ a b, F a b = - F b a) →
  rsum (imap (λ i a, rsum (F a <$> delete i l)) l) = 0.
Proof.
  intros Hanti. induction l as [|x l IH]; [done|].
  rewrite imap_cons, rsum_cons.
  rewrite (imap_ext _ (λ i a, F a x + rsum (F a <$> delete i l))) by done.
  rewrite rsum_imap_plus, IH. cbn [delete list_delete].
  pose proof (rsum_antisymmetric F x l Hanti). lra.
Qed.

Lemma component_vadd (a b : Vec3 R) c :
  component (Reference.vadd a b) c = component a c + component b c.
Proof. by destruct c as [|[|c]]. Qed.

Lemma component_scale k (a : Vec3 R) c :
  component (Reference.scale k a) c = k * component a c.
Proof. by destruct c as [|[|c]]. Qed.

Lemma component_vsub (a b : Vec3 R) c :
  component (Reference.vsub a b) c = component a c - component b c.
Proof. by destruct c as [|[|c]]. Qed.

Lemma component_vsum (l : list (Vec3 R)) c :
  component (Reference.vsum l) c = rsum ((λ v, component v c) <$> l).
Proof.
  induction l as [|v l IH]; [by destruct c as [|[|c]]|].
  rewrite fmap_cons, rsum_cons, <- IH. apply component_vadd.
Qed.

Lemma components_eq (a b : Vec3 R) : (∀ c, component a c = component b c) → a = b.
Proof.
  intros H. destruct a, b.
  pose proof (H 0%nat). pose proof (H 1%nat). pose proof (H 2%nat). cbn in *. congruence.
Qed.
End Sums.

Section RealIntegratorFurther.
Context {unknown : Type}.
Local Open Scope R_scope.
Implicit Types (h : Heap R unknown).

(** The galaxy at index [i] after the velocity and the position phase, in
    terms of the galaxies the array pointed to before the call. *)
Lemma galaxy_after (gm : gmap ref (Galaxy R unknown ref)) galaxies gvals i galaxy g :
  resolves gm galaxies gvals → NoDup galaxies → galaxies !! i = Some galaxy →
  let g' := nextPosition (nextVelocity gm galaxies galaxy g) in
  Galaxy.mass g' = Galaxy.mass g
  ∧ Galaxy.vel g'
    = Reference.vadd (Galaxy.vel g)
        (Reference.scale Reference.dt
           (Reference.vsum (Reference.pull (Galaxy.pos g) <$> delete i gvals)))
  ∧ Galaxy.pos g'
    = Reference.vadd (Galaxy.pos g) (Reference.scale Reference.dt (Galaxy.vel g')).
Proof.
  intros Hres Hnd Hi g'. subst g'. unfold nextPosition, nextVelocity.
  rewrite (galaxyAcceleration_delete _ _ _ _ _ _ Hres Hnd Hi), starAcceleration_sum.
  unfold Galaxy.set_pos, Galaxy.set_vel, Vec3.add, Vec3.mul, Reference.vadd,
    Reference.scale, TIME_STEP, Reference.dt.
  cbn -[Q2R Reference.vsum]. autorewrite with lits.
  split; [done|]. split; f_equal; ring.
Qed.

Lemma pull_antisymmetric {star : Type} (a b : Galaxy R unknown star) c :
  Galaxy.mass a * component (Reference.pull (Galaxy.pos a) b) c
  = - (Galaxy.mass b * component (Reference.pull (Galaxy.pos b) a) c).
Proof.
  unfold Reference.pull. rewrite !component_scale, !component_vsub.
  replace (Reference.norm (Reference.vsub (Galaxy.pos a) (Galaxy.pos b)))
    with (Reference.norm (Reference.vsub (Galaxy.pos b) (Galaxy.pos a))).
  2: { unfold Reference.norm, Reference.vsub. cbn. f_equal. ring. }
  unfold Rdiv. ring.
Qed.

Lemma momentum_component {star : Type} (gs : list (Galaxy R unknown star)) c :
  component (momentum gs) c
  = rsum ((λ g, Galaxy.mass g * component (Galaxy.vel g) c) <$> gs).
Proof.
  unfold momentum. rewrite component_vsum, <- list_fmap_compose.
  f_equal. apply list_fmap_ext. intros _ g _. cbn. apply component_scale.
Qed.

Lemma momentum_snapshot h gvals gs :
  Forall2 (λ g v, snapshot_galaxy h g = Some v) gvals gs →
  momentum gs = momentum gvals.
Proof.
  unfold momentum. induction 1 as [|g v gvals gs Hv _ IH]; [done|].
  rewrite !fmap_cons. cbn [Reference.vsum foldr]. fold (@Reference.vsum).
  apply snapshot_galaxy_Some in Hv as [_ ->]. cbn [Galaxy.mass Galaxy.vel].
  f_equal. apply IH.
Qed.

Lemma momentum_step h galaxies gs :
  snapshot galaxies h = Some gs → NoDup galaxies →
  ∃ h' gs', updateGalaxies galaxies h = Some h'
            ∧ snapshot galaxies h' = Some gs'
            ∧ momentum gs' = momentum gs.
Proof.
  intros Hgs Hnd.
  destruct (updateGalaxies_store h galaxies) as (h' & Hrun & [gs' Hgs'] & _); [by eexists|].
  exists h', gs'. split; [done|]. split; [done|].
  apply snapshot_Some in Hgs as (gvals & Hres & Hsnap).
  apply snapshot_Some in Hgs' as (gvals' & Hres' & Hsnap').
  rewrite (momentum_snapshot _ _ _ Hsnap), (momentum_snapshot _ _ _ Hsnap').
  rewrite (updateGalaxies_eq _ _ _ Hres (snapshot_stars_is_Some _ _ _ Hsnap)) in Hrun.
  injection Hrun as <-. cbn [heap_galaxies] in Hres'.
  apply components_eq. intros c. rewrite !momentum_component.
  set (F := λ a b : Galaxy R unknown ref,
         Reference.dt * Galaxy.mass a * component (Reference.pull (Galaxy.pos a) b) c).
  transitivity (rsum (imap (λ i g, Galaxy.mass g * component (Galaxy.vel g) c
                                   + rsum (F g <$> delete i gvals)) gvals)).
  - f_equal. apply list_eq. intros i. rewrite list_lookup_fmap, list_lookup_imap.
    destruct (gvals !! i) as [g|] eqn:Hgi.
    + destruct (Forall2_lookup_r _ _ _ _ _ Hres Hgi) as (r & Hr & Hlook).
      destruct (Forall2_lookup_l _ _ _ _ _ Hres' Hr) as (g' & -> & Hlook').
      pose proof (list_elem_of_lookup_2 _ _ _ Hr) as Hin.
      rewrite (foldl_alter_NoDup (λ _, nextPosition)) in Hlook' by done.
      rewrite (foldl_alter_NoDup (λ r, nextVelocity (heap_galaxies h) galaxies r)) in Hlook'
        by done.
      rewrite Hlook in Hlook'. injection Hlook' as <-.
      destruct (galaxy_after _ _ _ _ _ g Hres Hnd Hr) as (Hm & Hv & _).
      cbn [fmap option_fmap option_map]. f_equal. rewrite Hm, Hv.
      rewrite component_vadd, component_scale, component_vsum, <- list_fmap_compose.
      unfold F. rewrite <- rsum_scale. unfold compose. ring.
    + apply lookup_ge_None in Hgi. cbn.
      rewrite (proj2 (lookup_ge_None gvals' i)); [done|].
      rewrite <- (Forall2_length _ _ _ Hres'), (Forall2_length _ _ _ Hres). done.
  - rewrite rsum_imap_plus, pair_sum_zero; [ring|].
    intros a b. unfold F. rewrite !Rmult_assoc, (pull_antisymmetric a b c). ring.
Qed.

(** X17.  Over the reals and for an array that names no galaxy twice,
    the total momentum of the galaxies (the sum of mass times velocity)
    is the same after any number of calls of [updateGalaxies]. *)
Theorem momentum_conserved (n : nat) h galaxies gs :
  snapshot galaxies h = Some gs → NoDup galaxies →
  ∃ h' gs', frames n galaxies h = Some h'
            ∧ snapshot galaxies h' = Some gs'
            ∧ momentum gs' = momentum gs.
Proof.
  intros Hgs Hnd. revert h gs Hgs. induction n as [|n IH]; intros h gs Hgs.
  - by exists h, gs.
  - destruct (momentum_step h galaxies gs Hgs Hnd) as (h1 & gs1 & Hrun & Hgs1 & Hp1).
    destruct (IH h1 gs1 Hgs1) as (h' & gs' & Hrun' & Hgs' & Hp').
    exists h', gs'. cbn [frames]. rewrite Hrun. cbn [mbind option_bind].
    split; [done|]. split; [done|]. congruence.
Qed.

(** A galaxy that is alone in the array. *)
Lemma lone_galaxy_step h a g :
  read_galaxy a h = Some g → is_Some (snapshot [a] h) →
  ∃ h', updateGalaxies [a] h = Some h'
        ∧ is_Some (snapshot [a] h')
        ∧ read_galaxy a h'
          = Some (Galaxy.set_pos
                    (Reference.vadd (Galaxy.pos g) (Reference.scale Reference.dt (Galaxy.vel g)))
                    g).
Proof.
  intros Hg Hsnap.
  destruct (updateGalaxies_store h [a] Hsnap) as (h' & Hrun & Hsnap' & _).
  exists h'. split; [done|]. split; [done|].
  destruct Hsnap as [gs Hgs]. apply snapshot_Some in Hgs as (gvals & Hres & Hsn).
  rewrite (updateGalaxies_eq _ _ _ Hres (snapshot_stars_is_Some _ _ _ Hsn)) in Hrun.
  injection Hrun as <-. unfold read_galaxy in *. cbn [heap_galaxies foldl].
  rewrite !lookup_alter_eq, Hg. cbn [fmap option_fmap option_map]. f_equal.
  unfold nextPosition, nextVelocity, galaxyAcceleration. cbn [foldl].
  rewrite bool_decide_true by done.
  unfold Galaxy.set_pos, Galaxy.set_vel, Vec3.add, Vec3.mul, Vec3.zero, Reference.vadd,
    Reference.scale, TIME_STEP, Reference.dt.
  destruct g as [[vx vy vz] [px py pz] rot m st d].
  cbn -[Q2R]. autorewrite with lits. f_equal; f_equal; ring.
Qed.

(** X18.  Over the reals, a galaxy that is alone in the array keeps its
    velocity; after [n] calls it has moved by [n * TIME_STEP] times its
    velocity. *)
Theorem lone_galaxy_uniform_motion (n : nat) h a g :
  read_galaxy a h = Some g → is_Some (snapshot [a] h) →
  ∃ h', frames n [a] h = Some h'
        ∧ read_galaxy a h'
          = Some (Galaxy.set_pos
                    (Reference.vadd (Galaxy.pos g)
                       (Reference.scale (INR n * Reference.dt) (Galaxy.vel g)))
                    g).
Proof.
  revert h g. induction n as [|n IH]; intros h g Hg Hsnap.
  - exists h. split; [done|]. rewrite Hg. f_equal.
    destruct g as [v [px py pz] rot m st d]. unfold Galaxy.set_pos, Reference.vadd,
      Reference.scale. cbn. f_equal. f_equal; ring.
  - destruct (lone_galaxy_step h a g Hg Hsnap) as (h1 & Hrun & Hsnap1 & Hg1).
    destruct (IH h1 _ Hg1 Hsnap1) as (h' & Hrun' & Hg').
    exists h'. cbn [frames]. rewrite Hrun. cbn [mbind option_bind].
    split; [done|]. rewrite Hg'. f_equal. rewrite S_INR.
    unfold Galaxy.set_pos, Reference.vadd, Reference.scale. cbn. f_equal. f_equal; ring.
Qed.
End RealIntegratorFurther.

(** *** The order of the galaxies and the law of attraction *)

(** A loop whose iterations commute gives the same result in any order. *)
Lemma foldl_perm {A B : Type} (f : A → B → A) (l l' : list B) :
  (∀ a x y, f (f a x) y = f (f a y) x) →
  l ≡ₚ l' → ∀ a, foldl f a l = foldl f a l'.
Proof.
  intros Hcomm. induction 1 as [|x l l' _ IH|x y l|l1 l2 l3 _ IH1 _ IH2]; intros a.
  - done.
  - cbn. apply IH.
  - cbn. by rewrite Hcomm.
  - by rewrite IH1.
Qed.

Section Orders.
Context {A : Type}.

Lemma foldl_alter_perm (F : ref → A → A) (l l' : list ref) (m : gmap ref A) :
  l ≡ₚ l' →
  foldl (λ m k, alter (F k) k m) m l = foldl (λ m k, alter (F k) k m) m l'.
Proof.
  intros Hperm. apply foldl_perm; [|done].
  intros m0 x y. destruct (decide (x = y)) as [->|Hne]; [done|].
  by rewrite alter_alter_ne.
Qed.

Lemma foldl_alter_ext (F G : ref → A → A) (l : list ref) (m : gmap ref A) :
  (∀ k x, F k x = G k x) →
  foldl (λ m k, alter (F k) k m) m l = foldl (λ m k, alter (G k) k m) m l.
Proof.
  intros Hext. revert m. induction l as [|k l IH]; intros m; [done|].
  cbn. rewrite IH. f_equal. apply alter_ext. intros x _. apply Hext.
Qed.
End Orders.

Section GalaxyOrder.
Context {unknown : Type}.
Local Open Scope R_scope.
Implicit Types (h : Heap R unknown).

Lemma resolves_perm (gm : gmap ref (Galaxy R unknown ref)) l l' gv :
  l ≡ₚ l' → resolves gm l gv → ∃ gv', resolves gm l' gv' ∧ gv ≡ₚ gv'.
Proof.
  intros Hperm. revert gv.
  induction Hperm as [|x l l' _ IH|x y l|l1 l2 l3 _ IH1 _ IH2]; intros gv Hres.
  - inversion Hres; subst. by exists [].
  - inversion Hres as [|? g ? gv0 Hx Hres0]; subst.
    destruct (IH _ Hres0) as (gv' & Hres' & Hp).
    exists (g :: gv'). split; [by constructor|by constructor].
  - inversion Hres as [|? gy ? gv1 Hy Hres1]; subst.
    inversion Hres1 as [|? gx ? gv0 Hx Hres0]; subst.
    exists (gx :: gy :: gv0). split; [by repeat constructor|constructor].
  - destruct (IH1 _ Hres) as (gv2 & Hres2 & Hp2).
    destruct (IH2 _ Hres2) as (gv3 & Hres3 & Hp3).
    exists gv3. split; [done|by etrans].
Qed.

Lemma vadd_swap (a u v : Vec3 R) :
  Reference.vadd (Reference.vadd a u) v = Reference.vadd (Reference.vadd a v) u.
Proof. unfold Reference.vadd. cbn. f_equal; ring. Qed.

Lemma accumulate_swap {star star' : Type} (p : Vec3 R)
    (x : Galaxy R unknown star) (y : Galaxy R unknown star') acc :
  accumulate p (Galaxy.pos y) (Galaxy.mass y)
    (accumulate p (Galaxy.pos x) (Galaxy.mass x) acc)
  = accumulate p (Galaxy.pos x) (Galaxy.mass x)
      (accumulate p (Galaxy.pos y) (Galaxy.mass y) acc).
Proof. rewrite !accumulate_pull. apply vadd_swap. Qed.

Lemma starAcceleration_perm {star : Type} (p : Vec3 R)
    (gs gs' : list (Galaxy R unknown star)) :
  gs ≡ₚ gs' → starAcceleration p gs = starAcceleration p gs'.
Proof.
  intros Hperm. unfold starAcceleration. apply foldl_perm; [|done].
  intros acc x y. apply accumulate_swap.
Qed.

Lemma galaxyAcceleration_perm (gm : gmap ref (Galaxy R unknown ref)) l l' galaxy p :
  l ≡ₚ l' → galaxyAcceleration gm l galaxy p = galaxyAcceleration gm l' galaxy p.
Proof.
  intros Hperm. unfold galaxyAcceleration. apply foldl_perm; [|done].
  intros acc x y.
  destruct (bool_decide (galaxy = x)), (bool_decide (galaxy = y)); try done.
  destruct (gm !! x) as [gx|], (gm !! y) as [gy|]; try done.
  apply accumulate_swap.
Qed.

(** X24.  Over the reals, the order of the galaxies in the array does not
    matter: for a permutation of the array, [updateGalaxies] leaves the
    same store. *)
Theorem galaxy_order_irrelevant h galaxies galaxies' :
  galaxies ≡ₚ galaxies' → is_Some (snapshot galaxies h) →
  ∃ h', updateGalaxies galaxies h = Some h' ∧ updateGalaxies galaxies' h = Some h'.
Proof.
  intros Hperm [gs Hgs]. apply snapshot_Some in Hgs as (gvals & Hres & Hsnap).
  pose proof (snapshot_stars_is_Some _ _ _ Hsnap) as Hstars.
  destruct (resolves_perm _ _ _ _ Hperm Hres) as (gvals' & Hres' & Hpv).
  assert (Hps : gvals ≫= Galaxy.stars ≡ₚ gvals' ≫= Galaxy.stars) by by rewrite Hpv.
  assert (Hstars' : Forall (λ s, is_Some (heap_stars h !! s)) (gvals' ≫= Galaxy.stars))
    by by rewrite <- Hps.
  eexists. split; [by apply (updateGalaxies_eq _ _ gvals)|].
  rewrite (updateGalaxies_eq _ _ gvals') by done. do 2 f_equal.
  - rewrite (foldl_alter_perm _ _ _ _ Hps). apply foldl_alter_ext.
    intros _ s. unfold nextStar. by rewrite (starAcceleration_perm _ _ _ Hpv).
  - rewrite <- (foldl_alter_perm (λ _, nextPosition) _ _ _ Hperm). f_equal.
    rewrite <- (foldl_alter_perm _ _ _ _ Hperm). apply foldl_alter_ext.
    intros r g. unfold nextVelocity. by rewrite (galaxyAcceleration_perm _ _ _ _ _ Hperm).
Qed.

End GalaxyOrder.

Section Attraction.
Local Open Scope R_scope.

(** X25.  The law of attraction, over the reals: for a body at [p] and a
    galaxy of mass [M >= 0] at another place [q], one iteration of the
    summation loop adds a vector [k (q - p)] with [k >= 0] (it points to
    the galaxy) whose length times the square of the distance is
    [G M]. *)
Theorem inverse_square_law (p q : Vec3 R) (M : R) (acc : Vec3 R) :
  0 <= M → q ≠ p →
  ∃ k, accumulate p q M acc
       = Reference.vadd acc (Reference.scale k (Reference.vsub q p))
       ∧ 0 <= k
       ∧ Reference.norm (Reference.scale k (Reference.vsub q p))
         * Reference.norm (Reference.vsub q p) ^ 2
         = Reference.G * M.
Proof.
  intros HM Hne.
  set (g := Galaxy.Build (unknown:=unit) (star:=unit) (Vec3.new 0 0 0) q (Vec3.new 0 0 0) M [] ∅).
  pose proof (accumulate_pull p g acc) as Hacc. cbn [Galaxy.pos Galaxy.mass g] in Hacc.
  unfold Reference.pull in Hacc. cbn [Galaxy.pos Galaxy.mass g] in Hacc.
  set (r := Reference.vsub q p) in *.
  assert (Hn : 0 < Reference.norm r).
  { unfold Reference.norm. apply sqrt_lt_R0.
    destruct (Req_dec (Vec3.x r * Vec3.x r + Vec3.y r * Vec3.y r + Vec3.z r * Vec3.z r) 0)
      as [Hz|Hnz]; [|nra].
    destruct Hne. destruct p as [px py pz], q as [qx qy qz].
    unfold r, Reference.vsub in Hz. cbn in Hz.
    destruct (sum_squares_zero (qx - px) (qy - py) (qz - pz)) as (Hx & Hy & Hzz);
      [rewrite <- Hz; ring|].
    f_equal; lra. }
  exists (Reference.G * M / Reference.norm r ^ 3).
  split; [exact Hacc|].
  assert (Hk : 0 <= Reference.G * M / Reference.norm r ^ 3).
  { apply Rmult_le_pos; [unfold Reference.G; nra|].
    left. apply Rinv_0_lt_compat. by apply pow_lt. }
  split; [done|].
  assert (Hscale : Reference.norm (Reference.scale (Reference.G * M / Reference.norm r ^ 3) r)
                   = Reference.G * M / Reference.norm r ^ 3 * Reference.norm r).
  { generalize dependent (Reference.G * M / Reference.norm r ^ 3). intros k _ Hk.
    clearbody r. destruct r as [rx ry rz]. unfold Reference.norm, Reference.scale. cbn.
    replace (k * rx * (k * rx) + k * ry * (k * ry) + k * rz * (k * rz))
      with ((k * k) * (rx * rx + ry * ry + rz * rz)) by ring.
    rewrite sqrt_mult; [|nra|nra]. by rewrite sqrt_square. }
  rewrite Hscale. field. lra.
Qed.
End Attraction.

(** ** The generator *)

Section PopulateFacts.
Context {num unknown : Type} `{!Number num}.

(** What holds of every star [createRandomStarInGalaxy] makes for a
    galaxy with the velocity, the position and the mass of [galaxy] holds
    of every star the loop pushes; the loop assigns no other field. *)
Lemma populate_invariant (P : Star num unknown → Prop) draws t rotationMatrix radius
    (galaxy : Galaxy num unknown (Star num unknown)) :
  (∀ (g : Galaxy num unknown (Star num unknown)) k star k',
     Galaxy.vel g = Galaxy.vel galaxy → Galaxy.pos g = Galaxy.pos galaxy →
     Galaxy.mass g = Galaxy.mass galaxy →
     createRandomStarInGalaxy g rotationMatrix (Some radius) draws k = Some (star, k') →
     P star) →
  ∀ fuel i (g0 : Galaxy num unknown (Star num unknown)) j g' j',
    Galaxy.vel g0 = Galaxy.vel galaxy → Galaxy.pos g0 = Galaxy.pos galaxy →
    Galaxy.mass g0 = Galaxy.mass galaxy →
    Forall P (Galaxy.stars g0) →
    populate fuel i t rotationMatrix radius g0 draws j = Some (g', j') →
    Forall P (Galaxy.stars g')
    ∧ Galaxy.vel g' = Galaxy.vel g0 ∧ Galaxy.pos g' = Galaxy.pos g0
    ∧ Galaxy.rotation g' = Galaxy.rotation g0 ∧ Galaxy.mass g' = Galaxy.mass g0
    ∧ Galaxy.data g' = Galaxy.data g0.
Proof.
  intros Hstar. induction fuel as [|fuel IH]; intros i g0 j g' j' Hv Hp Hm Hall Hrun.
  - cbn in Hrun. destruct (nlt i t); [done|]. injection Hrun as <- <-. done.
  - cbn [populate] in Hrun. destruct (nlt i t).
    2: { injection Hrun as <- <-. done. }
    unfold mbind, Rand_bind in Hrun.
    destruct (createRandomStarInGalaxy g0 rotationMatrix (Some radius) draws j)
      as [[star k']|] eqn:Hs; [|done].
    apply IH in Hrun as (Hall' & -> & -> & -> & -> & ->); try done.
    cbn. apply Forall_app. split; [done|]. constructor; [|done].
    by apply (Hstar g0 j star k').
Qed.
Lemma createRandomStarInGalaxy_local (galaxy : Galaxy num unknown (Star num unknown))
    rotationMatrix radius draws k :
  createRandomStarInGalaxy galaxy rotationMatrix (Some radius) draws k
  = Some (Star.Build
            (Vec3.add
               (Matrix3x3.transform rotationMatrix
                  (localPosition radius (draws k) (draws (S k)) (draws (S (S k)))
                     (draws (S (S (S k))))))
               (Vec3.Vec (Galaxy.pos galaxy)))
            (Vec3.add
               (Matrix3x3.transform rotationMatrix
                  (localVelocity (Galaxy.mass galaxy) radius (draws k) (draws (S k))
                     (draws (S (S k))) (draws (S (S (S k))))))
               (Vec3.Vec (Galaxy.vel galaxy)))
            (lit 0) ∅,
          S (S (S (S k)))).
Proof. reflexivity. Qed.
End PopulateFacts.

Section RealGeneratorFurther.
Context {unknown : Type}.
Local Open Scope R_scope.

Lemma vsub_add_cancel (a b : Vec3 R) : Reference.vsub (Vec3.add a (Vec3.Vec b)) b = a.
Proof. destruct a, b. unfold Reference.vsub. cbn. f_equal; ring. Qed.

Lemma exp_le_1 (x : R) : x <= 0 → exp x <= 1.
Proof.
  intros [Hx| ->]; [|rewrite exp_0; lra].
  left. rewrite <- exp_0. by apply exp_increasing.
Qed.

Lemma Q2R_lit_5 : Q2R 5 = 5.
Proof. unfold Q2R. cbn. lra. Qed.

Lemma heightFromPlane_bound (radius r1 r2 r3 : R) :
  0 <= r1 → 0 <= r2 < 1 → 0 < radius →
  heightFromPlane radius r1 r2 r3 ^ 2 <= (radius / 5) ^ 2.
Proof.
  intros H1 H2 Hrad. unfold heightFromPlane. cbn -[Q2R pow exp].
  rewrite Q2R_lit_2, Q2R_lit_5.
  replace (r1 * radius / radius) with r1 by (field; lra).
  pose proof (exp_le_1 (- (2) * r1)) as He. pose proof (exp_pos (- (2) * r1)) as Hp.
  assert (exp (- (2) * r1) <= 1) as He' by (apply He; lra). clear He.
  generalize dependent (exp (- (2) * r1)). intros e Hp He.
  assert (Hh : 0 <= r2 * e / 5 * radius <= radius / 5).
  { assert (0 <= r2 * e) as Hlo by (apply Rmult_le_pos; lra).
    assert (r2 * e <= 1) as Hhi.
    { replace 1 with (1 * 1) by ring. apply Rmult_le_compat; lra. }
    generalize dependent (r2 * e). intros p Hlo Hhi.
    assert (0 <= p * radius) by (apply Rmult_le_pos; lra).
    assert (0 <= (1 - p) * radius) by (apply Rmult_le_pos; lra).
    lra. }
  generalize dependent (r2 * e / 5 * radius). intros h0 Hh.
  case_bool_decide; nra.
Qed.

Lemma localPosition_dot (radius r0 r1 r2 r3 : R) :
  dot (localPosition radius r0 r1 r2 r3) (localPosition radius r0 r1 r2 r3)
  = (r1 * radius) ^ 2 + heightFromPlane radius r1 r2 r3 ^ 2.
Proof.
  unfold localPosition, dot. cbn -[Q2R pow heightFromPlane].
  pose proof (sin2_cos2 (Q2R 2 * PI * r0)) as Ht. unfold Rsqr in Ht.
  generalize dependent (sin (Q2R 2 * PI * r0)).
  generalize dependent (cos (Q2R 2 * PI * r0)). intros c s Ht.
  generalize (heightFromPlane radius r1 r2 r3). intros h.
  replace (r1 * radius * c * (r1 * radius * c) + r1 * radius * s * (r1 * radius * s) + h * h)
    with ((r1 * radius) ^ 2 * (s * s + c * c) + h ^ 2) by ring.
  rewrite Ht. ring.
Qed.

Lemma localPosition_in_disk (radius r0 r1 r2 r3 : R) :
  0 <= r1 < 1 → 0 <= r2 < 1 → 0 < radius →
  dot (localPosition radius r0 r1 r2 r3) (localPosition radius r0 r1 r2 r3)
  <= radius ^ 2 + (radius / 5) ^ 2.
Proof.
  intros H1 H2 Hrad. rewrite localPosition_dot.
  pose proof (heightFromPlane_bound radius r1 r2 r3 (proj1 H1) H2 Hrad).
  assert (0 <= r1 * radius <= radius) as Hd.
  { assert (0 <= r1 * radius) by (apply Rmult_le_pos; lra).
    assert (0 <= (1 - r1) * radius) by (apply Rmult_le_pos; lra). lra. }
  generalize dependent (r1 * radius). intros d Hd.
  assert (d ^ 2 <= radius ^ 2) by nra. lra.
Qed.

Lemma localVelocity_orbit (mass radius r0 r1 r2 r3 : R) :
  0 <= mass →
  dot (localPosition radius r0 r1 r2 r3) (localPosition radius r0 r1 r2 r3) ≠ 0 →
  dot (localPosition radius r0 r1 r2 r3) (localVelocity mass radius r0 r1 r2 r3) = 0
  ∧ dot (localVelocity mass radius r0 r1 r2 r3) (localVelocity mass radius r0 r1 r2 r3)
    * sqrt (dot (localPosition radius r0 r1 r2 r3) (localPosition radius r0 r1 r2 r3))
    = Reference.G * mass.
Proof.
  intros Hm. rewrite localPosition_dot. intros Hne.
  unfold localPosition, localVelocity, dot, G, Reference.G.
  cbn -[Q2R pow heightFromPlane]. autorewrite with lits.
  set (D := (r1 * radius) ^ 2 + heightFromPlane radius r1 r2 r3 ^ 2) in *.
  assert (HD : 0 < sqrt D).
  { apply sqrt_lt_R0. assert (0 <= D) by (unfold D; nra). lra. }
  assert (Hs : sqrt (mass * 0.001 / sqrt D) * sqrt (mass * 0.001 / sqrt D)
               = mass * 0.001 / sqrt D).
  { apply sqrt_sqrt. apply Rmult_le_pos; [lra|]. left. by apply Rinv_0_lt_compat. }
  generalize dependent (sqrt (mass * 0.001 / sqrt D)). intros s Hs.
  pose proof (sin2_cos2 (2 * PI * r0)) as Ht. unfold Rsqr in Ht.
  generalize dependent (sin (2 * PI * r0)).
  generalize dependent (cos (2 * PI * r0)). intros c sn Ht.
  split; [ring|].
  replace ((- s * sn) * (- s * sn) + s * c * (s * c) + 0 * 0)
    with ((s * s) * (sn * sn + c * c)) by ring.
  rewrite Ht, Hs. field. lra.
Qed.

Lemma createRandomStarInGalaxy_star (galaxy : Galaxy R unknown (Star R unknown))
    rotationMatrix radius draws k star k' :
  isometry rotationMatrix →
  createRandomStarInGalaxy galaxy rotationMatrix (Some radius) draws k = Some (star, k') →
  Star.mass star = 0 ∧ Star.data star = ∅
  ∧ (unit_draws draws → 0 < radius →
     dot (relative_pos galaxy star) (relative_pos galaxy star)
     <= radius ^ 2 + (radius / 5) ^ 2)
  ∧ (0 <= Galaxy.mass galaxy →
     dot (relative_pos galaxy star) (relative_pos galaxy star) ≠ 0 →
     dot (relative_pos galaxy star) (relative_vel galaxy star) = 0
     ∧ dot (relative_vel galaxy star) (relative_vel galaxy star)
       * sqrt (dot (relative_pos galaxy star) (relative_pos galaxy star))
       = Reference.G * Galaxy.mass galaxy).
Proof.
  intros Hrot Hrun.
  pose proof (createRandomStarInGalaxy_local galaxy rotationMatrix radius draws k) as Hloc.
  rewrite Hrun in Hloc. apply (inj Some) in Hloc. apply pair_equal_spec in Hloc as [-> _].
  unfold relative_pos, relative_vel. cbn [Star.mass Star.data Star.pos Star.vel].
  rewrite !vsub_add_cancel, !Hrot.
  split; [apply Q2R_lit_0|]. split; [done|]. split.
  - intros Hd Hrad. apply localPosition_in_disk; [apply Hd|apply Hd|done].
  - apply localVelocity_orbit.
Qed.

Lemma Q2R_lit_4 : Q2R 4 = 4.
Proof. unfold Q2R. cbn. lra. Qed.
Lemma Q2R_lit_3 : Q2R 3 = 3.
Proof. unfold Q2R. cbn. lra. Qed.

Lemma inRange_bounds (min : R) (max : option R) draws i v i' :
  unit_draws draws → min <= range_end min max →
  inRange min max draws i = Some (v, i') → min <= v <= range_end min max.
Proof.
  intros Hd. unfold inRange, range_end. pose proof (Hd i) as Hi.
  destruct max as [max|]; cbn [truthy R_Number].
  - case_bool_decide.
    + intros Hle [= <- _]. nra.
    + intros _ [= <- _]. lra.
  - intros _ [= <- _]. lra.
Qed.

Lemma Zceil_monotone (a b : R) : a <= b → (Zceil a <= Zceil b)%Z.
Proof.
  intros Hab. pose proof (Zceil_bound a) as [Ha _]. pose proof (Zceil_bound b) as [_ Hb].
  assert (IZR (Zceil a) < IZR (Zceil b + 1)) as Hlt by (rewrite plus_IZR; lra).
  apply lt_IZR in Hlt. lia.
Qed.

(** The run of [createRandomGalaxy] up to its loop. *)
Lemma createRandomGalaxy_run (options : GalaxyOptions R) draws i fuel :
  ∃ v o r i1 i2 radius m,
    Vec3.randomCentered (Some (default (lit 4%Q) (maxInitialSpeed options))) draws i
    = Some (v, (i + 3)%nat)
    ∧ Vec3.randomCentered
        (Some (default (lit 1.5%Q) (initialCollisionAvoidanceOffset options)))
        draws (i + 3)%nat
      = Some (o, (i + 3 + 3)%nat)
    ∧ Vec3.random (Some PI) draws (i + 3 + 3)%nat = Some (r, (i + 3 + 3 + 3)%nat)
    ∧ inRange (default (lit 1%Q) (minGalaxyRadius options)) (maxGalaxyRadius options)
        draws i1
      = Some (radius, i2)
    ∧ Matrix3x3.fromEuler (Vec3.x r) (Vec3.y r) (Vec3.z r) = Some m
    ∧ @createRandomGalaxy R unknown _ fuel options draws i
      = populate fuel (lit 0%Q) (starTarget options draws i) m radius
          (Galaxy.Build v
             (Vec3.add
                (Vec3.mul v (Vec3.Num (- default (lit 3%Q) (rewindTimeSteps options))))
                (Vec3.Vec o))
             r (starTarget options draws i) [] ∅)
          draws i2.
Proof.
  unfold createRandomGalaxy.
  set (speed := default (lit 4%Q) (maxInitialSpeed options)).
  destruct (vec3_randomCentered_Some (Some speed) draws i) as [v Hv].
  set (offset := default (lit 1.5%Q) (initialCollisionAvoidanceOffset options)).
  destruct (vec3_randomCentered_Some (Some offset) draws (i + 3)) as [o Ho].
  destruct (vec3_random_Some (Some Math_PI) draws (i + 3 + 3)) as [r Hr].
  destruct (inRange_Some (default (lit 1500%Q) (minStarCount options))
              (maxStarCount options) draws (i + 3 + 3 + 3)) as [i1 Ht].
  destruct (inRange_Some (default (lit 1%Q) (minGalaxyRadius options))
              (maxGalaxyRadius options) draws i1) as [i2 Hrad].
  eexists v, o, r, i1, i2, _, _.
  split; [done|]. split; [done|]. split; [done|]. split; [exact Hrad|].
  split; [unfold Matrix3x3.fromEuler; apply new_rows|].
  unfold mbind, Rand_bind. rewrite Hv, Ho, Hr, Ht, Hrad.
  cbn [try Galaxy.new]. unfold Matrix3x3.fromEuler. rewrite new_rows.
  cbn [try Galaxy.rotation].
  assert (Ht0 : match maxStarCount options with
                | Some max =>
                    if bool_decide (max ≠ 0)
                    then draws (i + 3 + 3 + 3)%nat
                         * (max - default (lit 1500%Q) (minStarCount options))
                         + default (lit 1500%Q) (minStarCount options)
                    else default (lit 1500%Q) (minStarCount options)
                | None => default (lit 1500%Q) (minStarCount options)
                end = starTarget options draws i).
  { unfold starTarget. change (lit 1500%Q : R) with (Q2R 1500).
    rewrite Q2R_lit_1500. by replace (i + 3 + 3 + 3)%nat with (i + 9)%nat by lia. }
  by rewrite Ht0.
Qed.

(** The galaxy [createRandomGalaxy] returns, and what holds of every
    star [createRandomStarInGalaxy] can make for it. *)
Lemma createRandomGalaxy_stars (P : Galaxy R unknown (Star R unknown) → Star R unknown → Prop)
    (options : GalaxyOptions R) draws i fuel :
  (Z.to_nat (Zceil (starTarget options draws i)) ≤ fuel)%nat →
  (∀ g g' s, Galaxy.vel g' = Galaxy.vel g → Galaxy.pos g' = Galaxy.pos g →
             Galaxy.mass g' = Galaxy.mass g → P g s → P g' s) →
  (∀ (g : Galaxy R unknown (Star R unknown)) m radius i1 i2 k star k',
     Galaxy.mass g = starTarget options draws i → 0 < Galaxy.mass g →
     isometry m →
     inRange (default (lit 1%Q) (minGalaxyRadius options)) (maxGalaxyRadius options)
       draws i1 = Some (radius, i2) →
     createRandomStarInGalaxy g m (Some radius) draws k = Some (star, k') →
     P g star) →
  ∃ (g : Galaxy R unknown (Star R unknown)) i',
    createRandomGalaxy fuel options draws i = Some (g, i')
    ∧ Forall (P g) (Galaxy.stars g).
Proof.
  intros Hfuel Hext Hstar.
  destruct (createRandomGalaxy_count (unknown:=unknown) options draws i fuel Hfuel)
    as (g & i' & Hrun & Hlen & Hmass).
  exists g, i'. split; [done|].
  destruct (Rle_dec (starTarget options draws i) 0) as [Hneg|Hpos].
  { assert (Zceil (starTarget options draws i) <= 0)%Z as Hc.
    { rewrite <- (Zceil_integer 0). by apply Zceil_monotone. }
    destruct (Galaxy.stars g); [constructor|]. cbn in Hlen. lia. }
  destruct (createRandomGalaxy_run options draws i fuel)
    as (v & o & r & i1 & i2 & radius & m & _ & _ & _ & Hrad & Hm & Heq).
  rewrite Heq in Hrun.
  set (g0 := Galaxy.Build v _ r _ [] ∅) in Hrun.
  assert (Hstar0 : ∀ (g1 : Galaxy R unknown (Star R unknown)) k star k',
             Galaxy.vel g1 = Galaxy.vel g0 → Galaxy.pos g1 = Galaxy.pos g0 →
             Galaxy.mass g1 = Galaxy.mass g0 →
             createRandomStarInGalaxy g1 m (Some radius) draws k = Some (star, k') →
             P g0 star).
  { intros g1 k star k' Hv1 Hp1 Hm1 Hs.
    apply (Hext g1); [done..|].
    apply (Hstar g1 m radius i1 i2 k star k'); try done.
    - rewrite Hm1. cbn. lra.
    - intros a b. by apply (fromEuler_dot (Vec3.x r) (Vec3.y r) (Vec3.z r)). }
  destruct (populate_invariant (P g0) draws (starTarget options draws i) m radius g0
              Hstar0 fuel (lit 0%Q) g0 i2 g i' eq_refl eq_refl eq_refl
              (Forall_nil_2 _) Hrun)
    as (Hall & Hv' & Hp' & _ & Hm' & _).
  eapply Forall_impl; [exact Hall|]. intros s. by apply Hext.
Qed.

Lemma default_lit_1 (o : option R) : default (lit 1%Q) o = default 1 o.
Proof. destruct o; [done|]. apply Q2R_lit_1. Qed.

(** X19.  Over the reals, with draws in [0, 1), a positive minimal radius
    and a range of radii that is not empty, every star of a generated
    galaxy has mass 0 and an empty data map, and the square of its
    distance from the centre of the galaxy is at most [26/25] times the
    square of the largest radius of the range. *)
Theorem generated_stars_in_disk (options : GalaxyOptions R) draws i fuel :
  let radius := default 1 (minGalaxyRadius options) in
  let top := range_end radius (maxGalaxyRadius options) in
  unit_draws draws → 0 < radius → radius <= top →
  (Z.to_nat (Zceil (starTarget options draws i)) ≤ fuel)%nat →
  ∃ (g : Galaxy R unknown (Star R unknown)) i',
    createRandomGalaxy fuel options draws i = Some (g, i')
    ∧ Forall (λ s, Star.mass s = 0 ∧ Star.data s = ∅
                   ∧ dot (relative_pos g s) (relative_pos g s) <= 26 / 25 * top ^ 2)
        (Galaxy.stars g).
Proof.
  intros radius top Hd Hrad Htop Hfuel.
  apply (createRandomGalaxy_stars
           (λ g s, Star.mass s = 0 ∧ Star.data s = ∅
                   ∧ dot (relative_pos g s) (relative_pos g s) <= 26 / 25 * top ^ 2));
    [done| |].
  - intros g g' s _ Hp _. unfold relative_pos. by rewrite Hp.
  - intros g m rad i1 i2 k star k' _ _ Hm Hin Hs.
    rewrite default_lit_1 in Hin. fold radius in Hin.
    apply inRange_bounds in Hin as [Hlo Hhi]; [|done..]. fold top in Hhi.
    destruct (createRandomStarInGalaxy_star g m rad draws k star k' Hm Hs)
      as (Hmass & Hdata & Hdisk & _).
    split; [done|]. split; [done|].
    specialize (Hdisk Hd). assert (0 < rad) as Hpos by lra. specialize (Hdisk Hpos).
    assert (rad ^ 2 <= top ^ 2) by nra. lra.
Qed.

(** X20.  Over the reals, with draws in [0, 1), a positive minimal radius
    and a range of radii that is not empty, every star of a generated
    galaxy that is not at the centre of the galaxy starts on a circular
    orbit: its velocity relative to the galaxy is perpendicular to its
    position relative to the galaxy, and the square of its relative speed
    times its distance from the centre is [G] times the mass of the
    galaxy. *)
Theorem generated_stars_orbit (options : GalaxyOptions R) draws i fuel :
  let radius := default 1 (minGalaxyRadius options) in
  let top := range_end radius (maxGalaxyRadius options) in
  unit_draws draws → 0 < radius → radius <= top →
  (Z.to_nat (Zceil (starTarget options draws i)) ≤ fuel)%nat →
  ∃ (g : Galaxy R unknown (Star R unknown)) i',
    createRandomGalaxy fuel options draws i = Some (g, i')
    ∧ Forall (λ s, dot (relative_pos g s) (relative_pos g s) ≠ 0 →
                   dot (relative_pos g s) (relative_vel g s) = 0
                   ∧ dot (relative_vel g s) (relative_vel g s)
                     * sqrt (dot (relative_pos g s) (relative_pos g s))
                     = Reference.G * Galaxy.mass g)
        (Galaxy.stars g).
Proof.
  intros radius top Hd Hrad Htop Hfuel.
  apply (createRandomGalaxy_stars
           (λ g s, dot (relative_pos g s) (relative_pos g s) ≠ 0 →
                   dot (relative_pos g s) (relative_vel g s) = 0
                   ∧ dot (relative_vel g s) (relative_vel g s)
                     * sqrt (dot (relative_pos g s) (relative_pos g s))
                     = Reference.G * Galaxy.mass g)); [done| |].
  - intros g g' s Hv Hp Hm. unfold relative_pos, relative_vel. by rewrite Hv, Hp, Hm.
  - intros g m rad i1 i2 k star k' _ Hmass Hm _ Hs.
    destruct (createRandomStarInGalaxy_star g m rad draws k star k' Hm Hs)
      as (_ & _ & _ & Horbit).
    apply Horbit. lra.
Qed.

Lemma createRandomGalaxy_fields (options : GalaxyOptions R) draws i fuel :
  (Z.to_nat (Zceil (starTarget options draws i)) ≤ fuel)%nat →
  ∃ (g : Galaxy R unknown (Star R unknown)) i' v o r i3 i6 i9,
    createRandomGalaxy fuel options draws i = Some (g, i')
    ∧ Vec3.randomCentered (Some (default (lit 4%Q) (maxInitialSpeed options))) draws i
      = Some (v, i3)
    ∧ Vec3.randomCentered
        (Some (default (lit 1.5%Q) (initialCollisionAvoidanceOffset options))) draws i3
      = Some (o, i6)
    ∧ Vec3.random (Some PI) draws i6 = Some (r, i9)
    ∧ Galaxy.vel g = v
    ∧ Galaxy.pos g
      = Vec3.add (Vec3.mul v (Vec3.Num (- default (lit 3%Q) (rewindTimeSteps options))))
          (Vec3.Vec o)
    ∧ Galaxy.rotation g = r ∧ Galaxy.data g = ∅.
Proof.
  intros Hfuel.
  destruct (createRandomGalaxy_count (unknown:=unknown) options draws i fuel Hfuel)
    as (g & i' & Hrun & _).
  destruct (createRandomGalaxy_run options draws i fuel)
    as (v & o & r & i1 & i2 & radius & m & Hv & Ho & Hr & _ & _ & Heq).
  exists g, i', v, o, r. eexists _, _, _.
  split; [done|]. split; [done|]. split; [done|]. split; [done|].
  rewrite Heq in Hrun.
  set (g0 := Galaxy.Build v _ r _ [] ∅) in Hrun.
  destruct (populate_invariant (λ _, True) draws (starTarget options draws i) m radius g0
              (λ _ _ _ _ _ _ _ _, I) fuel (lit 0%Q) g0 i2 g i' eq_refl eq_refl eq_refl
              (Forall_nil_2 _) Hrun)
    as (_ & -> & -> & -> & _ & ->).
  done.
Qed.

(** X21.  Over the reals, with draws in [0, 1), a generated galaxy has
    every component of its velocity in [-speed/2, speed/2]; its position
    moved forward by [rewindTimeSteps] times its velocity has every
    component in [-offset/2, offset/2]; every component of its rotation is
    in [0, PI]; its data map is empty. *)
Theorem createRandomGalaxy_initial_conditions (options : GalaxyOptions R) draws i fuel :
  let speed := default 4 (maxInitialSpeed options) in
  let rewind := default 3 (rewindTimeSteps options) in
  let offset := default 1.5 (initialCollisionAvoidanceOffset options) in
  unit_draws draws → 0 <= speed → 0 <= offset →
  (Z.to_nat (Zceil (starTarget options draws i)) ≤ fuel)%nat →
  ∃ (g : Galaxy R unknown (Star R unknown)) i',
    createRandomGalaxy fuel options draws i = Some (g, i')
    ∧ in_cube (- (speed / 2)) (speed / 2) (Galaxy.vel g)
    ∧ in_cube (- (offset / 2)) (offset / 2)
        (Reference.vadd (Galaxy.pos g) (Reference.scale rewind (Galaxy.vel g)))
    ∧ in_cube 0 PI (Galaxy.rotation g)
    ∧ Galaxy.data g = ∅.
Proof.
  intros speed rewind offset Hd Hspeed Hoffset Hfuel.
  destruct (createRandomGalaxy_fields options draws i fuel Hfuel)
    as (g & i' & v & o & r & i3 & i6 & i9 & Hrun & Hv & Ho & Hr & Hvel & Hpos & Hrot & Hdata).
  exists g, i'. split; [done|]. rewrite Hvel, Hrot.
  assert (Hs4 : default (lit 4%Q) (maxInitialSpeed options) = speed).
  { unfold speed. destruct (maxInitialSpeed options); [done|]. apply Q2R_lit_4. }
  assert (Hr3 : default (lit 3%Q) (rewindTimeSteps options) = rewind).
  { unfold rewind. destruct (rewindTimeSteps options); [done|]. apply Q2R_lit_3. }
  rewrite Hs4 in Hv. rewrite Hr3 in Hpos. fold offset in Ho.
  split; [by apply (randomCentered_in_cube draws speed i v i3)|].
  split; [|split; [|done]].
  - replace (Reference.vadd (Galaxy.pos g) (Reference.scale rewind v)) with o.
    + by apply (randomCentered_in_cube draws offset i3 o i6).
    + rewrite Hpos. destruct v, o. unfold Reference.vadd, Reference.scale. cbn.
      f_equal; ring.
  - apply (random_in_cube draws PI i6 r i9); [done| |done]. left. apply PI_RGT_0.
Qed.

Lemma starTarget_range (options : GalaxyOptions R) draws i :
  let min := default 1500 (minStarCount options) in
  unit_draws draws → min <= range_end min (maxStarCount options) →
  min <= starTarget options draws i <= range_end min (maxStarCount options).
Proof.
  intros min Hd. unfold starTarget, range_end. fold min. pose proof (Hd (i + 9)%nat).
  destruct (maxStarCount options) as [max|]; [case_bool_decide|]; intros; nra.
Qed.

(** X22.  With draws in [0, 1) and [minStarCount] at most the upper end
    of the range, the mass of a generated galaxy lies between
    [minStarCount] and the upper end, and its number of stars between
    their ceilings. *)
Theorem createRandomGalaxy_star_count_range (options : GalaxyOptions R) draws i fuel :
  let min := default 1500 (minStarCount options) in
  let max := range_end min (maxStarCount options) in
  unit_draws draws → min <= max → (Z.to_nat (Zceil max) ≤ fuel)%nat →
  ∃ (g : Galaxy R unknown (Star R unknown)) i',
    createRandomGalaxy fuel options draws i = Some (g, i')
    ∧ min <= Galaxy.mass g <= max
    ∧ (Z.to_nat (Zceil min) ≤ length (Galaxy.stars g) ≤ Z.to_nat (Zceil max))%nat.
Proof.
  intros min max Hd Hle Hfuel.
  destruct (starTarget_range options draws i Hd Hle) as [Hlo Hhi].
  fold min in Hlo. fold min max in Hhi.
  pose proof (Zceil_monotone _ _ Hlo). pose proof (Zceil_monotone _ _ Hhi).
  destruct (createRandomGalaxy_count (unknown:=unknown) options draws i fuel)
    as (g & i' & Hrun & Hlen & Hmass); [lia|].
  exists g, i'. rewrite Hlen, Hmass. split; [done|]. split; [done|]. lia.
Qed.

End RealGeneratorFurther.


(** * Concrete instances *)

Section Instances.
Local Open Scope R_scope.

(** With [minStarCount: 2], [maxStarCount: 3] and every draw equal to
    [0.5], the target is [2.5] and the galaxy has three stars. *)
Lemma star_count_not_truncated :
  ∃ (g : Galaxy R string (Star R string)) i',
    createRandomGalaxy 3%nat
      (mkGalaxyOptions (Some 2) (Some 3) None None None None None) (λ _, 0.5) 0%nat
    = Some (g, i')
    ∧ Galaxy.mass g = 2.5
    ∧ length (Galaxy.stars g) = 3%nat
    ∧ Z.of_nat (length (Galaxy.stars g)) ≠ Zfloor (Galaxy.mass g).
Proof.
  set (options := mkGalaxyOptions (Some 2) (Some 3) None None None None None).
  assert (Ht : starTarget options (λ _, 0.5) 0%nat = 2.5).
  { unfold starTarget, options. cbn [minStarCount maxStarCount default from_option Datatypes.id].
    rewrite bool_decide_true by lra. lra. }
  assert (Hceil : Zceil 2.5 = 3%Z) by (apply Zceil_eq; lra).
  assert (Hfloor : Zfloor 2.5 = 2%Z) by (apply Zfloor_eq; lra).
  destruct (createRandomGalaxy_count (unknown := string) options (λ _, 0.5) 0%nat 3%nat)
    as (g & i' & Hrun & Hlen & Hmass).
  { rewrite Ht, Hceil. lia. }
  rewrite Ht in Hlen, Hmass. rewrite Hceil in Hlen.
  exists g, i'. rewrite Hmass, Hlen, Hfloor. repeat split; try done.
Qed.


Lemma updateGalaxies_refines_reference_witness :
  ∃ h', @updateGalaxies _ string checked [0; 1]%nat
          (defined_heap (two_galaxies_two_stars 5))
        = Some (defined_heap h')
        ∧ updateGalaxies [0; 1]%nat (two_galaxies_two_stars 5) = Some h'
        ∧ snapshot [0; 1]%nat h'
          = Some (Reference.updateGalaxies
                    [ Galaxy.Build (Vec3.new 0 0 0) (Vec3.new (-1) 0 0) (Vec3.new 0 0 0)
                        100 [star_at 1; star_at 5] ∅;
                      Galaxy.Build (Vec3.new 0 0 0) (Vec3.new 1 0 0) (Vec3.new 0 0 0)
                        100 [] ∅ ]).
Proof.
  apply (updateGalaxies_refines_reference (two_galaxies_two_stars 5) [0; 1]%nat).
  - reflexivity.
  - split; apply (bool_decide_unpack (NoDup _)); vm_compute; exact I.
Defined.

Lemma two_body_step_witness :
  ∃ h', updateGalaxies [0; 1]%nat two_galaxies = Some h'
        ∧ snapshot [0; 1]%nat h'
          = Some [ Galaxy.Build (Vec3.new 0.000125 0 0)
                     (Vec3.new (-1 + 0.000000625) 0 0) (Vec3.new 0 0 0) 100 [] ∅;
                   Galaxy.Build (Vec3.new (-0.000125) 0 0)
                     (Vec3.new (1 - 0.000000625) 0 0) (Vec3.new 0 0 0) 100 [] ∅ ].
Proof.
  apply (two_body_step two_galaxies 0%nat 1%nat).
  - lia.
  - reflexivity.
Defined.

Lemma createRandomGalaxy_star_count_witness :
  ∃ (g : Galaxy R string (Star R string)) i',
    createRandomGalaxy 3%nat
      (mkGalaxyOptions (Some 3) (Some 3) None None None None None) (λ _, 0.5) 0%nat
    = Some (g, i')
    ∧ length (Galaxy.stars g) = 3%nat.
Proof.
  set (options := mkGalaxyOptions (Some 3) (Some 3) None None None None None).
  destruct (createRandomGalaxy_star_count (unknown := string) options (λ _, 0.5) 0%nat 3%nat)
    as (g & i' & Hrun & _ & _ & HN).
  - unfold starTarget, options.
    cbn [minStarCount maxStarCount default from_option Datatypes.id].
    rewrite bool_decide_true by lra.
    replace (0.5 * (3 - 3) + 3) with (IZR 3) by lra. rewrite Zceil_integer. lia.
  - exists g, i'. split; [exact Hrun|]. apply (HN 3%Z); [lia|reflexivity|reflexivity].
Defined.

Lemma star_independent_of_other_stars_witness :
  ∃ h1' h2' s1' s2',
    updateGalaxies [0; 1]%nat (two_galaxies_two_stars 5) = Some h1'
    ∧ updateGalaxies [0; 1]%nat (two_galaxies_two_stars 7) = Some h2'
    ∧ heap_stars h1' !! 2%nat = Some s1' ∧ heap_stars h2' !! 2%nat = Some s2'
    ∧ same_motion s1' s2'.
Proof.
  apply (star_independent_of_other_stars (two_galaxies_two_stars 5)
           (two_galaxies_two_stars 7) [0; 1]%nat 2%nat (star_at 1) (star_at 1)).
  - eexists. reflexivity.
  - eexists. reflexivity.
  - intros r _. cbn [heap_galaxies two_galaxies_two_stars].
    destruct (_ !! r); constructor. by repeat split.
  - reflexivity.
  - reflexivity.
  - by split.
Defined.

Lemma zero_distance_skip_witness :
  ∃ h', @updateStar float string binary64_arith [0; 1]%nat 2%nat coincident_star64 = Some h'
        ∧ @updateStar float string binary64_arith [0]%nat 2%nat coincident_star64 = Some h'.
Proof.
  destruct (zero_distance_skip (λ _, nan) (λ _, nan) (λ _, nan) (λ _, nan) (λ _ _, nan)
              coincident_star64 [0; 1]%nat [galaxy64 (-1)%float; galaxy64 1%float]
              1%nat 1%nat (galaxy64 1%float))
    as (_ & Hstar & _).
  - repeat constructor.
  - reflexivity.
  - reflexivity.
  - apply (Hstar 2%nat
             (Star.Build (Vec3.new 1 0 0)%float (Vec3.new 0 0 0)%float 0%float ∅));
      [reflexivity|vm_compute; reflexivity].
Defined.

Lemma zero_max_is_absent_witness :
  ∃ (g : Galaxy R string (Star R string)) i',
    createRandomGalaxy 2%nat
      (mkGalaxyOptions (Some (INR 2)) (Some 0) None None None None None) (λ _, 0.5) 0%nat
    = Some (g, i')
    ∧ length (Galaxy.stars g) = 2%nat ∧ Galaxy.mass g = INR 2.
Proof.
  destruct (zero_max_is_absent (unknown := string) None None None None None None None
              2%nat 2%nat 0%nat (λ _, 0.5)) as (_ & _ & _ & Hstars).
  - lia.
  - exact Hstars.
Defined.

Lemma updateGalaxies_frame_witness :
  ∃ h', updateGalaxies [0; 1]%nat (two_galaxies_two_stars 5) = Some h'
        ∧ (∀ r, option_Forall2 galaxy_frame
                  (heap_galaxies (two_galaxies_two_stars 5) !! r) (heap_galaxies h' !! r))
        ∧ (∀ s, option_Forall2 star_frame
                  (heap_stars (two_galaxies_two_stars 5) !! s) (heap_stars h' !! s)).
Proof.
  apply (updateGalaxies_frame (two_galaxies_two_stars 5) [0; 1]%nat).
  eexists. reflexivity.
Defined.

End Instances.

(** ** The code in double precision against the real-number statements *)

Section ReferenceInDoubles.
Local Open Scope R_scope.

(** The reference definition for one galaxy at the origin and one star
    at rest at [(1/2^n, 0, 0)]. *)
Lemma reference_near_star (n : nat) :
  Reference.updateGalaxies [near_star (/ 2 ^ n)]
  = [ Galaxy.Build (Vec3.new 0 0 0) (Vec3.new 0 0 0) (Vec3.new 0 0 0) 100
        [ Star.Build (Vec3.new (/ 2 ^ n - 0.005 * (0.0005 * (2 ^ n * 2 ^ n))) 0 0)
            (Vec3.new (- (0.0005 * (2 ^ n * 2 ^ n))) 0 0) 0 ∅ ] ∅ ].
Proof.
  assert (Hp : 0 < 2 ^ n) by (apply pow_lt; lra).
  assert (Hi : 0 < / 2 ^ n) by by apply Rinv_0_lt_compat.
  unfold Reference.updateGalaxies, near_star. cbn [imap].
  unfold Reference.galaxy_step, Reference.star_step, Reference.pull.
  cbn [Galaxy.pos Galaxy.vel Galaxy.mass Galaxy.stars Galaxy.rotation Galaxy.data
       Star.pos Star.vel Star.mass Star.data delete list_delete fmap list_fmap].
  assert (Hn : Reference.norm (Reference.vsub (Vec3.new 0 0 0) (Vec3.new (/ 2 ^ n) 0 0))
               = / 2 ^ n).
  { unfold Reference.norm, Reference.vsub. cbn.
    replace ((0 - / 2 ^ n) * (0 - / 2 ^ n) + (0 - 0) * (0 - 0) + (0 - 0) * (0 - 0))
      with (/ 2 ^ n * / 2 ^ n) by ring.
    apply sqrt_square. lra. }
  rewrite Hn. generalize dependent (2 ^ n). intros p Hp Hi _.
  unfold Reference.vsum, Reference.vadd, Reference.scale, Reference.vsub,
    Reference.G, Reference.dt. cbn.
  assert (Hk : 0.001 * 100 / (/ p * (/ p * (/ p * 1))) * (0 - / p) = - (0.001 * 100 * (p * p))).
  { generalize (0.001 * 100). intros c. field. lra. }
  rewrite Hk. generalize (p * p). intros q.
  f_equal. f_equal.
  - f_equal; lra.
  - f_equal; lra.
  - f_equal. f_equal; f_equal; lra.
Qed.

(** In double precision [updateGalaxies] does not compute the reference
    definition of C1 where an intermediate product underflows.  With the
    star at [2^-365] on the x axis, [dist * distSq] is [2^-1095], which
    is zero in doubles: the code leaves a velocity that is not finite,
    where the reference gives the velocity [(-0.0005 * 2^730, 0, 0)].
    With the star at [2^-600], [distSq] is zero in doubles: the code
    skips the galaxy and leaves the star at rest, where the reference
    gives the velocity [(-0.0005 * 2^1200, 0, 0)]. *)
Lemma reference_not_met_in_doubles :
  (Prim2SF 0x1p-365 = S754_finite false 4503599627370496 (-417)
   ∧ Prim2SF 0x1p-600 = S754_finite false 4503599627370496 (-652))
  ∧ (h ← @updateGalaxies float string binary64_arith [0%nat] (near_star64 0x1p-365);
     s ← read_star 1%nat h;
     Some (PrimFloat.is_infinity (Vec3.x (Star.vel s)), PrimFloat.is_nan (Vec3.y (Star.vel s)),
           PrimFloat.is_nan (Vec3.y (Star.pos s))))
    = Some (true, true, true)
  ∧ (h ← @updateGalaxies float string binary64_arith [0%nat] (near_star64 0x1p-600);
     s ← read_star 1%nat h;
     Some (Star.vel s, Star.pos s))
    = Some (Vec3.new 0 0 0, Vec3.new 0x1p-600 0 0)%float
  ∧ (∀ n : nat,
       (λ g, (λ s, (Star.vel s, Vec3.y (Star.pos s))) <$> Galaxy.stars g)
         <$> Reference.updateGalaxies [near_star (/ 2 ^ n)]
       = [[(Vec3.new (- (0.0005 * (2 ^ n * 2 ^ n))) 0 0, 0)]]).
Proof.
  split; [split; vm_compute; reflexivity|].
  split; [vm_compute; reflexivity|]. split; [vm_compute; reflexivity|].
  intros n. by rewrite reference_near_star.
Qed.
End ReferenceInDoubles.

Section MatricesInDoubles.

Lemma mul_zero_finite (s : float) :
  finite_float s = true →
  PrimFloat.mul 0 s = 0%float ∨ PrimFloat.mul 0 s = (-0)%float.
Proof.
  unfold finite_float. intros Hfin.
  assert (H : Prim2SF (PrimFloat.mul 0 s) = S754_zero false
              ∨ Prim2SF (PrimFloat.mul 0 s) = S754_zero true).
  { rewrite FloatAxioms.mul_spec. change (Prim2SF 0) with (S754_zero false).
    destruct (Prim2SF s) as [[|]| | |[|] m e]; try done; cbn; auto. }
  destruct H as [H|H]; [left|right]; by apply Prim2SF_inj.
Qed.

(** In double precision the product of the three rotations about the
    axes is not the matrix of [fromEuler], as C5 has it: [fromAxisAngle]
    computes the entry on the diagonal along its axis as [(1 - c) + c],
    which is not 1 for the double [c] nearest to [cos 2.4].  Stated for
    every implementation of [Math.sin] and [Math.cos] that is exact at
    [0], returns that double at [2.4] and a finite sine there. *)
Lemma composition_differs_in_doubles :
  (1 - -0x1.798bab490d185p-1 + -0x1.798bab490d185p-1 =? 1)%float = false
  ∧ ∀ (fsin fcos fexp fasin : float → float) (fatan2 : float → float → float),
      let D := binary64 fsin fcos fexp fasin fatan2 in
      fcos 0%float = 1%float → fsin 0%float = 0%float →
      fcos 0x1.3333333333333p+1%float = (-0x1.798bab490d185p-1)%float →
      finite_float (fsin 0x1.3333333333333p+1%float) = true →
      (m ← @Matrix3x3.fromEuler _ D 0%float 0%float 0x1.3333333333333p+1%float;
       Some (@Matrix3x3.get _ D m 2 2))
      = Some 1%float
      ∧ (rz ← @Matrix3x3.fromAxisAngle _ D (Vec3.new 0 0 1)%float 0x1.3333333333333p+1%float;
         ry ← @Matrix3x3.fromAxisAngle _ D (Vec3.new 0 1 0)%float 0%float;
         rx ← @Matrix3x3.fromAxisAngle _ D (Vec3.new 1 0 0)%float 0%float;
         zy ← @Matrix3x3.mul _ D rz ry;
         m ← @Matrix3x3.mul _ D zy rx;
         Some (@Matrix3x3.get _ D m 2 2))
        = Some 0x1.fffffffffffffp-1%float.
Proof.
  split; [vm_compute; reflexivity|].
  intros fsin fcos fexp fasin fatan2 D Hc0 Hs0 Hc Hs. split.
  - unfold Matrix3x3.fromEuler. rewrite (@new_rows _ D). cbn [mbind option_bind].
    unfold Matrix3x3.get. cbn [Matrix3x3.data]. subst D.
    cbn [Math_cos binary64 nmul]. rewrite Hc0. vm_compute. reflexivity.
  - unfold Matrix3x3.fromAxisAngle. rewrite !(@new_rows _ D). cbn [mbind option_bind].
    subst D. cbn [Vec3.x Vec3.y Vec3.z Math_cos Math_sin binary64 nmul nadd nsub lit].
    rewrite Hc0, Hs0, Hc.
    destruct (mul_zero_finite _ Hs) as [Hz|Hz]; rewrite !Hz; vm_compute; reflexivity.
Qed.

Lemma float_neq (x y : float) : Prim2SF x ≠ Prim2SF y → x ≠ y.
Proof. intros Hne ->. by apply Hne. Qed.

(** In double precision [toEuler] cannot return the second angle of
    [fromEuler] for all angles of the domain of C6: it returns
    [asin (sin y)], and the sines of the three doubles that follow [1.5]
    lie strictly between the same two neighbouring doubles, so that a
    sine with an error below one unit in the last place takes one value
    twice on them, and no arc sine returns both angles for it. *)
Lemma toEuler_not_exact_in_doubles :
  ((0x1.8000000000001p+0 <? 0x1.8000000000002p+0)
   && (0x1.8000000000002p+0 <? 0x1.8000000000003p+0)
   && (0x1.8000000000003p+0 <? 0x1.921fb54442d18p+0))%float = true
  ∧ ∀ (fsin fcos fexp fasin : float → float) (fatan2 : float → float → float),
      let D := binary64 fsin fcos fexp fasin fatan2 in
      (∀ y, y ∈ [0x1.8000000000001p+0; 0x1.8000000000002p+0; 0x1.8000000000003p+0]%float →
            fsin y = 0x1.feb7a9b2c6d8bp-1%float ∨ fsin y = 0x1.feb7a9b2c6d8cp-1%float) →
      ¬ ∀ y, y ∈ [0x1.8000000000001p+0; 0x1.8000000000002p+0; 0x1.8000000000003p+0]%float →
             (m ← @Matrix3x3.fromEuler _ D 0%float y 0%float;
              Some (Vec3.y (@Matrix3x3.toEuler _ D m)))
             = Some y.
Proof.
  split; [vm_compute; reflexivity|].
  intros fsin fcos fexp fasin fatan2 D Hsin Hall.
  assert (Hback : ∀ y, y ∈ [0x1.8000000000001p+0; 0x1.8000000000002p+0;
                            0x1.8000000000003p+0]%float →
                       ∃ v, (v = 0x1.feb7a9b2c6d8bp-1%float ∨ v = 0x1.feb7a9b2c6d8cp-1%float)
                            ∧ fasin v = y).
  { intros y Hy. specialize (Hall y Hy). specialize (Hsin y Hy).
    unfold Matrix3x3.fromEuler in Hall. rewrite (@new_rows _ D) in Hall.
    cbn [mbind option_bind] in Hall. unfold Matrix3x3.toEuler, Matrix3x3.get in Hall.
    cbn [Matrix3x3.data Vec3.y lookup_total list_lookup_total] in Hall.
    subst D. cbn [Math_asin Math_sin nneg binary64] in Hall.
    injection Hall as Hall. exists (fsin y). split; [done|].
    rewrite <- Hall at 2. destruct Hsin as [->| ->]; reflexivity. }
  destruct (Hback 0x1.8000000000001p+0%float) as (va & Hva & Ha); [set_unfold; auto|].
  destruct (Hback 0x1.8000000000002p+0%float) as (vb & Hvb & Hb); [set_unfold; auto|].
  destruct (Hback 0x1.8000000000003p+0%float) as (vc & Hvc & Hc); [set_unfold; auto|].
  assert (Hab : 0x1.8000000000001p+0%float ≠ 0x1.8000000000002p+0%float)
    by (apply float_neq; vm_compute; discriminate).
  assert (Hbc : 0x1.8000000000002p+0%float ≠ 0x1.8000000000003p+0%float)
    by (apply float_neq; vm_compute; discriminate).
  assert (Hac : 0x1.8000000000001p+0%float ≠ 0x1.8000000000003p+0%float)
    by (apply float_neq; vm_compute; discriminate).
  destruct Hva as [Hva|Hva], Hvb as [Hvb|Hvb], Hvc as [Hvc|Hvc]; congruence.
Qed.
End MatricesInDoubles.

(** ** Instances of the further properties *)

Section FurtherInstances.
Local Open Scope R_scope.

Lemma unit_draws_half : unit_draws (λ _, 0.5).
Proof. intros _. lra. Qed.

Lemma magnitude_3_4 : Vec3.magnitude (Vec3.new 3 4 0) = 5.
Proof.
  unfold Vec3.magnitude. cbn -[pow].
  replace (3 ^ 2 + 4 ^ 2 + 0 ^ 2) with (5 * 5) by ring. apply sqrt_square. lra.
Qed.

Lemma magnitude_unit_axis : Vec3.magnitude (Vec3.new (3 / 5) (4 / 5) 0) = 1.
Proof.
  unfold Vec3.magnitude. cbn -[pow].
  replace ((3 / 5) ^ 2 + (4 / 5) ^ 2 + 0 ^ 2) with 1 by field. apply sqrt_1.
Qed.

Lemma mul_div_round_trip_witness :
  Vec3.div (Vec3.mul (Vec3.new 1 2 3) (Vec3.Num 2)) (Vec3.Num 2) = Vec3.new 1 2 3
  ∧ Vec3.mul (Vec3.div (Vec3.new 1 2 3) (Vec3.Num 2)) (Vec3.Num 2) = Vec3.new 1 2 3.
Proof.
  apply (mul_div_round_trip (Vec3.new 1 2 3) (Vec3.Num 2)).
  cbn. lra.
Defined.

Lemma normalize_unit_witness :
  Vec3.magnitude (Vec3.normalize (Vec3.new 3 4 0)) = 1.
Proof.
  apply (normalize_unit (Vec3.new 3 4 0)).
  rewrite magnitude_3_4. lra.
Defined.

Lemma random_vectors_in_range_witness :
  (∃ v, Vec3.random (Some 2) (λ _, 0.5) 0%nat = Some (v, 3%nat) ∧ in_cube 0 2 v)
  ∧ (∃ v, Vec3.randomCentered (Some 2) (λ _, 0.5) 0%nat = Some (v, 3%nat)
          ∧ in_cube (- (2 / 2)) (2 / 2) v)
  ∧ Vec3.random None (λ _, 0.5) 0%nat = Vec3.random (Some 1) (λ _, 0.5) 0%nat
  ∧ Vec3.randomCentered None (λ _, 0.5) 0%nat
    = Vec3.randomCentered (Some 1) (λ _, 0.5) 0%nat.
Proof.
  apply (random_vectors_in_range (λ _, 0.5) 2 0%nat).
  - exact unit_draws_half.
  - lra.
Defined.

Lemma identity_neutral_witness :
  ∃ i m, Matrix3x3.identity = Some i
         ∧ Matrix3x3.new [ [1; 2; 3]; [4; 5; 6]; [7; 8; 9] ] = Some m
         ∧ Matrix3x3.transform i (Vec3.new 1 2 3) = Vec3.new 1 2 3
         ∧ Matrix3x3.mul i m = Some m ∧ Matrix3x3.mul m i = Some m.
Proof.
  apply (identity_neutral [ [1; 2; 3]; [4; 5; 6]; [7; 8; 9] ] (Vec3.new 1 2 3)).
  split; [reflexivity|]. repeat constructor.
Defined.

Lemma fromAxisAngle_is_rotation_witness :
  ∃ m, Matrix3x3.fromAxisAngle (Vec3.new (3 / 5) (4 / 5) 0) 1 = Some m
       ∧ dot (Matrix3x3.transform m (Vec3.new 1 2 3)) (Matrix3x3.transform m (Vec3.new 4 5 6))
         = dot (Vec3.new 1 2 3) (Vec3.new 4 5 6)
       ∧ Vec3.magnitude (Matrix3x3.transform m (Vec3.new 4 5 6))
         = Vec3.magnitude (Vec3.new 4 5 6)
       ∧ Matrix3x3.transform m (Vec3.new (3 / 5) (4 / 5) 0) = Vec3.new (3 / 5) (4 / 5) 0.
Proof.
  apply (fromAxisAngle_is_rotation (Vec3.new (3 / 5) (4 / 5) 0) 1
           (Vec3.new 1 2 3) (Vec3.new 4 5 6)).
  exact magnitude_unit_axis.
Defined.

Lemma same_axis_angles_add_witness :
  (ma ← Matrix3x3.fromAxisAngle (Vec3.new (3 / 5) (4 / 5) 0) 1;
   mb ← Matrix3x3.fromAxisAngle (Vec3.new (3 / 5) (4 / 5) 0) 2;
   Matrix3x3.mul ma mb)
  = Matrix3x3.fromAxisAngle (Vec3.new (3 / 5) (4 / 5) 0) (1 + 2).
Proof.
  apply (same_axis_angles_add (Vec3.new (3 / 5) (4 / 5) 0) 1 2).
  exact magnitude_unit_axis.
Defined.


Lemma allStars_visits_in_order_witness :
  allStars [0; 1]%nat (λ _ _ _ h, Some h) (two_galaxies_two_stars 5)
  = for_of (visits [0; 1]%nat (two_galaxies_two_stars 5))
      (λ v, (λ _ _ _ h, Some h) v.1.1 v.1.2 v.2) (two_galaxies_two_stars 5)
  ∧ starCount [0; 1]%nat (two_galaxies_two_stars 5)
    = Some (length (visits [0; 1]%nat (two_galaxies_two_stars 5))).
Proof.
  apply (allStars_visits_in_order (λ _ _ _ h, Some h) [0; 1]%nat (two_galaxies_two_stars 5)).
  - intros _ _ _ h h' Heq. by injection Heq as <-.
  - repeat constructor; eexists; reflexivity.
Defined.

Lemma galaxies_independent_of_stars_witness :
  ∃ h1' h2', updateGalaxies [0; 1]%nat (two_galaxies_two_stars 5) = Some h1'
             ∧ updateGalaxies [0; 1]%nat (two_galaxies_two_stars 7) = Some h2'
             ∧ heap_galaxies h1' = heap_galaxies h2'.
Proof.
  apply (galaxies_independent_of_stars (two_galaxies_two_stars 5)
           (two_galaxies_two_stars 7) [0; 1]%nat).
  - eexists. reflexivity.
  - eexists. reflexivity.
  - reflexivity.
Defined.

Lemma frames_never_fail_witness :
  ∃ h', frames 1000 [0; 1]%nat (two_galaxies_two_stars 5) = Some h'
        ∧ is_Some (snapshot [0; 1]%nat h')
        ∧ star_refs [0; 1]%nat h' = star_refs [0; 1]%nat (two_galaxies_two_stars 5)
        ∧ (owned [0; 1]%nat (two_galaxies_two_stars 5) → owned [0; 1]%nat h').
Proof.
  apply (frames_never_fail 1000 (two_galaxies_two_stars 5) [0; 1]%nat).
  eexists. reflexivity.
Defined.

Lemma momentum_conserved_witness :
  ∃ h' gs', frames 1000 [0; 1]%nat (two_galaxies_two_stars 5) = Some h'
            ∧ snapshot [0; 1]%nat h' = Some gs'
            ∧ momentum gs' = Vec3.new 0 0 0.
Proof.
  destruct (momentum_conserved 1000 (two_galaxies_two_stars 5) [0; 1]%nat
              [ Galaxy.Build (Vec3.new 0 0 0) (Vec3.new (-1) 0 0) (Vec3.new 0 0 0)
                  100 [star_at 1; star_at 5] ∅;
                Galaxy.Build (Vec3.new 0 0 0) (Vec3.new 1 0 0) (Vec3.new 0 0 0)
                  100 [] ∅ ])
    as (h' & gs' & Hrun & Hsnap & Hp).
  - reflexivity.
  - apply (bool_decide_unpack (NoDup _)). vm_compute. exact I.
  - exists h', gs'. split; [exact Hrun|]. split; [exact Hsnap|].
    rewrite Hp. unfold momentum, Reference.vsum, Reference.vadd, Reference.scale. cbn.
    f_equal; ring.
Defined.

Lemma lone_galaxy_uniform_motion_witness :
  ∃ h', frames 200 [0]%nat one_galaxy = Some h'
        ∧ read_galaxy 0%nat h'
          = Some (Galaxy.set_pos
                    (Reference.vadd (Vec3.new 4 5 6)
                       (Reference.scale (INR 200 * Reference.dt) (Vec3.new 1 2 3)))
                    drifting_galaxy).
Proof.
  apply (lone_galaxy_uniform_motion 200 one_galaxy 0%nat drifting_galaxy).
  - reflexivity.
  - eexists. reflexivity.
Defined.

Lemma generated_stars_in_disk_witness :
  ∃ (g : Galaxy R string (Star R string)) i',
    createRandomGalaxy 3%nat
      (mkGalaxyOptions (Some 2) (Some 3) (Some 1) (Some 2) None None None) (λ _, 0.5) 0%nat
    = Some (g, i')
    ∧ Forall (λ s, Star.mass s = 0 ∧ Star.data s = ∅
                   ∧ dot (relative_pos g s) (relative_pos g s) <= 26 / 25 * 2 ^ 2)
        (Galaxy.stars g).
Proof.
  set (options := mkGalaxyOptions (Some 2) (Some 3) (Some 1) (Some 2) None None None).
  assert (Ht : starTarget options (λ _, 0.5) 0%nat = 2.5).
  { unfold starTarget, options. cbn [minStarCount maxStarCount default from_option Datatypes.id].
    rewrite bool_decide_true by lra. lra. }
  assert (Hceil : Zceil 2.5 = 3%Z) by (apply Zceil_eq; lra).
  assert (Htop : range_end 1 (Some 2) = 2).
  { unfold range_end. rewrite bool_decide_true by lra. done. }
  rewrite <- Htop.
  apply (generated_stars_in_disk (unknown := string) options (λ _, 0.5) 0%nat 3%nat).
  - exact unit_draws_half.
  - cbn. lra.
  - cbn [options minGalaxyRadius maxGalaxyRadius default from_option Datatypes.id].
    rewrite Htop. lra.
  - rewrite Ht, Hceil. lia.
Defined.

Lemma generated_stars_orbit_witness :
  ∃ (g : Galaxy R string (Star R string)) i',
    createRandomGalaxy 3%nat
      (mkGalaxyOptions (Some 2) (Some 3) (Some 1) (Some 2) None None None) (λ _, 0.5) 0%nat
    = Some (g, i')
    ∧ Forall (λ s, dot (relative_pos g s) (relative_pos g s) ≠ 0 →
                   dot (relative_pos g s) (relative_vel g s) = 0
                   ∧ dot (relative_vel g s) (relative_vel g s)
                     * sqrt (dot (relative_pos g s) (relative_pos g s))
                     = Reference.G * Galaxy.mass g)
        (Galaxy.stars g).
Proof.
  set (options := mkGalaxyOptions (Some 2) (Some 3) (Some 1) (Some 2) None None None).
  assert (Ht : starTarget options (λ _, 0.5) 0%nat = 2.5).
  { unfold starTarget, options. cbn [minStarCount maxStarCount default from_option Datatypes.id].
    rewrite bool_decide_true by lra. lra. }
  assert (Hceil : Zceil 2.5 = 3%Z) by (apply Zceil_eq; lra).
  assert (Htop : range_end 1 (Some 2) = 2).
  { unfold range_end. rewrite bool_decide_true by lra. done. }
  apply (generated_stars_orbit (unknown := string) options (λ _, 0.5) 0%nat 3%nat).
  - exact unit_draws_half.
  - cbn. lra.
  - cbn [options minGalaxyRadius maxGalaxyRadius default from_option Datatypes.id].
    rewrite Htop. lra.
  - rewrite Ht, Hceil. lia.
Defined.

Lemma createRandomGalaxy_initial_conditions_witness :
  ∃ (g : Galaxy R string (Star R string)) i',
    createRandomGalaxy 3%nat
      (mkGalaxyOptions (Some 2) (Some 3) None None None None None) (λ _, 0.5) 0%nat
    = Some (g, i')
    ∧ in_cube (- (4 / 2)) (4 / 2) (Galaxy.vel g)
    ∧ in_cube (- (1.5 / 2)) (1.5 / 2)
        (Reference.vadd (Galaxy.pos g) (Reference.scale 3 (Galaxy.vel g)))
    ∧ in_cube 0 PI (Galaxy.rotation g)
    ∧ Galaxy.data g = ∅.
Proof.
  set (options := mkGalaxyOptions (Some 2) (Some 3) None None None None None).
  assert (Ht : starTarget options (λ _, 0.5) 0%nat = 2.5).
  { unfold starTarget, options. cbn [minStarCount maxStarCount default from_option Datatypes.id].
    rewrite bool_decide_true by lra. lra. }
  assert (Hceil : Zceil 2.5 = 3%Z) by (apply Zceil_eq; lra).
  apply (createRandomGalaxy_initial_conditions (unknown := string) options
           (λ _, 0.5) 0%nat 3%nat).
  - exact unit_draws_half.
  - cbn. lra.
  - cbn. lra.
  - rewrite Ht, Hceil. lia.
Defined.

Lemma createRandomGalaxy_star_count_range_witness :
  ∃ (g : Galaxy R string (Star R string)) i',
    createRandomGalaxy 3%nat
      (mkGalaxyOptions (Some 2) (Some 3) None None None None None) (λ _, 0.5) 0%nat
    = Some (g, i')
    ∧ 2 <= Galaxy.mass g <= 3
    ∧ (2 ≤ length (Galaxy.stars g) ≤ 3)%nat.
Proof.
  set (options := mkGalaxyOptions (Some 2) (Some 3) None None None None None).
  assert (Htop : range_end 2 (Some 3) = 3).
  { unfold range_end. rewrite bool_decide_true by lra. done. }
  assert (Hc2 : Z.to_nat (Zceil 2) = 2%nat) by (rewrite Zceil_integer; lia).
  assert (Hc3 : Z.to_nat (Zceil 3) = 3%nat) by (rewrite Zceil_integer; lia).
  destruct (createRandomGalaxy_star_count_range (unknown := string) options
              (λ _, 0.5) 0%nat 3%nat) as (g & i' & Hrun & Hmass & Hlen).
  - exact unit_draws_half.
  - cbn [options minStarCount maxStarCount default from_option Datatypes.id].
    rewrite Htop. lra.
  - cbn [options minStarCount maxStarCount default from_option Datatypes.id].
    rewrite Htop, Hc3. lia.
  - cbn [options minStarCount maxStarCount default from_option Datatypes.id] in Hmass, Hlen.
    rewrite Htop in Hmass, Hlen. rewrite Hc2, Hc3 in Hlen.
    exists g, i'. split; [exact Hrun|]. split; [exact Hmass|exact Hlen].
Defined.

Lemma galaxy_order_irrelevant_witness :
  ∃ h', updateGalaxies [0; 1]%nat (two_galaxies_two_stars 5) = Some h'
        ∧ updateGalaxies [1; 0]%nat (two_galaxies_two_stars 5) = Some h'.
Proof.
  apply (galaxy_order_irrelevant (two_galaxies_two_stars 5) [0; 1]%nat [1; 0]%nat).
  - apply perm_swap.
  - eexists. reflexivity.
Defined.

Lemma inverse_square_law_witness :
  ∃ k, accumulate (Vec3.new 0 0 0) (Vec3.new 2 0 0) 100 (Vec3.new 0 0 0)
       = Reference.vadd (Vec3.new 0 0 0)
           (Reference.scale k (Reference.vsub (Vec3.new 2 0 0) (Vec3.new 0 0 0)))
       ∧ 0 <= k
       ∧ Reference.norm (Reference.scale k (Reference.vsub (Vec3.new 2 0 0) (Vec3.new 0 0 0)))
         * Reference.norm (Reference.vsub (Vec3.new 2 0 0) (Vec3.new 0 0 0)) ^ 2
         = Reference.G * 100.
Proof.
  apply (inverse_square_law (Vec3.new 0 0 0) (Vec3.new 2 0 0) 100 (Vec3.new 0 0 0)).
  - lra.
  - intros Heq. injection Heq as Heq. lra.
Defined.

End FurtherInstances.

(** ** The code evaluated in double precision *)

Section Binary64.
Variables (fsin fcos fexp fasin : float → float) (fatan2 : float → float → float).
#[local] Set Warnings "-inexact-float".

(** The literals of the source denote the doubles JavaScript reads. *)
Example binary64_literals :
  @lit float (binary64 fsin fcos fexp fasin fatan2) 0.005%Q = 0.005%float
  ∧ @lit float (binary64 fsin fcos fexp fasin fatan2) 0.001%Q = 0.001%float
  ∧ @lit float (binary64 fsin fcos fexp fasin fatan2) 1.5%Q = 1.5%float
  ∧ @lit float (binary64 fsin fcos fexp fasin fatan2) 1500%Q = 1500%float.
Proof. repeat split; vm_compute; reflexivity. Qed.

(** The two galaxies of C2: the velocities are the doubles [0.000125] and
    [-0.000125], the positions the doubles nearest to [-0.999999375] and
    [0.999999375]. *)
Example two_body_binary64 :
  (h ← @updateGalaxies float string (binary64 fsin fcos fexp fasin fatan2)
         [0; 1]%nat two_galaxies64;
   snapshot [0; 1]%nat h)
  = Some [ Galaxy.Build (Vec3.new 0.000125 0 0) (Vec3.new (-0.999999375) 0 0)
             (Vec3.new 0 0 0) 100 [] ∅;
           Galaxy.Build (Vec3.new (-0.000125) 0 0) (Vec3.new 0.999999375 0 0)
             (Vec3.new 0 0 0) 100 [] ∅ ]%float.
Proof. vm_compute. reflexivity. Qed.

(** The options of C3's counterexample: a target of [2.5] gives three stars. *)
Example star_count_binary64 :
  (λ r, (Galaxy.mass (fst r), length (Galaxy.stars (fst r)))) <$>
    @createRandomGalaxy float string (binary64 fsin fcos fexp fasin fatan2) 10%nat
      (mkGalaxyOptions (Some 2%float) (Some 3%float) None None None None None)
      (λ _, 0.5%float) 0%nat
  = Some (2.5%float, 3%nat).
Proof. vm_compute. reflexivity. Qed.

(** [maxStarCount: 0] with [minStarCount: 2]: two stars, and the next draw
    is the one at position 9 + 4 * 2. *)
Example zero_max_binary64 :
  (λ r, (length (Galaxy.stars (fst r)), snd r)) <$>
    @createRandomGalaxy float string (binary64 fsin fcos fexp fasin fatan2) 10%nat
      (mkGalaxyOptions (Some 2%float) (Some 0%float) None None None None None)
      (λ _, 0.5%float) 0%nat
  = Some (2%nat, 17%nat).
Proof. vm_compute. reflexivity. Qed.

(** The star at the centre of galaxy 1: the update is the update
    computed from galaxy 0 alone, and its numbers are finite. *)
Example coincident_star_binary64 :
  @updateStar float string (binary64 fsin fcos fexp fasin fatan2)
    [0; 1]%nat 2%nat coincident_star64
  = @updateStar float string (binary64 fsin fcos fexp fasin fatan2)
      [0]%nat 2%nat coincident_star64
  ∧ (h ← @updateStar float string (binary64 fsin fcos fexp fasin fatan2)
           [0; 1]%nat 2%nat coincident_star64;
     s ← read_star 2%nat h;
     Some (PrimFloat.is_finite (Vec3.x (Star.vel s)),
           PrimFloat.is_finite (Vec3.x (Star.pos s))))
    = Some (true, true).
Proof. split; vm_compute; reflexivity. Qed.

(** An array that names the same galaxy twice is outside the ownership
    C1 asks for: the one object is moved twice. *)
Example repeated_galaxy_binary64 :
  (h ← @updateGalaxies float string (binary64 fsin fcos fexp fasin fatan2)
         [0; 0]%nat moving_galaxy64;
   g ← read_galaxy 0%nat h;
   Some (Galaxy.pos g))
  = Some (Vec3.new 0.01 0 0)%float.
Proof. vm_compute. reflexivity. Qed.

(** Rounding against the properties that hold over the reals: the
    square of a small coordinate underflows, so that a vector that is not
    the zero vector has magnitude [0]; and [0.1 + 0.2 - 0.2] is not
    [0.1]. *)
Example rounding_binary64 :
  @Vec3.magnitude float (binary64 fsin fcos fexp fasin fatan2) (Vec3.new 0x1p-600 0 0)%float
  = 0%float
  ∧ (0.1 + 0.2 - 0.2 =? 0.1)%float = false.
Proof. split; vm_compute; reflexivity. Qed.

(** The skip needs finite coordinates: at an infinite coordinate the
    difference of a position with itself is NaN, and the test
    [distSq === 0] fails. *)
Example infinite_position_binary64 :
  same_position64 (Vec3.new infinity 0 0)%float (Vec3.new infinity 0 0)%float = false
  ∧ @nseq float (binary64 fsin fcos fexp fasin fatan2)
      (@nsquare float (binary64 fsin fcos fexp fasin fatan2)
         (@Vec3.magnitude float (binary64 fsin fcos fexp fasin fatan2)
            (@Vec3.sub float (binary64 fsin fcos fexp fasin fatan2)
               (Vec3.new infinity 0 0)%float (Vec3.Vec (Vec3.new infinity 0 0)%float))))
      (@lit float (binary64 fsin fcos fexp fasin fatan2) 0%Q)
    = false.
Proof. split; vm_compute; reflexivity. Qed.

End Binary64.
